(** * Max pooling layer (mlpack, methods/ann/layer/max_pooling.hpp)

    A shallow embedding of [MaxPoolingRule] and of the private operators of
    [MaxPoolingType]: the two [PoolingOperation] overloads and
    [UnpoolingOperation], together with the Armadillo operations they call.

    Conventions.
    - [size_t] (and Armadillo's [uword]) is a 64-bit unsigned integer: a [Z]
      in [0, 2^64) whose arithmetic wraps around ([add_sz], [sub_sz],
      [mul_sz]).
    - The element type [elem_type] is a template parameter of the layer.
      The forward operators only compare and copy elements; they are
      modelled on ordered elements ([Z]). The backward operator adds
      elements; it is modelled for any element type with its own addition
      ([ElemType]), in particular IEEE 754 binary64, the [double] of
      [arma::mat].
    - A cube stores its elements column by column, slice after slice, in one
      flat array; a bounds-checked Armadillo access that fails throws, which
      is [None] here. *)

From Stdlib Require Import ZArith Lia List SpecFloat QArith.
From stdpp Require Import base option list.

Local Open Scope Z_scope.

(** ** Machine integers *)

Definition size_bits : Z := 64.
Definition size_modulus : Z := 2 ^ size_bits.

Definition wrap (x : Z) : Z := x mod size_modulus.
Definition add_sz (a b : Z) : Z := wrap (a + b).
Definition sub_sz (a b : Z) : Z := wrap (a - b).
Definition mul_sz (a b : Z) : Z := wrap (a * b).

Definition is_size (x : Z) : Prop := 0 <= x < size_modulus.

(** ** Element types

    The arithmetic of [elem_type] that the backward pass uses: a zero and
    an addition. *)

Class ElemType (A : Type) : Type := {
  elem_zero : A;
  elem_add : A -> A -> A
}.

(** An integer element type: the addition is exact. *)
#[global] Instance elem_Z : ElemType Z :=
  {| elem_zero := 0; elem_add := Z.add |}.

(** [double]: IEEE 754 binary64, additions rounded to nearest, ties to
    even. *)
Definition double : Type := spec_float.

Definition double_add (x y : double) : double := SFadd 53 1024 x y.

#[global] Instance elem_double : ElemType double :=
  {| elem_zero := S754_zero false; elem_add := double_add |}.

(** The [double] nearest to an integer. *)
Definition double_of_Z (z : Z) : double := binary_normalize 53 1024 z 0 false.

(** The exact value of a finite [double]; infinities and NaN count as 0
    here. *)
Definition double_value (x : double) : Q :=
  match x with
  | S754_finite s m e => inject_Z (cond_Zopp s (Zpos m)) * Qpower 2 e
  | _ => 0
  end.

(** ** Armadillo containers *)

Module Arma.

(** [arma::Mat]: [m_rows] x [m_cols] elements, column-major. *)
Record Mat (A : Type) : Type := mkMat {
  m_rows : Z;
  m_cols : Z;
  m_mem : list A
}.
Arguments mkMat {A} _ _ _.
Arguments m_rows {A} _.
Arguments m_cols {A} _.
Arguments m_mem {A} _.

(** [arma::Cube]: [n_slices] matrices of [n_rows] x [n_cols] elements. *)
Record Cube (A : Type) : Type := mkCube {
  n_rows : Z;
  n_cols : Z;
  n_slices : Z;
  mem : list A
}.
Arguments mkCube {A} _ _ _ _.
Arguments n_rows {A} _.
Arguments n_cols {A} _.
Arguments n_slices {A} _.
Arguments mem {A} _.

Definition n_elem_slice {A} (c : Cube A) : Z := n_rows c * n_cols c.
Definition n_elem {A} (c : Cube A) : Z := n_rows c * n_cols c * n_slices c.

(** [c(i)]: flat element access, bounds-checked. *)
Definition at_flat {A} (c : Cube A) (i : Z) : option A :=
  if bool_decide (0 <= i < n_elem c) then mem c !! Z.to_nat i else None.

(** [c(i) = v]. *)
Definition set_flat {A} (c : Cube A) (i : Z) (v : A) : option (Cube A) :=
  if bool_decide (0 <= i < n_elem c)
  then Some (mkCube (n_rows c) (n_cols c) (n_slices c) (<[Z.to_nat i := v]> (mem c)))
  else None.

(** Position of [(row, col, slice)] in the flat array. *)
Definition flat_index {A} (c : Cube A) (row col slice : Z) : Z :=
  slice * n_elem_slice c + col * n_rows c + row.

Definition in_cube {A} (c : Cube A) (row col slice : Z) : Prop :=
  (0 <= row < n_rows c) /\ (0 <= col < n_cols c) /\ (0 <= slice < n_slices c).

(** [c(row, col, slice)], bounds-checked on every coordinate. *)
Definition at3 {A} (c : Cube A) (row col slice : Z) : option A :=
  if bool_decide (in_cube c row col slice)
  then mem c !! Z.to_nat (flat_index c row col slice)
  else None.

(** [c(row, col, slice) = v]. *)
Definition set3 {A} (c : Cube A) (row col slice : Z) (v : A) : option (Cube A) :=
  if bool_decide (in_cube c row col slice)
  then Some (mkCube (n_rows c) (n_cols c) (n_slices c)
               (<[Z.to_nat (flat_index c row col slice) := v]> (mem c)))
  else None.

(** [c.zeros()]: every element becomes zero, the shape is kept. *)
Definition zeros {A} `{ElemType A} (c : Cube A) : Cube A :=
  mkCube (n_rows c) (n_cols c) (n_slices c)
    (replicate (length (mem c)) elem_zero).

(** [c.slice(s)], bounds-checked. *)
Definition slice {A} (c : Cube A) (s : Z) : option (Mat A) :=
  if bool_decide (0 <= s < n_slices c)
  then Some (mkMat (n_rows c) (n_cols c)
               (take (Z.to_nat (n_elem_slice c))
                     (drop (Z.to_nat (s * n_elem_slice c)) (mem c))))
  else None.

(** One column of the window: rows [r1 .. r1 + h - 1] of column [c]. *)
Definition column_part {A} (m : Mat A) (r1 h c : Z) : list A :=
  take (Z.to_nat h) (drop (Z.to_nat (c * m_rows m + r1)) (m_mem m)).

(** [m.submat(r1, c1, r2, c2)]: the inclusive block, or an exception when
    the corners are reversed or outside the matrix. *)
Definition submat {A} (m : Mat A) (r1 c1 r2 c2 : Z) : option (Mat A) :=
  if bool_decide (r1 > r2 \/ c1 > c2 \/ r2 >= m_rows m \/ c2 >= m_cols m)
  then None
  else
    let h := r2 - r1 + 1 in
    let w := c2 - c1 + 1 in
    Some (mkMat h w
            (mjoin ((fun c => column_part m r1 h c) <$> seqZ c1 w))).

(** [m(row, col)], bounds-checked. *)
Definition at2 {A} (m : Mat A) (row col : Z) : option A :=
  if bool_decide ((0 <= row < m_rows m) /\ (0 <= col < m_cols m))
  then m_mem m !! Z.to_nat (col * m_rows m + row)
  else None.

(** [arma::accu(c)], the sum of all elements: the elements accumulated in
    storage order with the addition of the element type. With an exact
    addition the order does not matter; for [double] every addition rounds,
    and [exact_sum] below gives the sum of the exact values. *)
Definition accu {A} `{ElemType A} (c : Cube A) : A :=
  fold_left elem_add (mem c) elem_zero.

(** [arma::vectorise(m)]: the elements in storage (column-major) order. *)
Definition vectorise {A} (m : Mat A) : list A := m_mem m.

(** [arma::max(v)] of a vector; an empty vector throws. *)
Definition max (v : list Z) : option Z :=
  match v with
  | [] => None
  | x :: v' => Some (fold_left Z.max v' x)
  end.

(** [m == val]: the element-wise comparison, in storage order. *)
Definition rel_eq (m : Mat Z) (val : Z) : list bool :=
  map (fun x => x =? val) (m_mem m).

(** [arma::find(X, k)] : the positions of the first [k] nonzero elements
    of [X], in increasing order. *)
Fixpoint find_from (x : list bool) (k : nat) (pos : Z) : list Z :=
  match k, x with
  | O, _ => []
  | _, [] => []
  | S k', b :: x' =>
      if b then pos :: find_from x' k' (pos + 1)
      else find_from x' k (pos + 1)
  end.

Definition find (x : list bool) (k : nat) : list Z := find_from x k 0.

(** [arma::as_scalar(v)]: the only element of [v]; any other size throws. *)
Definition as_scalar {A} (v : list A) : option A :=
  match v with
  | [x] => Some x
  | _ => None
  end.

End Arma.

Import Arma.

(** ** Counted loops

    [for (size_t i = 0, idx = 0; i < n; ++i, idx += stride) body]: the trip
    count [n] is fixed before the loop (the body never changes the bound),
    the second counter advances by [stride] with wrap-around, and an
    exception in the body leaves the loop. *)

Fixpoint for_stride {St : Type} (n : nat) (i idx stride : Z)
    (body : Z -> Z -> St -> option St) (st : St) : option St :=
  match n with
  | O => Some st
  | S n' =>
      match body i idx st with
      | None => None
      | Some st' => for_stride n' (i + 1) (add_sz idx stride) stride body st'
      end
  end.

(** [for (size_t i = 0; i < n; ++i) body]. *)
Fixpoint for_range {St : Type} (n : nat) (i : Z)
    (body : Z -> St -> option St) (st : St) : option St :=
  match n with
  | O => Some st
  | S n' =>
      match body i st with
      | None => None
      | Some st' => for_range n' (i + 1) body st'
      end
  end.

(** ** MaxPoolingRule *)

Module MaxPoolingRule.

(** [Pooling(input)]: [arma::max(arma::vectorise(input))]. *)
Definition Pooling (input : Mat Z) : option Z :=
  Arma.max (vectorise input).

(** [PoolingWithIndex(input)]: the maximum and the position of the first
    element equal to it. *)
Definition PoolingWithIndex (input : Mat Z) : option (Z * Z) :=
  match Arma.max (vectorise input) with
  | None => None
  | Some maxVal =>
      match as_scalar (Arma.find (rel_eq input maxVal) 1) with
      | None => None
      | Some index => Some (index, maxVal)
      end
  end.

End MaxPoolingRule.

(** ** MaxPoolingType *)

(** The data members of the layer that the pooling operators read. *)
Record MaxPoolingType : Type := mkMaxPooling {
  kernelWidth : Z;
  kernelHeight : Z;
  strideWidth : Z;
  strideHeight : Z;
  floor : bool;
  channels : Z;
  offset : Z;
  poolingIndices : Cube Z
}.

(** The window of one output cell: [input.slice(s).submat(rowidx, colidx,
    rowidx + kernelWidth - 1 - offset, colidx + kernelHeight - 1 - offset)]. *)
Definition window (this : MaxPoolingType) (input : Cube Z) (s rowidx colidx : Z)
    : option (Mat Z) :=
  match slice input s with
  | None => None
  | Some sl =>
      submat sl rowidx colidx
        (sub_sz (sub_sz (add_sz rowidx (kernelWidth this)) 1) (offset this))
        (sub_sz (sub_sz (add_sz colidx (kernelHeight this)) 1) (offset this))
  end.

(** Integer division and remainder of [size_t]; a zero divisor is undefined
    behaviour, modelled as a failure. *)
Definition div_sz (a b : Z) : option Z :=
  if bool_decide (b = 0) then None else Some (a / b).
Definition rem_sz (a b : Z) : option Z :=
  if bool_decide (b = 0) then None else Some (a mod b).

(** The body of the innermost loop of the index-tracking overload. *)
Definition pool_cell_with_index (this : MaxPoolingType) (input : Cube Z)
    (s j colidx i rowidx : Z) (st : Cube Z * Cube Z) : option (Cube Z * Cube Z) :=
  let '(output, poolingIndices) := st in
  match window this input s rowidx colidx with
  | None => None
  | Some w =>
      match MaxPoolingRule.PoolingWithIndex w with
      | None => None
      | Some (poolIndex, maxVal) =>
          match div_sz poolIndex (sub_sz (kernelWidth this) (offset this)),
                rem_sz poolIndex (sub_sz (kernelWidth this) (offset this)) with
          | Some poolingCol, Some poolingRow =>
              let unmappedPoolingIndex :=
                add_sz
                  (add_sz (add_sz rowidx poolingRow)
                          (mul_sz (n_rows input) (add_sz colidx poolingCol)))
                  (mul_sz (mul_sz (n_rows input) (n_cols input)) s) in
              match set3 poolingIndices i j s unmappedPoolingIndex with
              | None => None
              | Some poolingIndices' =>
                  match set3 output i j s maxVal with
                  | None => None
                  | Some output' => Some (output', poolingIndices')
                  end
              end
          | _, _ => None
          end
      end
  end.

(** [PoolingOperation(input, output, poolingIndices)]: slices outermost,
    then output columns, then output rows. *)
Definition PoolingOperation (this : MaxPoolingType) (input : Cube Z)
    (output : Cube Z) (poolingIndices : Cube Z) : option (Cube Z * Cube Z) :=
  for_range (Z.to_nat (n_slices input)) 0
    (fun s st =>
       for_stride (Z.to_nat (n_cols output)) 0 0 (strideHeight this)
         (fun j colidx st =>
            for_stride (Z.to_nat (n_rows output)) 0 0 (strideWidth this)
              (fun i rowidx st =>
                 pool_cell_with_index this input s j colidx i rowidx st)
              st)
         st)
    (output, poolingIndices).

(** The body of the innermost loop of the overload without indices. *)
Definition pool_cell (this : MaxPoolingType) (input : Cube Z)
    (s j colidx i rowidx : Z) (output : Cube Z) : option (Cube Z) :=
  match window this input s rowidx colidx with
  | None => None
  | Some w =>
      match MaxPoolingRule.Pooling w with
      | None => None
      | Some v => set3 output i j s v
      end
  end.

(** [PoolingOperation(input, output)]: the same traversal, values only. *)
Definition PoolingOperationNoIndex (this : MaxPoolingType) (input : Cube Z)
    (output : Cube Z) : option (Cube Z) :=
  for_range (Z.to_nat (n_slices input)) 0
    (fun s st =>
       for_stride (Z.to_nat (n_cols output)) 0 0 (strideHeight this)
         (fun j colidx st =>
            for_stride (Z.to_nat (n_rows output)) 0 0 (strideWidth this)
              (fun i rowidx st => pool_cell this input s j colidx i rowidx st)
              st)
         st)
    output.

(** [UnpoolingOperation(error, output, poolingIndices)]:
    [output.zeros()], then [output(poolingIndices(i)) += error(i)] for every
    flat position [i] of [poolingIndices]. *)
Definition unpool_step {A} `{ElemType A} (error : Cube A)
    (poolingIndices : Cube Z) (i : Z) (output : Cube A) : option (Cube A) :=
  match at_flat poolingIndices i with
  | None => None
  | Some p =>
      match at_flat error i with
      | None => None
      | Some e =>
          match at_flat output p with
          | None => None
          | Some o => set_flat output p (elem_add o e)
          end
      end
  end.

Definition UnpoolingOperation {A} `{ElemType A} (error : Cube A)
    (output : Cube A) (poolingIndices : Cube Z) : option (Cube A) :=
  for_range (Z.to_nat (n_elem poolingIndices)) 0
    (unpool_step error poolingIndices) (zeros output).

(** ** Members defined outside the header

    [ComputeOutputDimensions] is declared in the header and defined in
    max_pooling_impl.hpp. *)

Inductive Result (A : Type) : Type :=
  | Ok (a : A)
  | ConfigurationError.
Arguments Ok {A} _.
Arguments ConfigurationError {A}.

(** The smallest integer not below [a / b], for [b > 0]. *)
Definition ceil_div (a b : Z) : Z := - ((- a) / b).

(** Modelled from the spec: the Dimension Calculator
    [ComputeOutputSize(inputSize, kernel, stride, mode)], whose code is in
    max_pooling_impl.hpp, not among the sources. Floor mode computes
    [floor((inputSize - kernel) / stride) + 1], ceil mode
    [ceil((inputSize - kernel) / stride) + 1]; a zero kernel or stride, or a
    computed size below 1, is a ConfigurationError. *)
Definition ComputeOutputSize (inputSize kernel stride : Z) (floorMode : bool)
    : Result Z :=
  if bool_decide (kernel = 0 \/ stride = 0) then ConfigurationError
  else
    let outputSize :=
      if floorMode then (inputSize - kernel) / stride + 1
      else ceil_div (inputSize - kernel) stride + 1 in
    if bool_decide (outputSize < 1) then ConfigurationError
    else Ok outputSize.

(** Width, height and channel count of a tensor. *)
Record Dimensions : Type := mkDimensions {
  width : Z;
  height : Z;
  channelCount : Z
}.

(** Modelled from the spec: [ComputeOutputDimensions], whose body is in
    max_pooling_impl.hpp, not among the sources. The calculator is applied
    to the width and to the height on their own; the channel count is
    carried over. *)
Definition ComputeOutputDimensions (this : MaxPoolingType)
    (inputDimensions : Dimensions) : Result Dimensions :=
  match ComputeOutputSize (width inputDimensions) (kernelWidth this)
          (strideWidth this) (floor this),
        ComputeOutputSize (height inputDimensions) (kernelHeight this)
          (strideHeight this) (floor this) with
  | Ok outputWidth, Ok outputHeight =>
      Ok (mkDimensions outputWidth outputHeight (channelCount inputDimensions))
  | _, _ => ConfigurationError
  end.

(** ** The concrete scenario: a 4x4 single-channel input *)

Definition layer2x2 : MaxPoolingType :=
  mkMaxPooling 2 2 2 2 true 1 0 (mkCube 0 0 0 []).

(** Rows [1 2 3 4], [5 6 7 8], [9 10 11 12], [13 14 15 16], stored column
    by column. *)
Definition input4x4 : Cube Z :=
  mkCube 4 4 1 [1; 5; 9; 13; 2; 6; 10; 14; 3; 7; 11; 15; 4; 8; 12; 16].

Definition blank (r c s : Z) : Cube Z :=
  mkCube r c s (replicate (Z.to_nat (r * c * s)) 0).

(** ** Well-formed containers

    The storage of a matrix or cube holds exactly the elements its
    dimensions announce, and their number is representable. *)

Definition mat_wf {A} (m : Mat A) : Prop :=
  0 <= m_rows m /\ 0 <= m_cols m /\
  Z.of_nat (length (m_mem m)) = m_rows m * m_cols m.

Definition cube_wf {A} (c : Cube A) : Prop :=
  0 <= n_rows c /\ 0 <= n_cols c /\ 0 <= n_slices c /\
  Z.of_nat (length (mem c)) = n_elem c /\ n_elem c < size_modulus.

Definition same_shape {A B} (c : Cube A) (d : Cube B) : Prop :=
  n_rows c = n_rows d /\ n_cols c = n_cols d /\ n_slices c = n_slices d.

(** ** Valid configurations and the cells of the forward pass *)

(** The extent of every window the operators cut out. *)
Definition windowRows (this : MaxPoolingType) : Z :=
  kernelWidth this - offset this.
Definition windowCols (this : MaxPoolingType) : Z :=
  kernelHeight this - offset this.

(** The stored sizes are [size_t] values and the window is not empty. *)
Definition config_ok (this : MaxPoolingType) : Prop :=
  is_size (kernelWidth this) /\ is_size (kernelHeight this) /\
  is_size (strideWidth this) /\ is_size (strideHeight this) /\
  is_size (offset this) /\
  1 <= windowRows this /\ 1 <= windowCols this.

(** [outSize] windows of [extent] elements, [stride] apart, lie inside
    [inSize] elements. *)
Definition fits (outSize stride extent inSize : Z) : Prop :=
  outSize = 0 \/ (outSize - 1) * stride + extent <= inSize.

(** The output has one slice per input slice and all its windows lie
    inside the input. *)
Definition shapes_ok (this : MaxPoolingType) (input output : Cube Z) : Prop :=
  cube_wf input /\ cube_wf output /\
  n_slices output = n_slices input /\
  fits (n_rows output) (strideWidth this) (windowRows this) (n_rows input) /\
  fits (n_cols output) (strideHeight this) (windowCols this) (n_cols input).

(** The window of output cell [(i, j)] in slice [s]. *)
Definition cell_window (this : MaxPoolingType) (input : Cube Z) (i j s : Z)
    : option (Mat Z) :=
  window this input s (i * strideWidth this) (j * strideHeight this).

(** The absolute index and the value the forward pass is to store for
    output cell [(i, j, s)]. *)
Definition cell_result (this : MaxPoolingType) (input : Cube Z) (i j s : Z)
    : option (Z * Z) :=
  match cell_window this input i j s with
  | None => None
  | Some w =>
      match MaxPoolingRule.PoolingWithIndex w with
      | None => None
      | Some (k, v) =>
          Some (flat_index input
                  (i * strideWidth this + k mod windowRows this)
                  (j * strideHeight this + k / windowRows this) s, v)
      end
  end.

(** A cell whose window lies inside the input. *)
Definition cell_fits (this : MaxPoolingType) (input : Cube Z) (i j s : Z) : Prop :=
  0 <= s < n_slices input /\ 0 <= i /\ 0 <= j /\
  i * strideWidth this + windowRows this <= n_rows input /\
  j * strideHeight this + windowCols this <= n_cols input.

(** The order in which the loops visit the output cells: slices outermost,
    then columns, then rows. [(i', j', s')] is visited before [(i, j, s)]. *)
Definition visited_before (i j s i' j' s' : Z) : Prop :=
  s' < s \/ (s' = s /\ (j' < j \/ (j' = j /\ i' < i))).

(** The loops are about to visit cell [(i, j, s)]: the invariant [Inv] of
    the state holds, and [Ok] holds at every cell visited so far. *)
Definition visited_upto {St : Type} (Inv : St -> Prop)
    (Ok : Z -> Z -> Z -> St -> Prop) (nR nC nS i j s : Z) (st : St) : Prop :=
  Inv st /\
  forall i' j' s', 0 <= i' < nR -> 0 <= j' < nC -> 0 <= s' < nS ->
    visited_before i j s i' j' s' -> Ok i' j' s' st.

(** The arguments of the index-tracking forward pass are consistent. *)
Definition forward_ok (this : MaxPoolingType) (input output indices : Cube Z)
    : Prop :=
  config_ok this /\ shapes_ok this input output /\
  cube_wf indices /\ same_shape indices output.

(** The state of the index-tracking pass at cell [(i, j, s)] once it has
    been visited. *)
Definition cell_stored (this : MaxPoolingType) (input : Cube Z) (i j s : Z)
    (st : Cube Z * Cube Z) : Prop :=
  exists u v,
    cell_result this input i j s = Some (u, v) /\
    at3 (fst st) i j s = Some v /\ at3 (snd st) i j s = Some u.

(** The same for the pass without indices. *)
Definition value_stored (this : MaxPoolingType) (input : Cube Z) (i j s : Z)
    (out : Cube Z) : Prop :=
  exists u v,
    cell_result this input i j s = Some (u, v) /\ at3 out i j s = Some v.

(** ** The gradient gathered at one input location *)

(** The upstream gradients of the cells whose index-map entry is [p], in
    the order of the cells. *)
Definition named_by {A} (p : Z) (cells : list (Z * A)) : list A :=
  (filter (fun ke => ke.1 = p) cells).*2.

(** Those gradients accumulated, in that order, onto zero with the
    addition of the element type: the sum the scatter loop forms at [p]. *)
Definition gathered_of {A} `{ElemType A} (cells : list (Z * A)) (p : Z) : A :=
  fold_left elem_add (named_by p cells) elem_zero.

Definition gathered {A} `{ElemType A} (indices : list Z) (errs : list A)
    (p : Z) : A :=
  gathered_of (zip indices errs) p.

(** The arguments of the backward pass are consistent: the upstream
    gradient has the shape of the index map, whose entries are locations of
    the gradient to fill. *)
Definition backward_ok {A} (error output : Cube A) (indices : Cube Z) : Prop :=
  cube_wf error /\ cube_wf output /\ cube_wf indices /\
  same_shape error indices /\
  (forall i k, at_flat indices i = Some k -> 0 <= k < n_elem output).

(** The state of the scatter loop before iteration [i]. *)
Definition scattered {A} `{ElemType A} (error output : Cube A)
    (indices : Cube Z) (i : Z) (out : Cube A) : Prop :=
  same_shape out output /\
  length (mem out) = length (mem output) /\
  (forall p : nat, (p < length (mem output))%nat ->
     mem out !! p =
       Some (gathered_of (take (Z.to_nat i) (zip (mem indices) (mem error)))
               (Z.of_nat p))).

(** The addition of an element type is exact: associative and commutative,
    with zero neutral, as for an integer type. *)
Definition exact_addition (A : Type) `{ElemType A} : Prop :=
  (forall x y z : A, elem_add x (elem_add y z) = elem_add (elem_add x y) z) /\
  (forall x y : A, elem_add x y = elem_add y x) /\
  (forall x : A, elem_add elem_zero x = x).

(** A cube of zeros. *)
Definition zero_cube (A : Type) `{ElemType A} (r c s : Z) : Cube A :=
  mkCube r c s (replicate (Z.to_nat (r * c * s)) elem_zero).


(** Overlapping windows: kernel 2x2, stride 1x1, on a 3x3 input whose
    largest element is in the middle, so that all four windows select it. *)
Definition layer_overlap : MaxPoolingType :=
  mkMaxPooling 2 2 1 1 true 1 0 (mkCube 2 2 1 [4; 4; 4; 4]).

Definition input3x3 : Cube Z :=
  mkCube 3 3 1 [1; 2; 3; 4; 9; 6; 7; 8; 5].

Definition gradient2x2 : Cube Z := mkCube 2 2 1 [1; 2; 3; 4].

(** ** Boundary clipping, as the ceil rounding mode is described *)

(** The extent of a kernel-sized window anchored at [i * stride] once it is
    cut at the boundary of [size] elements. *)
Definition clipped_extent (kernel stride size i : Z) : Z :=
  Z.min kernel (size - i * stride).

(** Every cell pools a window that spans the kernel unless the boundary of
    the input cuts it. *)
Definition boundary_clipping (this : MaxPoolingType) (input output : Cube Z)
    : Prop :=
  forall i j s, in_cube output i j s ->
    exists w,
      cell_window this input i j s = Some w /\
      m_rows w = clipped_extent (kernelWidth this) (strideWidth this)
                   (n_rows input) i /\
      m_cols w = clipped_extent (kernelHeight this) (strideHeight this)
                   (n_cols input) j.

(** A ceil-mode layer, kernel 2x2 and stride 2x2, with [off] in the offset
    member, and a 5x5 input holding 1 to 25: three windows per axis, the
    last of which starts on the last row or column. *)
Definition layer_ceil (off : Z) : MaxPoolingType :=
  mkMaxPooling 2 2 2 2 false 1 off (mkCube 0 0 0 []).

Definition input5x5 : Cube Z := mkCube 5 5 1 (seqZ 1 25).

(** ** Scenarios with [double] gradients *)

(** An upstream gradient whose first entry is 2^53: adding 1 to it rounds
    back to 2^53. *)
Definition gradient_big : Cube double :=
  mkCube 2 2 1 (double_of_Z <$> [2 ^ 53; 1; 1; 1]).

(** The index map of [layer_overlap] on [input3x3]: all four cells select
    the middle of the input. *)
Definition indices_middle : Cube Z := mkCube 2 2 1 [4; 4; 4; 4].

(** A column of five elements pooled by a window of two rows moved by one:
    the first two cells select row 1, the last two row 3. *)
Definition layer_column : MaxPoolingType :=
  mkMaxPooling 2 1 1 1 true 1 0 (mkCube 0 0 0 []).

Definition input_column : Cube Z := mkCube 5 1 1 [0; 9; 0; 9; 0].

Definition indices_column : Cube Z := mkCube 4 1 1 [1; 1; 3; 3].

(** An upstream gradient for it, of exact sum 4. *)
Definition gradient_cancel : Cube double :=
  mkCube 4 1 1 (double_of_Z <$> [1; 2 ^ 53; 3; - 2 ^ 53]).

(** The sum of the exact values of the entries. *)
Definition exact_sum (c : Cube double) : Q :=
  fold_right Qplus 0%Q (double_value <$> mem c).

(** A small upstream gradient in [double]. *)
Definition gradient_small : Cube double :=
  mkCube 2 2 1 (double_of_Z <$> [1; 2; 3; 4]).

(** A window with the maximum at two places. *)
Definition window_ties : Mat Z := mkMat 2 2 [3; 7; 7; 1].

(** ** Further scenarios *)


(** A 3x3 kernel, larger than the 2x2 input it is applied to. *)
Definition layer3x3 : MaxPoolingType :=
  mkMaxPooling 3 3 1 1 true 1 0 (mkCube 0 0 0 []).

Definition input2x2 : Cube Z := mkCube 2 2 1 [1; 2; 3; 4].

(** The 4x4 input with some elements raised. *)
Definition input4x4_raised : Cube Z :=
  mkCube 4 4 1 [1; 5; 9; 13; 2; 20; 10; 14; 3; 7; 11; 15; 4; 8; 12; 17].


(** The index stored at a cell designates the input element whose value
    the cell holds. *)
Definition index_safe (input : Cube Z) (i j s : Z) (st : Cube Z * Cube Z)
    : Prop :=
  exists u v,
    at3 (snd st) i j s = Some u /\ at3 (fst st) i j s = Some v /\
    at_flat input u = Some v.

(** A layer whose offset member is the largest [size_t]: with a 1x1 kernel
    the window extent [kernelWidth - offset] wraps around to 2. *)
Definition layer_wrapped : MaxPoolingType :=
  mkMaxPooling 1 1 1 1 true 1 18446744073709551615 (mkCube 0 0 0 []).

(** * Properties *)

(** ** Machine integers *)

Lemma size_modulus_eq : size_modulus = 18446744073709551616.
Proof. reflexivity. Qed.

Lemma wrap_small x : is_size x -> wrap x = x.
Proof. intros H. unfold wrap. apply Z.mod_small. exact H. Qed.

Lemma wrap_is_size x : is_size (wrap x).
Proof.
  unfold is_size, wrap. apply Z.mod_pos_bound.
  rewrite size_modulus_eq. lia.
Qed.

Lemma wrap_congr x y k : x = y + k * size_modulus -> is_size y -> wrap x = y.
Proof.
  intros -> Hy. unfold wrap. rewrite Z.mod_add.
  - apply Z.mod_small. exact Hy.
  - rewrite size_modulus_eq. lia.
Qed.

Lemma wrap_wrap_add_l a b : wrap (wrap a + b) = wrap (a + b).
Proof. unfold wrap. apply Zplus_mod_idemp_l. Qed.

Lemma wrap_wrap_sub_l a b : wrap (wrap a - b) = wrap (a - b).
Proof. unfold wrap. apply Zminus_mod_idemp_l. Qed.

(** ** The pooling rule on lists *)

Section ListMax.

Lemma fold_left_max_ge (l : list Z) (a : Z) : a <= fold_left Z.max l a.
Proof.
  revert a. induction l as [|x l IH]; intros a; simpl; [lia|].
  specialize (IH (Z.max a x)). lia.
Qed.

Lemma fold_left_max_upper (l : list Z) (a x : Z) :
  x ∈ l -> x <= fold_left Z.max l a.
Proof.
  revert a. induction l as [|y l IH]; intros a Hx; simpl.
  - inversion Hx.
  - apply elem_of_cons in Hx as [->|Hx].
    + pose proof (fold_left_max_ge l (Z.max a y)). lia.
    + apply IH. exact Hx.
Qed.

Lemma fold_left_max_elem (l : list Z) (a : Z) :
  fold_left Z.max l a = a \/ fold_left Z.max l a ∈ l.
Proof.
  revert a. induction l as [|y l IH]; intros a; simpl; [by left|].
  destruct (IH (Z.max a y)) as [Heq|Hin].
  - rewrite Heq. destruct (Z.max_spec a y) as [[_ ->]|[_ ->]].
    + right. apply elem_of_cons. by left.
    + by left.
  - right. apply elem_of_cons. by right.
Qed.

(** [arma::max] of a non-empty vector is an element of it that bounds all
    the others. *)
Lemma max_spec (l : list Z) :
  l <> [] ->
  exists v, Arma.max l = Some v /\ v ∈ l /\ (forall x, x ∈ l -> x <= v).
Proof.
  destruct l as [|a l]; [congruence|]. intros _.
  exists (fold_left Z.max l a). split; [reflexivity|]. split.
  - destruct (fold_left_max_elem l a) as [->|H].
    + apply elem_of_cons. by left.
    + apply elem_of_cons. by right.
  - intros x Hx. apply elem_of_cons in Hx as [->|Hx].
    + apply fold_left_max_ge.
    + by apply fold_left_max_upper.
Qed.

Lemma max_none (l : list Z) : Arma.max l = None -> l = [].
Proof. destruct l; [done|discriminate]. Qed.

(** [find(x, 1)] from position [pos]: either the first [true] at offset
    [k], or nothing when there is none. *)
Lemma find_from_first (x : list bool) (pos : Z) :
  (exists k : nat,
      x !! k = Some true /\
      (forall k' : nat, (k' < k)%nat -> x !! k' = Some false) /\
      find_from x 1 pos = [pos + Z.of_nat k])
  \/ ((forall k b, x !! k = Some b -> b = false) /\ find_from x 1 pos = []).
Proof.
  revert pos. induction x as [|b x IH]; intros pos.
  - right. split; [|reflexivity]. intros k b Hk. by rewrite lookup_nil in Hk.
  - destruct b.
    + left. exists 0%nat. split; [reflexivity|]. split; [lia|].
      simpl. replace (pos + Z.of_nat 0) with pos by lia. by destruct x.
    + destruct (IH (pos + 1)) as [(k & Hk & Hlt & Hf)|[Hall Hf]].
      * left. exists (S k). split; [exact Hk|]. split.
        -- intros [|k'] Hk'; [reflexivity|]. simpl. apply Hlt. lia.
        -- simpl. simpl in Hf. rewrite Hf. f_equal. lia.
      * right. split.
        -- intros [|k] b Hk; simpl in Hk; [congruence|]. by eapply Hall.
        -- exact Hf.
Qed.

(** The first position holding [v], when [v] occurs in [l]. *)
Lemma find_eq_first (l : list Z) (v : Z) :
  v ∈ l ->
  exists k : nat,
    Arma.find (map (fun x => x =? v) l) 1 = [Z.of_nat k] /\
    l !! k = Some v /\
    (forall k' : nat, (k' < k)%nat -> l !! k' <> Some v).
Proof.
  intros Hin. unfold Arma.find.
  destruct (find_from_first (map (fun x => x =? v) l) 0)
    as [(k & Hk & Hlt & Hf)|[Hall _]].
  - exists k. split; [exact Hf|]. split.
    + rewrite list_lookup_fmap in Hk.
      destruct (l !! k) as [y|] eqn:Hy; simpl in Hk; [|discriminate].
      f_equal. apply Z.eqb_eq. congruence.
    + intros k' Hk' Hv. specialize (Hlt k' Hk').
      rewrite list_lookup_fmap, Hv in Hlt. simpl in Hlt.
      rewrite Z.eqb_refl in Hlt. discriminate.
  - exfalso. apply list_elem_of_lookup in Hin as [k Hk].
    specialize (Hall k true). rewrite list_lookup_fmap, Hk in Hall. simpl in Hall.
    rewrite Z.eqb_refl in Hall. specialize (Hall eq_refl). discriminate.
Qed.

End ListMax.


(** ** The pooling rule on windows *)

Lemma at2_lookup {A} (m : Mat A) (r c : Z) (x : A) :
  at2 m r c = Some x ->
  0 <= r < m_rows m /\ 0 <= c < m_cols m /\
  m_mem m !! Z.to_nat (c * m_rows m + r) = Some x.
Proof.
  unfold at2. case_bool_decide as Hb; [|discriminate]. intros H. tauto.
Qed.

(** The rule on a non-empty window: value, position and tie-break. *)
Lemma pooling_rule_spec (w : Mat Z) :
  mat_wf w -> 0 < m_rows w -> 0 < m_cols w ->
  exists maxVal index,
    MaxPoolingRule.Pooling w = Some maxVal /\
    MaxPoolingRule.PoolingWithIndex w = Some (index, maxVal) /\
    (forall r c, 0 <= r < m_rows w -> 0 <= c < m_cols w ->
       exists x, at2 w r c = Some x /\ x <= maxVal) /\
    0 <= index < m_rows w * m_cols w /\
    at2 w (index mod m_rows w) (index / m_rows w) = Some maxVal /\
    (forall r c, at2 w r c = Some maxVal ->
       index / m_rows w < c \/
       (index / m_rows w = c /\ index mod m_rows w <= r)).
Proof.
  intros (HR & HC & Hlen) HRpos HCpos.
  assert (Hne : m_mem w <> []).
  { intros Hnil. rewrite Hnil in Hlen. simpl in Hlen. nia. }
  destruct (max_spec (m_mem w) Hne) as (v & Hmax & Hin & Hub).
  destruct (find_eq_first (m_mem w) v Hin) as (k & Hfind & Hk & Hfirst).
  pose proof (lookup_lt_Some _ _ _ Hk) as Hklt.
  assert (Hkr : 0 <= Z.of_nat k < m_rows w * m_cols w) by lia.
  pose proof (Z.div_mod (Z.of_nat k) (m_rows w) ltac:(lia)) as Hdm.
  pose proof (Z.mod_pos_bound (Z.of_nat k) (m_rows w) ltac:(lia)) as Hmod.
  assert (Hdiv : 0 <= Z.of_nat k / m_rows w < m_cols w).
  { split; [apply Z.div_pos; lia|]. apply Z.div_lt_upper_bound; lia. }
  exists v, (Z.of_nat k).
  split; [exact Hmax|]. split.
  { unfold MaxPoolingRule.PoolingWithIndex, vectorise, rel_eq.
    rewrite Hmax, Hfind. reflexivity. }
  split.
  { intros r c Hr Hc. unfold at2. rewrite bool_decide_eq_true_2 by tauto.
    destruct (lookup_lt_is_Some_2 (m_mem w) (Z.to_nat (c * m_rows w + r)))
      as [x Hx]; [nia|].
    exists x. split; [exact Hx|]. apply Hub.
    apply list_elem_of_lookup. eauto. }
  split; [exact Hkr|]. split.
  { unfold at2. rewrite bool_decide_eq_true_2 by tauto.
    replace (Z.of_nat k / m_rows w * m_rows w + Z.of_nat k mod m_rows w)
      with (Z.of_nat k) by lia.
    rewrite Nat2Z.id. exact Hk. }
  intros r c Hat. apply at2_lookup in Hat as (Hr & Hc & Hl).
  assert (Hge : Z.of_nat k <= c * m_rows w + r).
  { destruct (Z_le_gt_dec (Z.of_nat k) (c * m_rows w + r)) as [|Hgt]; [done|].
    exfalso. apply (Hfirst (Z.to_nat (c * m_rows w + r))); [nia|exact Hl]. }
  nia.
Qed.

(** ** Element access in cubes *)

Lemma mixed_radix_inj (R r a r' a' : Z) :
  0 <= r < R -> 0 <= r' < R -> a * R + r = a' * R + r' -> a = a' /\ r = r'.
Proof. intros Hr Hr' Heq. assert (a = a') by nia. subst. lia. Qed.

Lemma flat_index_inj {A} (c : Cube A) (i j s i' j' s' : Z) :
  in_cube c i j s -> in_cube c i' j' s' ->
  flat_index c i j s = flat_index c i' j' s' ->
  i = i' /\ j = j' /\ s = s'.
Proof.
  unfold in_cube, flat_index, n_elem_slice.
  intros (Hi & Hj & Hs) (Hi' & Hj' & Hs') Heq.
  destruct (mixed_radix_inj (n_rows c) i (s * n_cols c + j) i' (s' * n_cols c + j'))
    as [Ha Hb]; [lia|lia|lia|].
  destruct (mixed_radix_inj (n_cols c) j s j' s'); [lia|lia|lia|]. lia.
Qed.

Lemma flat_index_bounds {A} (c : Cube A) (i j s : Z) :
  in_cube c i j s -> 0 <= flat_index c i j s < n_elem c.
Proof.
  unfold in_cube, flat_index, n_elem, n_elem_slice.
  intros (Hi & Hj & Hs).
  assert (0 <= j * n_rows c <= (n_cols c - 1) * n_rows c) by nia.
  assert (0 <= s * (n_rows c * n_cols c)
            <= (n_slices c - 1) * (n_rows c * n_cols c)) by nia.
  lia.
Qed.

Lemma at3_at_flat {A} (c : Cube A) (i j s : Z) :
  in_cube c i j s -> at3 c i j s = at_flat c (flat_index c i j s).
Proof.
  intros Hin. unfold at3, at_flat.
  rewrite bool_decide_eq_true_2 by done.
  rewrite bool_decide_eq_true_2 by (by apply flat_index_bounds).
  reflexivity.
Qed.

Lemma at3_in_cube {A} (c : Cube A) (i j s : Z) (x : A) :
  at3 c i j s = Some x -> in_cube c i j s.
Proof. unfold at3. case_bool_decide; [done|discriminate]. Qed.

Lemma at3_is_Some {A} (c : Cube A) (i j s : Z) :
  cube_wf c -> in_cube c i j s -> is_Some (at3 c i j s).
Proof.
  intros (_ & _ & _ & Hlen & _) Hin. unfold at3.
  rewrite bool_decide_eq_true_2 by done.
  apply lookup_lt_is_Some_2. pose proof (flat_index_bounds c i j s Hin). lia.
Qed.

Lemma set3_Some {A} (c : Cube A) (i j s : Z) (v : A) :
  in_cube c i j s ->
  set3 c i j s v =
    Some (mkCube (n_rows c) (n_cols c) (n_slices c)
            (<[Z.to_nat (flat_index c i j s) := v]> (mem c))).
Proof. intros Hin. unfold set3. by rewrite bool_decide_eq_true_2. Qed.

Lemma set3_inv {A} (c c' : Cube A) (i j s : Z) (v : A) :
  set3 c i j s v = Some c' ->
  in_cube c i j s /\ same_shape c' c /\
  mem c' = <[Z.to_nat (flat_index c i j s) := v]> (mem c).
Proof.
  unfold set3. case_bool_decide; [|discriminate].
  intros [= <-]. split; [done|]. split; [|reflexivity]. by repeat split.
Qed.

Lemma set3_wf {A} (c c' : Cube A) (i j s : Z) (v : A) :
  cube_wf c -> set3 c i j s v = Some c' -> cube_wf c'.
Proof.
  intros Hwf Hset. apply set3_inv in Hset as (_ & (Hr & Hc & Hs) & Hmem).
  unfold cube_wf, n_elem in *. rewrite Hr, Hc, Hs, Hmem, length_insert. exact Hwf.
Qed.

Lemma at3_set3_eq {A} (c c' : Cube A) (i j s : Z) (v : A) :
  cube_wf c -> set3 c i j s v = Some c' -> at3 c' i j s = Some v.
Proof.
  intros Hwf Hset. apply set3_inv in Hset as (Hin & (Hr & Hc & Hs) & Hmem).
  unfold at3. rewrite bool_decide_eq_true_2.
  - unfold flat_index, n_elem_slice in *. rewrite Hr, Hc, Hmem.
    apply list_lookup_insert_eq.
    destruct Hwf as (_ & _ & _ & Hlen & _).
    pose proof (flat_index_bounds c i j s Hin) as Hb.
    unfold flat_index, n_elem_slice in Hb. lia.
  - unfold in_cube in *. rewrite Hr, Hc, Hs. exact Hin.
Qed.

Lemma at3_set3_ne {A} (c c' : Cube A) (i j s i' j' s' : Z) (v : A) :
  set3 c i j s v = Some c' ->
  (i', j', s') <> (i, j, s) ->
  at3 c' i' j' s' = at3 c i' j' s'.
Proof.
  intros Hset Hne. apply set3_inv in Hset as (Hin & (Hr & Hc & Hs) & Hmem).
  unfold at3, in_cube in *. rewrite Hr, Hc, Hs.
  case_bool_decide as Hin'; [|reflexivity].
  unfold flat_index, n_elem_slice in *. rewrite Hr, Hc, Hmem.
  apply list_lookup_insert_ne.
  intros Heq. apply Hne.
  pose proof (flat_index_bounds c i j s Hin) as Hb.
  pose proof (flat_index_bounds c i' j' s' Hin') as Hb'.
  destruct (flat_index_inj c i j s i' j' s' Hin Hin') as (-> & -> & ->); [|done].
  unfold flat_index, n_elem_slice in *. lia.
Qed.

(** ** Slices and windows *)

Lemma slice_Some {A} (c : Cube A) (s : Z) :
  0 <= s < n_slices c ->
  slice c s =
    Some (mkMat (n_rows c) (n_cols c)
            (take (Z.to_nat (n_elem_slice c))
                  (drop (Z.to_nat (s * n_elem_slice c)) (mem c)))).
Proof. intros Hs. unfold slice. by rewrite bool_decide_eq_true_2. Qed.

(** An element of a slice is the element of the cube at the same row and
    column. *)
Lemma slice_at2 {A} (c : Cube A) (s : Z) (sl : Mat A) (i j : Z) :
  slice c s = Some sl ->
  0 <= i < n_rows c -> 0 <= j < n_cols c ->
  at2 sl i j = at3 c i j s.
Proof.
  unfold slice. case_bool_decide as Hs; [|discriminate]. intros [= <-] Hi Hj.
  unfold at2, at3, in_cube. simpl.
  rewrite !bool_decide_eq_true_2 by tauto.
  unfold flat_index, n_elem_slice.
  assert (0 <= j * n_rows c + i < n_rows c * n_cols c) by nia.
  assert (0 <= s * (n_rows c * n_cols c)) by nia.
  rewrite lookup_take_lt by lia.
  rewrite lookup_drop. f_equal. lia.
Qed.

Lemma column_part_length {A} (m : Mat A) (r1 h c : Z) :
  mat_wf m -> 0 <= r1 -> 0 <= h -> r1 + h <= m_rows m -> 0 <= c < m_cols m ->
  length (column_part m r1 h c) = Z.to_nat h.
Proof.
  intros (HR & HC & Hlen) Hr1 Hh Hfit Hc. unfold column_part.
  assert (0 <= c * m_rows m + r1 /\
          c * m_rows m + r1 + h <= m_rows m * m_cols m) by nia.
  rewrite length_take_le; [done|]. rewrite length_drop. lia.
Qed.

Lemma column_part_lookup {A} (m : Mat A) (r1 h c : Z) (k : nat) :
  0 <= r1 -> 0 <= c -> 0 <= m_rows m -> Z.of_nat k < h ->
  column_part m r1 h c !! k = m_mem m !! Z.to_nat (c * m_rows m + (r1 + Z.of_nat k)).
Proof.
  intros Hr1 Hc HR Hk. unfold column_part.
  assert (0 <= c * m_rows m) by nia.
  rewrite lookup_take_lt by lia. rewrite lookup_drop. f_equal. lia.
Qed.

(** [submat] on corners that pass the bounds check. *)
Lemma submat_Some {A} (m : Mat A) (r1 c1 r2 c2 : Z) :
  r1 <= r2 -> c1 <= c2 -> r2 < m_rows m -> c2 < m_cols m ->
  submat m r1 c1 r2 c2 =
    Some (mkMat (r2 - r1 + 1) (c2 - c1 + 1)
            (mjoin ((fun c => column_part m r1 (r2 - r1 + 1) c)
                      <$> seqZ c1 (c2 - c1 + 1)))).
Proof.
  intros. unfold submat. rewrite bool_decide_eq_false_2; [done|]. lia.
Qed.

Lemma submat_columns_length {A} (m : Mat A) (r1 c1 h w : Z) :
  mat_wf m -> 0 <= r1 -> 0 <= c1 -> 0 <= h ->
  r1 + h <= m_rows m -> c1 + w <= m_cols m ->
  Forall (fun l : list A => length l = Z.to_nat h)
    ((fun c => column_part m r1 h c) <$> seqZ c1 w).
Proof.
  intros Hwf Hr1 Hc1 Hh Hfr Hfc.
  apply Forall_fmap, Forall_seqZ. intros c Hc. simpl.
  apply column_part_length; [done|lia..].
Qed.

(** The block cut out by [submat]: its shape, and its elements in terms of
    the elements of the matrix. *)
Lemma submat_spec {A} (m : Mat A) (r1 c1 h w : Z) :
  mat_wf m -> 0 <= r1 -> 0 <= c1 -> 1 <= h -> 1 <= w ->
  r1 + h <= m_rows m -> c1 + w <= m_cols m ->
  exists win,
    submat m r1 c1 (r1 + h - 1) (c1 + w - 1) = Some win /\
    m_rows win = h /\ m_cols win = w /\ mat_wf win /\
    (forall r c, 0 <= r < h -> 0 <= c < w ->
       at2 win r c = at2 m (r1 + r) (c1 + c)).
Proof.
  intros Hwf Hr1 Hc1 Hh Hw Hfr Hfc.
  rewrite submat_Some by lia.
  replace (r1 + h - 1 - r1 + 1) with h by lia.
  replace (c1 + w - 1 - c1 + 1) with w by lia.
  pose proof (submat_columns_length m r1 c1 h w Hwf Hr1 Hc1 ltac:(lia) Hfr Hfc)
    as Hall.
  eexists. split; [reflexivity|]. simpl.
  split; [reflexivity|]. split; [reflexivity|]. split.
  { unfold mat_wf. simpl. split; [lia|]. split; [lia|].
    rewrite length_join, (sum_list_fmap_same (Z.to_nat h)) by exact Hall.
    rewrite length_fmap, length_seqZ. nia. }
  intros r c Hr Hc. unfold at2. simpl.
  rewrite !bool_decide_eq_true_2 by lia.
  replace (Z.to_nat (c * h + r))
    with (Z.to_nat c * Z.to_nat h + Z.to_nat r)%nat by nia.
  destruct Hwf as (HR & HC & Hlen).
  assert (Hcol : ((fun c0 => column_part m r1 h c0) <$> seqZ c1 w) !! Z.to_nat c
                 = Some (column_part m r1 h (c1 + c))).
  { rewrite list_lookup_fmap, lookup_seqZ_lt by lia. simpl. do 2 f_equal. lia. }
  assert (Hel : column_part m r1 h (c1 + c) !! Z.to_nat r
                = m_mem m !! Z.to_nat ((c1 + c) * m_rows m + (r1 + r))).
  { rewrite column_part_lookup by lia. do 2 f_equal. lia. }
  destruct (m_mem m !! Z.to_nat ((c1 + c) * m_rows m + (r1 + r))) as [x|] eqn:Hx.
  - apply (join_lookup_Some_same_length' (Z.to_nat h)); [exact Hall|lia|].
    eexists. split; [exact Hcol|exact Hel].
  - exfalso. apply lookup_ge_None in Hx. nia.
Qed.

Lemma slice_wf {A} (c : Cube A) (s : Z) (sl : Mat A) :
  cube_wf c -> slice c s = Some sl ->
  mat_wf sl /\ m_rows sl = n_rows c /\ m_cols sl = n_cols c.
Proof.
  intros (HR & HC & HS & Hlen & _).
  unfold slice. case_bool_decide as Hs; [|discriminate]. intros [= <-].
  unfold mat_wf. simpl. repeat split; try done.
  unfold n_elem, n_elem_slice in *.
  assert (0 <= s * (n_rows c * n_cols c)
          /\ s * (n_rows c * n_cols c) + n_rows c * n_cols c
             <= n_rows c * n_cols c * n_slices c) by nia.
  rewrite length_take_le; [lia|]. rewrite length_drop. lia.
Qed.

(** The lower-right corner of a window, computed with wrap-around, is the
    exact corner whenever that one is a [size_t]. *)
Lemma corner_wrap (a k off : Z) :
  sub_sz (sub_sz (add_sz a k) 1) off = wrap (a + k - 1 - off).
Proof.
  unfold sub_sz, add_sz.
  rewrite wrap_wrap_sub_l.
  replace (wrap (a + k) - 1 - off) with (wrap (a + k) - (1 + off)) by lia.
  rewrite wrap_wrap_sub_l. f_equal. lia.
Qed.

Lemma corner_exact (a k off : Z) :
  is_size (a + k - 1 - off) ->
  sub_sz (sub_sz (add_sz a k) 1) off = a + k - 1 - off.
Proof. intros H. rewrite corner_wrap. by apply wrap_small. Qed.

(** The window of a cell that lies inside the input: its shape, and its
    elements in terms of the elements of the input. *)
Lemma window_spec (this : MaxPoolingType) (input : Cube Z) (s r1 c1 : Z) :
  cube_wf input -> config_ok this ->
  0 <= s < n_slices input -> 0 <= r1 -> 0 <= c1 ->
  r1 + windowRows this <= n_rows input ->
  c1 + windowCols this <= n_cols input ->
  exists w,
    window this input s r1 c1 = Some w /\
    m_rows w = windowRows this /\ m_cols w = windowCols this /\ mat_wf w /\
    (forall r c, 0 <= r < windowRows this -> 0 <= c < windowCols this ->
       at2 w r c = at3 input (r1 + r) (c1 + c) s).
Proof.
  intros Hwf (HkW & HkH & _ & _ & Hoff & Hwr & Hwc) Hs Hr1 Hc1 Hfr Hfc.
  unfold windowRows, windowCols in *.
  pose proof Hwf as (HR & HC & HS & Hlen & Hsz).
  assert (HRC : n_rows input < size_modulus /\ n_cols input < size_modulus).
  { unfold n_elem in Hsz.
    assert (1 <= n_rows input /\ 1 <= n_cols input /\ 1 <= n_slices input)
      as (? & ? & ?) by lia.
    assert (n_rows input * n_cols input
              <= n_rows input * n_cols input * n_slices input) by nia.
    assert (n_rows input <= n_rows input * n_cols input) by nia.
    assert (n_cols input <= n_rows input * n_cols input) by nia.
    lia. }
  unfold window. rewrite slice_Some by done.
  set (sl := mkMat _ _ _).
  assert (Hsl : slice input s = Some sl) by (by apply slice_Some).
  destruct (slice_wf input s sl Hwf Hsl) as (Hslwf & HslR & HslC).
  rewrite !corner_exact by (unfold is_size; lia).
  destruct (submat_spec sl r1 c1 (kernelWidth this - offset this)
              (kernelHeight this - offset this))
    as (w & Hsub & HwR & HwC & Hwwf & Hel); [done|lia..|].
  exists w.
  replace (r1 + kernelWidth this - 1 - offset this)
    with (r1 + (kernelWidth this - offset this) - 1) by lia.
  replace (c1 + kernelHeight this - 1 - offset this)
    with (c1 + (kernelHeight this - offset this) - 1) by lia.
  split; [exact Hsub|]. split; [exact HwR|]. split; [exact HwC|].
  split; [exact Hwwf|].
  intros r c Hr Hc. rewrite Hel by done.
  apply slice_at2; [exact Hsl|lia|lia].
Qed.

(** The absolute index, computed with wrap-around, is the flat index of the
    selected element. *)
Lemma unmapped_index_exact (input : Cube Z) (s rowidx pr colidx pc : Z) :
  cube_wf input -> in_cube input (rowidx + pr) (colidx + pc) s ->
  0 <= rowidx -> 0 <= pr -> 0 <= colidx -> 0 <= pc ->
  add_sz (add_sz (add_sz rowidx pr)
                 (mul_sz (n_rows input) (add_sz colidx pc)))
         (mul_sz (mul_sz (n_rows input) (n_cols input)) s)
  = flat_index input (rowidx + pr) (colidx + pc) s.
Proof.
  intros (HR & HC & HS & Hlen & Hsz) Hin Hri Hpr Hci Hpc.
  pose proof (flat_index_bounds input _ _ _ Hin) as Hb.
  destruct Hin as (Hr & Hc & Hs).
  unfold flat_index, n_elem, n_elem_slice in *.
  assert (0 <= n_rows input * (colidx + pc)
            <= n_rows input * (n_cols input - 1)) by nia.
  assert (0 <= n_rows input * n_cols input * s
            <= n_rows input * n_cols input * (n_slices input - 1)) by nia.
  assert (0 <= n_rows input * n_cols input) by nia.
  assert (n_rows input * n_cols input
            <= n_rows input * n_cols input * n_slices input) by nia.
  assert (n_rows input <= n_rows input * n_cols input) by nia.
  assert (n_cols input <= n_rows input * n_cols input) by nia.
  unfold add_sz, mul_sz.
  rewrite (wrap_small (rowidx + pr)) by (unfold is_size; lia).
  rewrite (wrap_small (colidx + pc)) by (unfold is_size; lia).
  rewrite (wrap_small (n_rows input * (colidx + pc))) by (unfold is_size; lia).
  rewrite (wrap_small (n_rows input * n_cols input)) by (unfold is_size; lia).
  rewrite (wrap_small (n_rows input * n_cols input * s)) by (unfold is_size; lia).
  rewrite (wrap_small (rowidx + pr + n_rows input * (colidx + pc)))
    by (unfold is_size; lia).
  rewrite wrap_small by (unfold is_size; lia).
  lia.
Qed.

(** ** One cell of the forward pass *)

(** What [cell_result] is for such a cell: the window, its maximum with the
    window-local position [k], and the absolute index of that position. *)
Lemma cell_result_spec (this : MaxPoolingType) (input : Cube Z) (i j s : Z) :
  cube_wf input -> config_ok this -> cell_fits this input i j s ->
  exists w k v,
    cell_window this input i j s = Some w /\
    m_rows w = windowRows this /\ m_cols w = windowCols this /\
    MaxPoolingRule.Pooling w = Some v /\
    MaxPoolingRule.PoolingWithIndex w = Some (k, v) /\
    0 <= k mod windowRows this < windowRows this /\
    0 <= k / windowRows this < windowCols this /\
    in_cube input (i * strideWidth this + k mod windowRows this)
                  (j * strideHeight this + k / windowRows this) s /\
    at3 input (i * strideWidth this + k mod windowRows this)
              (j * strideHeight this + k / windowRows this) s = Some v /\
    cell_result this input i j s =
      Some (flat_index input (i * strideWidth this + k mod windowRows this)
              (j * strideHeight this + k / windowRows this) s, v).
Proof.
  intros Hwf Hcfg (Hs & Hi & Hj & Hfr & Hfc).
  pose proof Hcfg as (_ & _ & HsW & HsH & _ & Hwr & Hwc).
  assert (Hr1 : 0 <= i * strideWidth this) by (unfold is_size in *; nia).
  assert (Hc1 : 0 <= j * strideHeight this) by (unfold is_size in *; nia).
  destruct (window_spec this input s _ _ Hwf Hcfg Hs Hr1 Hc1 Hfr Hfc)
    as (w & Hw & HwR & HwC & Hwwf & Hel).
  destruct (pooling_rule_spec w Hwwf ltac:(lia) ltac:(lia))
    as (v & k & HP & HPI & _ & Hk & Hat & _).
  rewrite HwR in Hat. rewrite HwR, HwC in Hk.
  assert (Hmod : 0 <= k mod windowRows this < windowRows this)
    by (apply Z.mod_pos_bound; lia).
  assert (Hdiv : 0 <= k / windowRows this < windowCols this).
  { split; [apply Z.div_pos; lia|]. apply Z.div_lt_upper_bound; lia. }
  rewrite Hel in Hat by done.
  exists w, k, v. unfold cell_result, cell_window in *. rewrite Hw, HPI.
  repeat (split; [done|]). split; [|done].
  by eapply at3_in_cube.
Qed.

(** The secondary loop counter of a cell inside the input has not wrapped. *)
Lemma counter_exact (i stride extent size : Z) :
  0 <= i -> is_size stride -> 1 <= extent ->
  i * stride + extent <= size -> size < size_modulus ->
  wrap (i * stride) = i * stride.
Proof.
  intros Hi Hs He Hf Hsz. apply wrap_small. unfold is_size in *. nia.
Qed.

Lemma cube_dims_small {A} (c : Cube A) :
  cube_wf c -> 1 <= n_rows c -> 1 <= n_cols c -> 1 <= n_slices c ->
  n_rows c < size_modulus /\ n_cols c < size_modulus.
Proof.
  intros (HR & HC & HS & _ & Hsz) ? ? ?. unfold n_elem in Hsz.
  assert (n_rows c * n_cols c <= n_rows c * n_cols c * n_slices c) by nia.
  assert (n_rows c <= n_rows c * n_cols c) by nia.
  assert (n_cols c <= n_rows c * n_cols c) by nia.
  lia.
Qed.

(** The loop body of the index-tracking overload stores the two components
    of [cell_result]. *)
Lemma pool_cell_with_index_eq (this : MaxPoolingType) (input : Cube Z)
    (i j s u v : Z) (output indices : Cube Z) :
  cube_wf input -> config_ok this -> cell_fits this input i j s ->
  cell_result this input i j s = Some (u, v) ->
  pool_cell_with_index this input s
      j (wrap (j * strideHeight this)) i (wrap (i * strideWidth this))
      (output, indices)
  = match set3 indices i j s u with
    | None => None
    | Some indices' =>
        match set3 output i j s v with
        | None => None
        | Some output' => Some (output', indices')
        end
    end.
Proof.
  intros Hwf Hcfg Hfit Hres.
  destruct (cell_result_spec this input i j s Hwf Hcfg Hfit)
    as (w & k & v' & Hw & HwR & HwC & HP & HPI & Hmod & Hdiv & Hin & Hat & Hres').
  rewrite Hres in Hres'. injection Hres' as -> ->.
  destruct Hfit as (Hs & Hi & Hj & Hfr & Hfc).
  pose proof Hcfg as (_ & _ & HsW & HsH & _ & Hwr & Hwc).
  assert (Hr1 : 0 <= i * strideWidth this) by (unfold is_size in *; nia).
  assert (Hc1 : 0 <= j * strideHeight this) by (unfold is_size in *; nia).
  destruct (cube_dims_small input Hwf) as [HRs HCs]; [lia..|].
  unfold pool_cell_with_index.
  rewrite (counter_exact i _ _ _ Hi HsW Hwr Hfr HRs).
  rewrite (counter_exact j _ _ _ Hj HsH Hwc Hfc HCs).
  unfold cell_window in Hw. rewrite Hw, HPI.
  assert (Hd : sub_sz (kernelWidth this) (offset this) = windowRows this).
  { unfold sub_sz. apply wrap_small. unfold windowRows, is_size in *. lia. }
  rewrite Hd. unfold div_sz, rem_sz.
  rewrite bool_decide_eq_false_2 by lia.
  rewrite unmapped_index_exact; [reflexivity|done|done|lia..].
Qed.

(** The loop body of the overload without indices stores the value. *)
Lemma pool_cell_eq (this : MaxPoolingType) (input : Cube Z)
    (i j s u v : Z) (output : Cube Z) :
  cube_wf input -> config_ok this -> cell_fits this input i j s ->
  cell_result this input i j s = Some (u, v) ->
  pool_cell this input s
      j (wrap (j * strideHeight this)) i (wrap (i * strideWidth this)) output
  = set3 output i j s v.
Proof.
  intros Hwf Hcfg Hfit Hres.
  destruct (cell_result_spec this input i j s Hwf Hcfg Hfit)
    as (w & k & v' & Hw & HwR & HwC & HP & HPI & Hmod & Hdiv & Hin & Hat & Hres').
  rewrite Hres in Hres'. injection Hres' as -> ->.
  destruct Hfit as (Hs & Hi & Hj & Hfr & Hfc).
  pose proof Hcfg as (_ & _ & HsW & HsH & _ & Hwr & Hwc).
  assert (Hr1 : 0 <= i * strideWidth this) by (unfold is_size in *; nia).
  assert (Hc1 : 0 <= j * strideHeight this) by (unfold is_size in *; nia).
  destruct (cube_dims_small input Hwf) as [HRs HCs]; [lia..|].
  unfold pool_cell.
  rewrite (counter_exact i _ _ _ Hi HsW Hwr Hfr HRs).
  rewrite (counter_exact j _ _ _ Hj HsH Hwc Hfc HCs).
  unfold cell_window in Hw. rewrite Hw, HP. reflexivity.
Qed.

(** ** Loop invariants *)

Lemma for_range_inv {St : Type} (P : Z -> St -> Prop)
    (body : Z -> St -> option St) (n : nat) (i0 : Z) (st0 : St) :
  P i0 st0 ->
  (forall i st, i0 <= i < i0 + Z.of_nat n -> P i st ->
     exists st', body i st = Some st' /\ P (i + 1) st') ->
  exists st', for_range n i0 body st0 = Some st' /\ P (i0 + Z.of_nat n) st'.
Proof.
  revert i0 st0. induction n as [|n IH]; intros i0 st0 H0 Hstep.
  - exists st0. split; [reflexivity|]. by replace (i0 + Z.of_nat 0) with i0 by lia.
  - destruct (Hstep i0 st0 ltac:(lia) H0) as (st1 & Hb & H1).
    destruct (IH (i0 + 1) st1 H1) as (st' & Hloop & Hfin).
    { intros i st Hi. apply Hstep. lia. }
    exists st'. simpl. rewrite Hb. split; [exact Hloop|].
    by replace (i0 + Z.of_nat (S n)) with (i0 + 1 + Z.of_nat n) by lia.
Qed.

Lemma add_sz_counter (i stride : Z) :
  add_sz (wrap (i * stride)) stride = wrap ((i + 1) * stride).
Proof.
  unfold add_sz. rewrite wrap_wrap_add_l. f_equal. lia.
Qed.

Lemma for_stride_inv_from {St : Type} (P : Z -> St -> Prop)
    (body : Z -> Z -> St -> option St) (stride : Z) (n : nat) (i0 : Z) (st0 : St) :
  P i0 st0 ->
  (forall i st, i0 <= i < i0 + Z.of_nat n -> P i st ->
     exists st', body i (wrap (i * stride)) st = Some st' /\ P (i + 1) st') ->
  exists st',
    for_stride n i0 (wrap (i0 * stride)) stride body st0 = Some st' /\
    P (i0 + Z.of_nat n) st'.
Proof.
  revert i0 st0. induction n as [|n IH]; intros i0 st0 H0 Hstep.
  - exists st0. split; [reflexivity|]. by replace (i0 + Z.of_nat 0) with i0 by lia.
  - destruct (Hstep i0 st0 ltac:(lia) H0) as (st1 & Hb & H1).
    destruct (IH (i0 + 1) st1 H1) as (st' & Hloop & Hfin).
    { intros i st Hi. apply Hstep. lia. }
    exists st'. simpl. rewrite Hb, add_sz_counter. split; [exact Hloop|].
    by replace (i0 + Z.of_nat (S n)) with (i0 + 1 + Z.of_nat n) by lia.
Qed.

(** A loop that starts with both counters at zero. *)
Lemma for_stride_inv {St : Type} (P : Z -> St -> Prop)
    (body : Z -> Z -> St -> option St) (stride : Z) (n : Z) (st0 : St) :
  0 <= n -> P 0 st0 ->
  (forall i st, 0 <= i < n -> P i st ->
     exists st', body i (wrap (i * stride)) st = Some st' /\ P (i + 1) st') ->
  exists st',
    for_stride (Z.to_nat n) 0 0 stride body st0 = Some st' /\ P n st'.
Proof.
  intros Hn H0 Hstep.
  destruct (for_stride_inv_from P body stride (Z.to_nat n) 0 st0 H0)
    as (st' & Hloop & Hfin).
  { intros i st Hi. apply Hstep. lia. }
  exists st'. split; [exact Hloop|].
  by replace (0 + Z.of_nat (Z.to_nat n)) with n in Hfin by lia.
Qed.

(** ** The traversal of the output cells *)

Section Traversal.

Context {St : Type}.
Variable body : Z -> Z -> Z -> Z -> Z -> St -> option St.
Variables sW sH nR nC nS : Z.
Variable Inv : St -> Prop.
Variable Ok : Z -> Z -> Z -> St -> Prop.

Hypothesis nR_nonneg : 0 <= nR.
Hypothesis nC_nonneg : 0 <= nC.

(** One iteration establishes [Ok] at its own cell and keeps it at every
    other cell. *)
Hypothesis step : forall i j s st,
  0 <= i < nR -> 0 <= j < nC -> 0 <= s < nS -> Inv st ->
  exists st',
    body s j (wrap (j * sH)) i (wrap (i * sW)) st = Some st' /\
    Inv st' /\ Ok i j s st' /\
    (forall i' j' s', (i', j', s') <> (i, j, s) ->
       Ok i' j' s' st -> Ok i' j' s' st').

Lemma traverse_rows (j s : Z) (st0 : St) :
  0 <= j < nC -> 0 <= s < nS -> visited_upto Inv Ok nR nC nS 0 j s st0 ->
  exists st',
    for_stride (Z.to_nat nR) 0 0 sW
      (fun i rowidx st => body s j (wrap (j * sH)) i rowidx st) st0 = Some st' /\
    visited_upto Inv Ok nR nC nS 0 (j + 1) s st'.
Proof.
  intros Hj Hs H0.
  destruct (for_stride_inv (fun i st => visited_upto Inv Ok nR nC nS i j s st)
              (fun i rowidx st => body s j (wrap (j * sH)) i rowidx st)
              sW nR st0 nR_nonneg H0) as (st' & Hloop & Hfin).
  - intros i st Hi [HInv Hdone].
    destruct (step i j s st Hi Hj Hs HInv) as (st' & Hb & HInv' & Hok & Hkeep).
    exists st'. split; [exact Hb|]. split; [exact HInv'|].
    intros i' j' s' Hi' Hj' Hs' Hbefore.
    destruct (decide ((i', j', s') = (i, j, s))) as [[= -> -> ->]|Hne]; [exact Hok|].
    apply Hkeep; [exact Hne|]. apply Hdone; try done.
    unfold visited_before in *.
    assert (i' <> i \/ j' <> j \/ s' <> s) by
      (destruct (decide (i' = i)); destruct (decide (j' = j));
       destruct (decide (s' = s)); subst; try tauto; lia).
    lia.
  - exists st'. split; [exact Hloop|].
    destruct Hfin as [HInv Hdone]. split; [exact HInv|].
    intros i' j' s' Hi' Hj' Hs' Hbefore. apply Hdone; try done.
    unfold visited_before in *. lia.
Qed.

Lemma traverse_cols (s : Z) (st0 : St) :
  0 <= s < nS -> visited_upto Inv Ok nR nC nS 0 0 s st0 ->
  exists st',
    for_stride (Z.to_nat nC) 0 0 sH
      (fun j colidx st =>
         for_stride (Z.to_nat nR) 0 0 sW
           (fun i rowidx st => body s j colidx i rowidx st) st) st0 = Some st' /\
    visited_upto Inv Ok nR nC nS 0 0 (s + 1) st'.
Proof.
  intros Hs H0.
  destruct (for_stride_inv (fun j st => visited_upto Inv Ok nR nC nS 0 j s st)
              (fun j colidx st =>
                 for_stride (Z.to_nat nR) 0 0 sW
                   (fun i rowidx st => body s j colidx i rowidx st) st)
              sH nC st0 nC_nonneg H0) as (st' & Hloop & Hfin).
  - intros j st Hj Hupto. by apply traverse_rows.
  - exists st'. split; [exact Hloop|].
    destruct Hfin as [HInv Hdone]. split; [exact HInv|].
    intros i' j' s' Hi' Hj' Hs' Hbefore. apply Hdone; try done.
    unfold visited_before in *. lia.
Qed.

(** The three nested loops succeed and leave [Ok] at every cell. *)
Lemma traverse (st0 : St) :
  Inv st0 ->
  exists st',
    for_range (Z.to_nat nS) 0
      (fun s st =>
         for_stride (Z.to_nat nC) 0 0 sH
           (fun j colidx st =>
              for_stride (Z.to_nat nR) 0 0 sW
                (fun i rowidx st => body s j colidx i rowidx st) st) st) st0
      = Some st' /\
    Inv st' /\
    (forall i j s, 0 <= i < nR -> 0 <= j < nC -> 0 <= s < nS -> Ok i j s st').
Proof.
  intros H0.
  destruct (for_range_inv (fun s st => visited_upto Inv Ok nR nC nS 0 0 s st)
              (fun s st =>
                 for_stride (Z.to_nat nC) 0 0 sH
                   (fun j colidx st =>
                      for_stride (Z.to_nat nR) 0 0 sW
                        (fun i rowidx st => body s j colidx i rowidx st) st) st)
              (Z.to_nat nS) 0 st0) as (st' & Hloop & Hfin).
  - split; [exact H0|]. intros i' j' s' Hi' Hj' Hs' Hb.
    unfold visited_before in Hb. lia.
  - intros s st Hs Hupto. apply traverse_cols; [lia|exact Hupto].
  - exists st'. split; [exact Hloop|].
    destruct Hfin as [HInv Hdone]. split; [exact HInv|].
    intros i j s Hi Hj Hs. apply Hdone; try done.
    unfold visited_before. lia.
Qed.

End Traversal.

(** ** The forward pass *)

Lemma fits_cell (outSize stride extent inSize i : Z) :
  fits outSize stride extent inSize -> 0 <= stride ->
  0 <= i < outSize -> i * stride + extent <= inSize.
Proof. unfold fits. intros [->|H] Hs Hi; [lia|nia]. Qed.

(** Every cell of the output has its window inside the input. *)
Lemma shapes_ok_cell_fits (this : MaxPoolingType) (input output : Cube Z)
    (i j s : Z) :
  config_ok this -> shapes_ok this input output -> in_cube output i j s ->
  cell_fits this input i j s.
Proof.
  intros (_ & _ & HsW & HsH & _) (_ & _ & HS & Hfr & Hfc) (Hi & Hj & Hs).
  unfold cell_fits, is_size in *. rewrite <- HS.
  split; [done|]. split; [lia|]. split; [lia|]. split.
  - by apply (fits_cell (n_rows output)); [|lia|].
  - by apply (fits_cell (n_cols output)); [|lia|].
Qed.

Lemma same_shape_in_cube {A B} (c : Cube A) (d : Cube B) (i j s : Z) :
  same_shape c d -> in_cube d i j s -> in_cube c i j s.
Proof. unfold same_shape, in_cube. intros (-> & -> & ->). done. Qed.

Lemma same_shape_trans {A B C} (c : Cube A) (d : Cube B) (e : Cube C) :
  same_shape c d -> same_shape d e -> same_shape c e.
Proof. unfold same_shape. intros (-> & -> & ->) (-> & -> & ->). done. Qed.

Lemma same_shape_refl {A} (c : Cube A) : same_shape c c.
Proof. by repeat split. Qed.

(** The index-tracking pass succeeds, keeps the shapes, and stores at every
    output cell the value and the absolute index of [cell_result]. *)
Lemma forward_spec (this : MaxPoolingType) (input output indices : Cube Z) :
  forward_ok this input output indices ->
  exists out idx,
    PoolingOperation this input output indices = Some (out, idx) /\
    cube_wf out /\ cube_wf idx /\
    same_shape out output /\ same_shape idx output /\
    (forall i j s, in_cube output i j s ->
       cell_stored this input i j s (out, idx)).
Proof.
  intros (Hcfg & Hshapes & Hiwf & Hish).
  pose proof Hshapes as (Hinwf & Howf & HS & _ & _).
  pose proof Howf as (HR & HC & HSo & _).
  unfold PoolingOperation.
  destruct (traverse (pool_cell_with_index this input)
              (strideWidth this) (strideHeight this)
              (n_rows output) (n_cols output) (n_slices input)
              (fun st => cube_wf (fst st) /\ cube_wf (snd st) /\
                         same_shape (fst st) output /\
                         same_shape (snd st) output)
              (cell_stored this input)
              HR HC) with (st0 := (output, indices))
    as ([out idx] & Hrun & (Hw1 & Hw2 & Hs1 & Hs2) & Hcells).
  - intros i j s [o x] Hi Hj Hs (Hw1 & Hw2 & Hs1 & Hs2).
    simpl in Hw1, Hw2, Hs1, Hs2.
    assert (Hin : in_cube output i j s) by (unfold in_cube; lia).
    pose proof (shapes_ok_cell_fits this input output i j s Hcfg Hshapes Hin)
      as Hfit.
    destruct (cell_result_spec this input i j s Hinwf Hcfg Hfit)
      as (w & k & v & _ & _ & _ & _ & _ & _ & _ & _ & _ & Hres).
    rewrite (pool_cell_with_index_eq this input i j s _ v o x Hinwf Hcfg Hfit Hres).
    destruct (set3 x i j s
                (flat_index input
                   (i * strideWidth this + k mod windowRows this)
                   (j * strideHeight this + k / windowRows this) s))
      as [x'|] eqn:Hx';
      [|rewrite set3_Some in Hx' by (by eapply same_shape_in_cube); discriminate].
    destruct (set3 o i j s v) as [o'|] eqn:Ho';
      [|rewrite set3_Some in Ho' by (by eapply same_shape_in_cube); discriminate].
    exists (o', x'). split; [reflexivity|]. simpl. split.
    { split; [exact (set3_wf _ _ _ _ _ _ Hw1 Ho')|].
      split; [exact (set3_wf _ _ _ _ _ _ Hw2 Hx')|].
      split.
      - eapply same_shape_trans; [|exact Hs1].
        by apply (set3_inv _ _ _ _ _ _ Ho').
      - eapply same_shape_trans; [|exact Hs2].
        by apply (set3_inv _ _ _ _ _ _ Hx'). }
    split.
    { eexists _, v. split; [exact Hres|]. simpl. split.
      - exact (at3_set3_eq _ _ _ _ _ _ Hw1 Ho').
      - exact (at3_set3_eq _ _ _ _ _ _ Hw2 Hx'). }
    intros i' j' s' Hne (u1 & v1 & Hres1 & Hv1 & Hu1). simpl in *.
    exists u1, v1. split; [exact Hres1|]. simpl. split.
    + by rewrite (at3_set3_ne _ _ _ _ _ _ _ _ _ Ho' Hne).
    + by rewrite (at3_set3_ne _ _ _ _ _ _ _ _ _ Hx' Hne).
  - simpl. split; [done|]. split; [done|]. split; [apply same_shape_refl|done].
  - exists out, idx. split; [exact Hrun|]. simpl in *.
    repeat (split; [done|]).
    intros i j s (Hi & Hj & Hs). apply Hcells; lia.
Qed.

(** The pass without indices succeeds and stores at every output cell the
    value of [cell_result]. *)
Lemma forward_noindex_spec (this : MaxPoolingType) (input output : Cube Z) :
  config_ok this -> shapes_ok this input output ->
  exists out,
    PoolingOperationNoIndex this input output = Some out /\
    cube_wf out /\ same_shape out output /\
    (forall i j s, in_cube output i j s -> value_stored this input i j s out).
Proof.
  intros Hcfg Hshapes.
  pose proof Hshapes as (Hinwf & Howf & HS & _ & _).
  pose proof Howf as (HR & HC & HSo & _).
  unfold PoolingOperationNoIndex.
  destruct (traverse (pool_cell this input)
              (strideWidth this) (strideHeight this)
              (n_rows output) (n_cols output) (n_slices input)
              (fun st => cube_wf st /\ same_shape st output)
              (value_stored this input)
              HR HC) with (st0 := output)
    as (out & Hrun & (Hw1 & Hs1) & Hcells).
  - intros i j s o Hi Hj Hs (Hw1 & Hs1).
    assert (Hin : in_cube output i j s) by (unfold in_cube; lia).
    pose proof (shapes_ok_cell_fits this input output i j s Hcfg Hshapes Hin)
      as Hfit.
    destruct (cell_result_spec this input i j s Hinwf Hcfg Hfit)
      as (w & k & v & _ & _ & _ & _ & _ & _ & _ & _ & _ & Hres).
    rewrite (pool_cell_eq this input i j s _ v o Hinwf Hcfg Hfit Hres).
    destruct (set3 o i j s v) as [o'|] eqn:Ho';
      [|rewrite set3_Some in Ho' by (by eapply same_shape_in_cube); discriminate].
    exists o'. split; [reflexivity|]. split.
    { split; [exact (set3_wf _ _ _ _ _ _ Hw1 Ho')|].
      eapply same_shape_trans; [|exact Hs1].
      by apply (set3_inv _ _ _ _ _ _ Ho'). }
    split.
    { eexists _, v. split; [exact Hres|].
      exact (at3_set3_eq _ _ _ _ _ _ Hw1 Ho'). }
    intros i' j' s' Hne (u1 & v1 & Hres1 & Hv1).
    exists u1, v1. split; [exact Hres1|].
    by rewrite (at3_set3_ne _ _ _ _ _ _ _ _ _ Ho' Hne).
  - split; [done|apply same_shape_refl].
  - exists out. split; [exact Hrun|]. split; [done|]. split; [done|].
    intros i j s (Hi & Hj & Hs). apply Hcells; lia.
Qed.

(** ** The backward pass *)

Lemma at_flat_Some {A} (c : Cube A) (i : Z) (x : A) :
  at_flat c i = Some x <-> 0 <= i < n_elem c /\ mem c !! Z.to_nat i = Some x.
Proof.
  unfold at_flat. case_bool_decide; [tauto|]. split; [discriminate|tauto].
Qed.

Lemma at_flat_is_Some {A} (c : Cube A) (i : Z) :
  cube_wf c -> 0 <= i < n_elem c -> is_Some (at_flat c i).
Proof.
  intros (_ & _ & _ & Hlen & _) Hi. unfold at_flat.
  rewrite bool_decide_eq_true_2 by done. apply lookup_lt_is_Some_2. lia.
Qed.

Lemma zip_lookup_Some {A B} (l1 : list A) (l2 : list B) (i : nat) (x : A) (y : B) :
  l1 !! i = Some x -> l2 !! i = Some y -> zip l1 l2 !! i = Some (x, y).
Proof.
  revert l2 i. induction l1 as [|a l1 IH]; intros [|b l2] [|i] H1 H2;
    simpl in *; try discriminate.
  - congruence.
  - by apply IH.
Qed.

Section Gathered.

Context {A : Type} `{ElemType A}.

(** One more cell: its gradient is added at the location it names, and
    nowhere else. *)
Lemma gathered_of_snoc (cells : list (Z * A)) (k : Z) (e : A) (p : Z) :
  gathered_of (cells ++ [(k, e)]) p
  = if decide (k = p) then elem_add (gathered_of cells p) e
    else gathered_of cells p.
Proof.
  unfold gathered_of, named_by.
  rewrite filter_app, fmap_app, fold_left_app.
  destruct (decide (k = p)) as [Hk|Hk].
  - by rewrite filter_cons_True by done.
  - by rewrite filter_cons_False by done.
Qed.

Lemma named_by_cons (k : Z) (e : A) (cells : list (Z * A)) (p : Z) :
  named_by p ((k, e) :: cells)
  = if decide (k = p) then e :: named_by p cells else named_by p cells.
Proof.
  unfold named_by. destruct (decide (k = p)) as [Hk|Hk].
  - by rewrite filter_cons_True by done.
  - by rewrite filter_cons_False by done.
Qed.

(** No cell names [p]: nothing is gathered there. *)
Lemma named_by_absent (indices : list Z) (errs : list A) (p : Z) :
  (forall i : nat, indices !! i <> Some p) ->
  named_by p (zip indices errs) = [].
Proof.
  revert errs. induction indices as [|k indices IH]; intros errs Habs;
    [reflexivity|].
  destruct errs as [|e errs]; [reflexivity|].
  change (zip (k :: indices) (e :: errs)) with ((k, e) :: zip indices errs).
  rewrite named_by_cons. destruct (decide (k = p)) as [->|Hk].
  - exfalso. by apply (Habs 0%nat).
  - apply IH. intros i. apply (Habs (S i)).
Qed.

Lemma gathered_absent (indices : list Z) (errs : list A) (p : Z) :
  (forall i : nat, indices !! i <> Some p) ->
  gathered indices errs p = elem_zero.
Proof.
  intros Habs. unfold gathered, gathered_of. by rewrite named_by_absent.
Qed.

(** Exactly one cell names [p]: its gradient alone is gathered there. *)
Lemma named_by_unique (indices : list Z) (errs : list A) (q : nat) (p : Z) (e : A) :
  indices !! q = Some p -> errs !! q = Some e ->
  (forall q' : nat, q' <> q -> indices !! q' <> Some p) ->
  named_by p (zip indices errs) = [e].
Proof.
  revert errs q. induction indices as [|k indices IH]; intros errs q Hq He Huniq.
  - by rewrite lookup_nil in Hq.
  - destruct errs as [|e0 errs]; [by rewrite lookup_nil in He|].
    change (zip (k :: indices) (e0 :: errs)) with ((k, e0) :: zip indices errs).
    rewrite named_by_cons. destruct q as [|q]; simpl in Hq, He.
    + injection Hq as ->. injection He as ->.
      rewrite decide_True by done. f_equal.
      apply named_by_absent. intros i. apply (Huniq (S i)). lia.
    + rewrite decide_False.
      * apply (IH errs q Hq He). intros q' Hne. apply (Huniq (S q')). lia.
      * intros ->. by apply (Huniq 0%nat).
Qed.

Lemma gathered_unique (indices : list Z) (errs : list A) (q : nat) (p : Z) (e : A) :
  indices !! q = Some p -> errs !! q = Some e ->
  (forall q' : nat, q' <> q -> indices !! q' <> Some p) ->
  gathered indices errs p = elem_add elem_zero e.
Proof.
  intros Hq He Huniq. unfold gathered, gathered_of.
  by rewrite (named_by_unique indices errs q p e).
Qed.

(** What an iteration of the scatter loop that returns has done. *)
Lemma unpool_step_inv (error : Cube A) (indices : Cube Z) (i : Z)
    (out out' : Cube A) :
  unpool_step error indices i out = Some out' ->
  exists k e o,
    at_flat indices i = Some k /\ at_flat error i = Some e /\
    at_flat out k = Some o /\ same_shape out' out /\
    mem out' = <[Z.to_nat k := elem_add o e]> (mem out).
Proof.
  unfold unpool_step.
  destruct (at_flat indices i) as [k|] eqn:Hk; [|discriminate].
  destruct (at_flat error i) as [e|] eqn:He; [|discriminate].
  destruct (at_flat out k) as [o|] eqn:Ho; [|discriminate].
  unfold set_flat. case_bool_decide; [|discriminate].
  intros [= <-]. exists k, e, o.
  split; [reflexivity|]. split; [reflexivity|]. split; [exact Ho|].
  split; [by repeat split|reflexivity].
Qed.

Lemma unpool_step_spec (error output : Cube A) (indices : Cube Z) (i : Z)
    (out : Cube A) :
  backward_ok error output indices ->
  0 <= i < n_elem indices ->
  scattered error output indices i out ->
  exists out',
    unpool_step error indices i out = Some out' /\
    scattered error output indices (i + 1) out'.
Proof.
  intros (Hewf & Howf & Hiwf & Hsh & Hrange) Hi (Hs & Hlen & Hel).
  assert (Hne : n_elem error = n_elem indices).
  { destruct Hsh as (Hr & Hc & Hsl). unfold n_elem. by rewrite Hr, Hc, Hsl. }
  destruct (at_flat_is_Some indices i Hiwf Hi) as [k Hk].
  destruct (at_flat_is_Some error i Hewf ltac:(lia)) as [e He].
  pose proof (Hrange i k Hk) as Hkr.
  pose proof Howf as (_ & _ & _ & Holen & _).
  assert (Hno : n_elem out = n_elem output).
  { destruct Hs as (Hr & Hc & Hsl). unfold n_elem. by rewrite Hr, Hc, Hsl. }
  assert (Hkl : (Z.to_nat k < length (mem output))%nat) by lia.
  pose proof (Hel _ Hkl) as Hok. set (o := gathered_of _ _) in Hok.
  unfold unpool_step. rewrite Hk, He.
  unfold at_flat at 1. rewrite bool_decide_eq_true_2 by lia. rewrite Hok.
  unfold set_flat. rewrite bool_decide_eq_true_2 by lia.
  eexists. split; [reflexivity|].
  apply at_flat_Some in Hk as [_ Hk]. apply at_flat_Some in He as [_ He].
  assert (Htake : take (Z.to_nat (i + 1)) (zip (mem indices) (mem error))
                  = take (Z.to_nat i) (zip (mem indices) (mem error)) ++ [(k, e)]).
  { replace (Z.to_nat (i + 1)) with (S (Z.to_nat i)) by lia.
    apply take_S_r. by apply zip_lookup_Some. }
  unfold scattered. simpl.
  split; [exact Hs|]. split; [by rewrite length_insert|].
  intros p Hp. rewrite Htake, gathered_of_snoc.
  destruct (decide (p = Z.to_nat k)) as [->|Hpk].
  - rewrite list_lookup_insert_eq by lia.
    rewrite decide_True by lia. reflexivity.
  - rewrite list_lookup_insert_ne by done. rewrite Hel by done.
    by rewrite decide_False by lia.
Qed.

(** The backward pass succeeds and every location of the result holds the
    gathered gradient. *)
Lemma unpooling_spec (error output : Cube A) (indices : Cube Z) :
  backward_ok error output indices ->
  exists g,
    UnpoolingOperation error output indices = Some g /\
    same_shape g output /\ cube_wf g /\
    (forall p, 0 <= p < n_elem output ->
       at_flat g p = Some (gathered (mem indices) (mem error) p)).
Proof.
  intros Hok. pose proof Hok as (Hewf & Howf & Hiwf & Hsh & Hrange).
  assert (Hne : n_elem error = n_elem indices).
  { destruct Hsh as (Hr & Hc & Hsl). unfold n_elem. by rewrite Hr, Hc, Hsl. }
  pose proof Hewf as (_ & _ & _ & Helen & _).
  pose proof Hiwf as (_ & _ & _ & Hilen & _).
  pose proof Howf as (HR & HC & HS & Holen & Hosz).
  unfold UnpoolingOperation.
  destruct (for_range_inv (scattered error output indices)
              (unpool_step error indices) (Z.to_nat (n_elem indices)) 0
              (zeros output)) as (g & Hrun & Hs & Hlen & Hel).
  - unfold scattered, zeros. simpl. split; [by repeat split|].
    split; [by rewrite length_replicate|].
    intros p Hp. by rewrite lookup_replicate_2.
  - intros i out Hi Hsc. apply unpool_step_spec; [done|lia|done].
  - exists g. split; [exact Hrun|]. split; [exact Hs|].
    assert (Hng : n_elem g = n_elem output).
    { destruct Hs as (Hr & Hc & Hsl). unfold n_elem. by rewrite Hr, Hc, Hsl. }
    split.
    { destruct Hs as (Hr & Hc & Hsl). unfold cube_wf. rewrite Hng, Hr, Hc, Hsl, Hlen.
      done. }
    assert (Hn : Z.to_nat (0 + Z.of_nat (Z.to_nat (n_elem indices)))
                 = length (mem indices)) by lia.
    rewrite Hn in Hel.
    intros p Hp. apply at_flat_Some. split; [lia|].
    rewrite Hel by lia. f_equal. unfold gathered.
    rewrite take_ge; [by rewrite Z2Nat.id by lia|].
    rewrite length_zip. lia.
Qed.

End Gathered.

(** ** Flat positions and coordinates *)

(** Every flat position of a cube is the position of one of its cells. *)
Lemma flat_index_decode {A} (c : Cube A) (p : Z) :
  cube_wf c -> 0 <= p < n_elem c ->
  exists i j s, in_cube c i j s /\ flat_index c i j s = p.
Proof.
  intros (HR & HC & HS & _) Hp. unfold n_elem in Hp.
  assert (HRpos : 0 < n_rows c) by nia.
  assert (HCpos : 0 < n_cols c) by nia.
  exists (p mod n_rows c), ((p / n_rows c) mod n_cols c),
         (p / n_rows c / n_cols c).
  pose proof (Z.div_mod p (n_rows c) ltac:(lia)) as H1.
  pose proof (Z.mod_pos_bound p (n_rows c) HRpos) as H2.
  pose proof (Z.div_mod (p / n_rows c) (n_cols c) ltac:(lia)) as H3.
  pose proof (Z.mod_pos_bound (p / n_rows c) (n_cols c) HCpos) as H4.
  assert (H5 : 0 <= p / n_rows c) by (apply Z.div_pos; lia).
  assert (H6 : 0 <= p / n_rows c / n_cols c) by (apply Z.div_pos; lia).
  assert (H7 : p / n_rows c / n_cols c < n_slices c).
  { apply Z.div_lt_upper_bound; [lia|]. apply Z.div_lt_upper_bound; [lia|]. nia. }
  split; [unfold in_cube; lia|].
  unfold flat_index, n_elem_slice. nia.
Qed.

(** ** Index map and output of the forward pass *)

(** C1. With index tracking, reading the input at the absolute flat index
    stored for an output cell gives the value stored in that cell: the pass
    succeeds, and [input(indexMap(i, j, s)) = output(i, j, s)] at every
    output coordinate. *)
Theorem C1_index_map_points_at_output_value
    (this : MaxPoolingType) (input output indices : Cube Z) :
  forward_ok this input output indices ->
  exists out idx,
    PoolingOperation this input output indices = Some (out, idx) /\
    forall i j s, in_cube output i j s ->
      exists u v,
        at3 idx i j s = Some u /\ at3 out i j s = Some v /\
        at_flat input u = Some v.
Proof.
  intros Hok. pose proof Hok as (Hcfg & Hshapes & _).
  pose proof Hshapes as (Hinwf & _).
  destruct (forward_spec this input output indices Hok)
    as (out & idx & Hrun & _ & _ & _ & _ & Hcells).
  exists out, idx. split; [exact Hrun|].
  intros i j s Hin.
  destruct (Hcells i j s Hin) as (u & v & Hres & Hv & Hu). simpl in Hv, Hu.
  pose proof (shapes_ok_cell_fits this input output i j s Hcfg Hshapes Hin) as Hfit.
  destruct (cell_result_spec this input i j s Hinwf Hcfg Hfit)
    as (w & k & v' & _ & _ & _ & _ & _ & _ & _ & Hinc & Hat & Hres').
  rewrite Hres in Hres'. injection Hres' as -> ->.
  eexists _, v'. split; [exact Hu|]. split; [exact Hv|].
  by rewrite <- at3_at_flat.
Qed.

Lemma forward_ok_scenario :
  forward_ok layer2x2 input4x4 (blank 2 2 1) (blank 2 2 1).
Proof.
  unfold forward_ok, config_ok, shapes_ok, cube_wf, same_shape, fits, is_size,
    windowRows, windowCols, n_elem.
  simpl. rewrite size_modulus_eq. lia.
Qed.

Lemma C1_index_map_witness :
  forward_ok layer2x2 input4x4 (blank 2 2 1) (blank 2 2 1) /\
  exists out idx,
    PoolingOperation layer2x2 input4x4 (blank 2 2 1) (blank 2 2 1)
      = Some (out, idx) /\
    forall i j s, in_cube (blank 2 2 1) i j s ->
      exists u v,
        at3 idx i j s = Some u /\ at3 out i j s = Some v /\
        at_flat input4x4 u = Some v.
Proof.
  split; [exact forward_ok_scenario|].
  exact (C1_index_map_points_at_output_value layer2x2 input4x4
           (blank 2 2 1) (blank 2 2 1) forward_ok_scenario).
Defined.

Lemma same_shape_n_elem {A B} (c : Cube A) (d : Cube B) :
  same_shape c d -> n_elem c = n_elem d.
Proof. intros (Hr & Hc & Hs). unfold n_elem. by rewrite Hr, Hc, Hs. Qed.

Lemma same_shape_sym {A B} (c : Cube A) (d : Cube B) :
  same_shape c d -> same_shape d c.
Proof. unfold same_shape. intros (-> & -> & ->). done. Qed.

(** Where the index stored for a cell lies: inside the window of the cell,
    hence inside the input. *)
Lemma stored_index_in_window (this : MaxPoolingType) (input : Cube Z)
    (i j s u v : Z) :
  cube_wf input -> config_ok this -> cell_fits this input i j s ->
  cell_result this input i j s = Some (u, v) ->
  exists r c,
    u = flat_index input r c s /\ in_cube input r c s /\
    i * strideWidth this <= r < i * strideWidth this + windowRows this /\
    j * strideHeight this <= c < j * strideHeight this + windowCols this /\
    0 <= u < n_elem input.
Proof.
  intros Hwf Hcfg Hfit Hres.
  destruct (cell_result_spec this input i j s Hwf Hcfg Hfit)
    as (w & k & v' & _ & _ & _ & _ & _ & Hmod & Hdiv & Hinc & _ & Hres').
  rewrite Hres in Hres'. injection Hres' as -> ->.
  eexists _, _. split; [reflexivity|]. split; [exact Hinc|].
  split; [lia|]. split; [lia|]. by apply flat_index_bounds.
Qed.

(** The index map of a forward pass is a valid argument of the backward
    pass, for an upstream gradient shaped like the output and a gradient to
    fill shaped like the input. *)
Lemma forward_gives_backward_ok {A : Type} (this : MaxPoolingType)
    (input output indices out idx : Cube Z) (error g0 : Cube A) :
  forward_ok this input output indices ->
  PoolingOperation this input output indices = Some (out, idx) ->
  cube_wf error -> same_shape error output ->
  cube_wf g0 -> same_shape g0 input ->
  backward_ok error g0 idx.
Proof.
  intros Hok Hrun Hewf Hesh Hgwf Hgsh.
  pose proof Hok as (Hcfg & Hshapes & _). pose proof Hshapes as (Hinwf & _).
  destruct (forward_spec this input output indices Hok)
    as (out' & idx' & Hrun' & _ & Hidxwf & _ & Hidxsh & Hcells).
  rewrite Hrun in Hrun'. injection Hrun' as <- <-.
  split; [exact Hewf|]. split; [exact Hgwf|]. split; [exact Hidxwf|].
  split; [eapply same_shape_trans; [exact Hesh|by apply same_shape_sym]|].
  intros p k Hk.
  pose proof (proj1 (at_flat_Some idx p k) Hk) as [Hp _].
  destruct (flat_index_decode idx p Hidxwf Hp) as (i & j & s & Hin & Hflat).
  assert (Hin' : in_cube output i j s).
  { eapply same_shape_in_cube; [|exact Hin]. by apply same_shape_sym. }
  destruct (Hcells i j s Hin') as (u & v & Hres & _ & Hu). simpl in Hu.
  rewrite (at3_at_flat idx i j s Hin), Hflat, Hk in Hu. injection Hu as ->.
  pose proof (shapes_ok_cell_fits this input output i j s Hcfg Hshapes Hin') as Hfit.
  destruct (stored_index_in_window this input i j s u v Hinwf Hcfg Hfit Hres)
    as (r & c & _ & _ & _ & _ & Hb).
  by rewrite (same_shape_n_elem g0 input Hgsh).
Qed.

(** C9. Every entry the forward pass writes into the index map is a flat
    index below the element count of the input and designates an element
    inside the window of its cell; so the backward scatter-add, run on that
    index map, stays in bounds and returns a gradient. *)
Theorem C9_index_map_entries_in_bounds
    (this : MaxPoolingType) (input output indices : Cube Z) :
  forward_ok this input output indices ->
  exists out idx,
    PoolingOperation this input output indices = Some (out, idx) /\
    (forall i j s, in_cube output i j s ->
       exists u r c,
         at3 idx i j s = Some u /\ 0 <= u < n_elem input /\
         u = flat_index input r c s /\ in_cube input r c s /\
         i * strideWidth this <= r < i * strideWidth this + windowRows this /\
         j * strideHeight this <= c
           < j * strideHeight this + windowCols this) /\
    (forall (A : Type) (E : ElemType A) (error g0 : Cube A),
       cube_wf error -> same_shape error output ->
       cube_wf g0 -> same_shape g0 input ->
       is_Some (UnpoolingOperation error g0 idx)).
Proof.
  intros Hok. pose proof Hok as (Hcfg & Hshapes & _).
  pose proof Hshapes as (Hinwf & _).
  destruct (forward_spec this input output indices Hok)
    as (out & idx & Hrun & _ & _ & _ & _ & Hcells).
  exists out, idx. split; [exact Hrun|]. split.
  - intros i j s Hin.
    destruct (Hcells i j s Hin) as (u & v & Hres & _ & Hu). simpl in Hu.
    pose proof (shapes_ok_cell_fits this input output i j s Hcfg Hshapes Hin)
      as Hfit.
    destruct (stored_index_in_window this input i j s u v Hinwf Hcfg Hfit Hres)
      as (r & c & Hur & Hinc & Hr & Hc & Hb).
    exists u, r, c. done.
  - intros A E error g0 Hewf Hesh Hgwf Hgsh.
    pose proof (forward_gives_backward_ok this input output indices out idx
                  error g0 Hok Hrun Hewf Hesh Hgwf Hgsh) as Hbok.
    destruct (unpooling_spec error g0 idx Hbok) as (g & Hg & _).
    by exists g.
Qed.

Lemma C9_index_map_witness :
  forward_ok layer2x2 input4x4 (blank 2 2 1) (blank 2 2 1) /\
  exists out idx,
    PoolingOperation layer2x2 input4x4 (blank 2 2 1) (blank 2 2 1)
      = Some (out, idx) /\
    (forall i j s, in_cube (blank 2 2 1) i j s ->
       exists u r c,
         at3 idx i j s = Some u /\ 0 <= u < n_elem input4x4 /\
         u = flat_index input4x4 r c s /\ in_cube input4x4 r c s /\
         i * strideWidth layer2x2 <= r
           < i * strideWidth layer2x2 + windowRows layer2x2 /\
         j * strideHeight layer2x2 <= c
           < j * strideHeight layer2x2 + windowCols layer2x2) /\
    (forall (A : Type) (E : ElemType A) (error g0 : Cube A),
       cube_wf error -> same_shape error (blank 2 2 1) ->
       cube_wf g0 -> same_shape g0 input4x4 ->
       is_Some (UnpoolingOperation error g0 idx)).
Proof.
  split; [exact forward_ok_scenario|].
  exact (C9_index_map_entries_in_bounds layer2x2 input4x4
           (blank 2 2 1) (blank 2 2 1) forward_ok_scenario).
Defined.

(** ** Scatter-add in the backward pass *)

Lemma forward_ok_overlap :
  forward_ok layer_overlap input3x3 (blank 2 2 1) (blank 2 2 1).
Proof.
  unfold forward_ok, config_ok, shapes_ok, cube_wf, same_shape, fits, is_size,
    windowRows, windowCols, n_elem.
  simpl. rewrite size_modulus_eq. lia.
Qed.

Lemma cube_wf_gradient2x2 : cube_wf gradient2x2.
Proof. unfold cube_wf, n_elem. simpl. rewrite size_modulus_eq. lia. Qed.

Lemma cube_wf_blank3x3 : cube_wf (blank 3 3 1).
Proof. unfold cube_wf, n_elem. simpl. rewrite size_modulus_eq. lia. Qed.

Lemma cube_wf_zero_cube (A : Type) `{ElemType A} (r c s : Z) :
  0 <= r -> 0 <= c -> 0 <= s -> r * c * s < size_modulus ->
  cube_wf (zero_cube A r c s).
Proof.
  intros Hr Hc Hs Hsz. unfold cube_wf, zero_cube, n_elem. simpl.
  rewrite length_replicate. assert (0 <= r * c * s) by nia. lia.
Qed.

Lemma zeros_same_shape {A : Type} `{ElemType A} (output output' : Cube A) :
  cube_wf output -> cube_wf output' -> same_shape output' output ->
  zeros output' = zeros output.
Proof.
  intros (_ & _ & _ & Hlen & _) (_ & _ & _ & Hlen' & _) Hsh.
  pose proof (same_shape_n_elem _ _ Hsh) as Hn.
  destruct Hsh as (Hr & Hc & Hs). unfold zeros. rewrite Hr, Hc, Hs.
  f_equal. f_equal. lia.
Qed.

(** C4. The backward unpooling starts from a zeroed gradient tensor (its
    previous content is irrelevant) and adds each upstream gradient at the
    location its index-map entry names. Every location ends with the
    gradients of all the cells that name it accumulated onto zero, in the
    order of the cells, with the addition of the element type (for [double]
    each addition rounds); a location that no entry names ends with zero. *)
Theorem C4_unpooling_is_scatter_add {A : Type} `{ElemType A}
    (error output : Cube A) (indices : Cube Z) :
  backward_ok error output indices ->
  exists g,
    UnpoolingOperation error output indices = Some g /\
    (forall output', cube_wf output' -> same_shape output' output ->
       UnpoolingOperation error output' indices = Some g) /\
    (forall p, 0 <= p < n_elem output ->
       at_flat g p = Some (gathered (mem indices) (mem error) p)) /\
    (forall p, 0 <= p < n_elem output ->
       (forall i, at_flat indices i <> Some p) ->
       at_flat g p = Some elem_zero).
Proof.
  intros Hok. pose proof Hok as (_ & Howf & Hiwf & _).
  destruct (unpooling_spec error output indices Hok) as (g & Hg & _ & _ & Hel).
  exists g. split; [exact Hg|]. split; [|split].
  - intros output' Hwf' Hsh. unfold UnpoolingOperation in *.
    by rewrite (zeros_same_shape output output').
  - exact Hel.
  - intros p Hp Habs. rewrite Hel by exact Hp. f_equal.
    apply gathered_absent. intros i Hi.
    apply (Habs (Z.of_nat i)). apply at_flat_Some.
    pose proof (lookup_lt_Some _ _ _ Hi) as Hlt.
    destruct Hiwf as (_ & _ & _ & Hlen & _).
    split; [lia|]. by rewrite Nat2Z.id.
Qed.

(** Any upstream gradient of the 2x2 output shape can be scattered through
    [indices_middle] into a 3x3 tensor. *)
Lemma backward_ok_middle {A : Type} `{ElemType A} (error : Cube A) :
  cube_wf error -> same_shape error indices_middle ->
  backward_ok error (zero_cube A 3 3 1) indices_middle.
Proof.
  intros Hwf Hsh.
  split; [exact Hwf|].
  split; [apply cube_wf_zero_cube; rewrite ?size_modulus_eq; lia|].
  split; [unfold cube_wf, n_elem; simpl; rewrite size_modulus_eq; lia|].
  split; [exact Hsh|].
  intros i k Hk. apply at_flat_Some in Hk as [Hi Hk].
  unfold n_elem in *. simpl in *.
  assert (Hcases : i = 0 \/ i = 1 \/ i = 2 \/ i = 3) by lia.
  destruct Hcases as [ -> | [ -> | [ -> | -> ] ] ]; simpl in Hk; injection Hk as <-; lia.
Qed.

Lemma cube_wf_gradient_big : cube_wf gradient_big.
Proof. unfold cube_wf, n_elem. simpl. rewrite size_modulus_eq. lia. Qed.

Lemma backward_ok_big :
  backward_ok gradient_big (zero_cube double 3 3 1) indices_middle.
Proof.
  apply backward_ok_middle; [exact cube_wf_gradient_big|by repeat split].
Qed.

Lemma C4_unpooling_witness :
  backward_ok gradient_big (zero_cube double 3 3 1) indices_middle /\
  exists g,
    UnpoolingOperation gradient_big (zero_cube double 3 3 1) indices_middle
      = Some g /\
    (forall output', cube_wf output' ->
       same_shape output' (zero_cube double 3 3 1) ->
       UnpoolingOperation gradient_big output' indices_middle = Some g) /\
    (forall p, 0 <= p < n_elem (zero_cube double 3 3 1) ->
       at_flat g p
       = Some (gathered (mem indices_middle) (mem gradient_big) p)) /\
    (forall p, 0 <= p < n_elem (zero_cube double 3 3 1) ->
       (forall i, at_flat indices_middle i <> Some p) ->
       at_flat g p = Some elem_zero).
Proof.
  split; [exact backward_ok_big|].
  exact (C4_unpooling_is_scatter_add gradient_big (zero_cube double 3 3 1)
           indices_middle backward_ok_big).
Defined.

(** In [double] the three gradients of 1 are lost one after the other when
    added to 2^53; with integer elements all four gradients add up. *)
Example unpooling_big_double :
  UnpoolingOperation gradient_big (zero_cube double 3 3 1) indices_middle
  = Some (mkCube 3 3 1
            (double_of_Z <$> [0; 0; 0; 0; 2 ^ 53; 0; 0; 0; 0])).
Proof. vm_compute. reflexivity. Qed.

Example gathered_big_double :
  gathered (mem indices_middle) (mem gradient_big) 4 = double_of_Z (2 ^ 53).
Proof. vm_compute. reflexivity. Qed.

Example unpooling_overlap :
  UnpoolingOperation gradient2x2 (blank 3 3 1) indices_middle
  = Some (mkCube 3 3 1 [0; 0; 0; 0; 10; 0; 0; 0; 0]).
Proof. reflexivity. Qed.

(** ** The window of each output cell *)

(** The window of a cell reads the input through its slice only. *)
Lemma cell_window_slice (this : MaxPoolingType) (input input' : Cube Z)
    (i j s : Z) :
  slice input' s = slice input s ->
  cell_window this input' i j s = cell_window this input i j s.
Proof. intros H. unfold cell_window, window. by rewrite H. Qed.

(** The window of a cell is the block of its slice anchored at
    [(i * strideWidth, j * strideHeight)], of the common extent. *)
Lemma cell_window_block (this : MaxPoolingType) (input : Cube Z) (i j s : Z) :
  cube_wf input -> config_ok this -> cell_fits this input i j s ->
  exists sl w,
    slice input s = Some sl /\
    submat sl (i * strideWidth this) (j * strideHeight this)
      (i * strideWidth this + windowRows this - 1)
      (j * strideHeight this + windowCols this - 1) = Some w /\
    cell_window this input i j s = Some w /\
    m_rows w = windowRows this /\ m_cols w = windowCols this /\
    (forall r c, 0 <= r < windowRows this -> 0 <= c < windowCols this ->
       at2 w r c
       = at3 input (i * strideWidth this + r) (j * strideHeight this + c) s).
Proof.
  intros Hwf Hcfg Hfit.
  pose proof Hfit as (Hs & Hi & Hj & Hfr & Hfc).
  pose proof Hcfg as (_ & _ & HsW & HsH & _ & Hwr & Hwc).
  assert (Hr1 : 0 <= i * strideWidth this) by (unfold is_size in *; nia).
  assert (Hc1 : 0 <= j * strideHeight this) by (unfold is_size in *; nia).
  destruct (cube_dims_small input Hwf) as [HRs HCs]; [lia..|].
  destruct (window_spec this input s _ _ Hwf Hcfg Hs Hr1 Hc1 Hfr Hfc)
    as (w & Hw & HwR & HwC & _ & Hel).
  eexists _, w. split; [by apply slice_Some|].
  split; [|split; [exact Hw|split; [exact HwR|split; [exact HwC|exact Hel]]]].
  unfold window in Hw. rewrite slice_Some in Hw by done.
  unfold windowRows, windowCols in *.
  rewrite !corner_exact in Hw by (unfold is_size; lia).
  replace (i * strideWidth this + (kernelWidth this - offset this) - 1)
    with (i * strideWidth this + kernelWidth this - 1 - offset this) by lia.
  replace (j * strideHeight this + (kernelHeight this - offset this) - 1)
    with (j * strideHeight this + kernelHeight this - 1 - offset this) by lia.
  exact Hw.
Qed.

(** C7. In the forward pass the window pooled for output cell [(i, j)] of
    slice [s] is the block of slice [s] of the input whose top-left element
    is at [(i * strideWidth, j * strideHeight)]; without clipping (offset
    0, floor mode) it is [kernelWidth] x [kernelHeight]. The cell receives
    the maximum of that block in both overloads, and the value depends on
    slice [s] only: any other input with the same slice [s] gives the same
    value there. *)
Theorem C7_window_anchor_and_extent
    (this : MaxPoolingType) (input output indices : Cube Z) :
  forward_ok this input output indices ->
  exists out idx out2,
    PoolingOperation this input output indices = Some (out, idx) /\
    PoolingOperationNoIndex this input output = Some out2 /\
    forall i j s, in_cube output i j s ->
      exists sl w v,
        slice input s = Some sl /\
        submat sl (i * strideWidth this) (j * strideHeight this)
          (i * strideWidth this + windowRows this - 1)
          (j * strideHeight this + windowCols this - 1) = Some w /\
        (forall r c, 0 <= r < windowRows this -> 0 <= c < windowCols this ->
           at2 w r c
           = at3 input (i * strideWidth this + r) (j * strideHeight this + c) s) /\
        (offset this = 0 ->
           m_rows w = kernelWidth this /\ m_cols w = kernelHeight this) /\
        MaxPoolingRule.Pooling w = Some v /\
        at3 out i j s = Some v /\ at3 out2 i j s = Some v /\
        (forall input',
           forward_ok this input' output indices ->
           slice input' s = Some sl ->
           exists out' idx',
             PoolingOperation this input' output indices = Some (out', idx') /\
             at3 out' i j s = Some v).
Proof.
  intros Hok. pose proof Hok as (Hcfg & Hshapes & _).
  pose proof Hshapes as (Hinwf & _).
  destruct (forward_spec this input output indices Hok)
    as (out & idx & Hrun & _ & _ & _ & _ & Hcells).
  destruct (forward_noindex_spec this input output Hcfg Hshapes)
    as (out2 & Hrun2 & _ & _ & Hcells2).
  exists out, idx, out2. split; [exact Hrun|]. split; [exact Hrun2|].
  intros i j s Hin.
  pose proof (shapes_ok_cell_fits this input output i j s Hcfg Hshapes Hin) as Hfit.
  destruct (cell_window_block this input i j s Hinwf Hcfg Hfit)
    as (sl & w & Hsl & Hsub & Hw & HwR & HwC & Hel).
  destruct (cell_result_spec this input i j s Hinwf Hcfg Hfit)
    as (w' & k & v & Hw' & _ & _ & HP & HPI & _ & _ & _ & _ & Hres).
  rewrite Hw in Hw'. injection Hw' as <-.
  destruct (Hcells i j s Hin) as (u1 & v1 & Hres1 & Hv1 & _). simpl in Hv1.
  destruct (Hcells2 i j s Hin) as (u2 & v2 & Hres2 & Hv2).
  rewrite Hres in Hres1, Hres2.
  injection Hres1 as <- <-. injection Hres2 as <- <-.
  exists sl, w, v.
  split; [exact Hsl|]. split; [exact Hsub|]. split; [exact Hel|].
  split.
  { intros Hoff. unfold windowRows, windowCols in HwR, HwC.
    rewrite Hoff in HwR, HwC. lia. }
  split; [exact HP|]. split; [exact Hv1|]. split; [exact Hv2|].
  intros input' Hok' Hsl'. pose proof Hok' as (_ & Hshapes' & _).
  pose proof Hshapes' as (Hinwf' & _).
  destruct (forward_spec this input' output indices Hok')
    as (out' & idx' & Hrun' & _ & _ & _ & _ & Hcells').
  exists out', idx'. split; [exact Hrun'|].
  destruct (Hcells' i j s Hin) as (u' & v' & Hres' & Hv' & _). simpl in Hv'.
  pose proof (shapes_ok_cell_fits this input' output i j s Hcfg Hshapes' Hin)
    as Hfit'.
  destruct (cell_result_spec this input' i j s Hinwf' Hcfg Hfit')
    as (w'' & k'' & v'' & Hw'' & _ & _ & _ & HPI'' & _ & _ & _ & _ & Hres'').
  rewrite (cell_window_slice this input input') in Hw'' by congruence.
  rewrite Hw in Hw''. injection Hw'' as <-.
  rewrite HPI in HPI''. injection HPI'' as <- <-.
  rewrite Hres' in Hres''. injection Hres'' as -> ->. exact Hv'.
Qed.

Lemma C7_window_witness :
  forward_ok layer2x2 input4x4 (blank 2 2 1) (blank 2 2 1) /\
  exists out idx out2,
    PoolingOperation layer2x2 input4x4 (blank 2 2 1) (blank 2 2 1)
      = Some (out, idx) /\
    PoolingOperationNoIndex layer2x2 input4x4 (blank 2 2 1) = Some out2 /\
    forall i j s, in_cube (blank 2 2 1) i j s ->
      exists sl w v,
        slice input4x4 s = Some sl /\
        submat sl (i * strideWidth layer2x2) (j * strideHeight layer2x2)
          (i * strideWidth layer2x2 + windowRows layer2x2 - 1)
          (j * strideHeight layer2x2 + windowCols layer2x2 - 1) = Some w /\
        (forall r c,
           0 <= r < windowRows layer2x2 -> 0 <= c < windowCols layer2x2 ->
           at2 w r c
           = at3 input4x4 (i * strideWidth layer2x2 + r)
               (j * strideHeight layer2x2 + c) s) /\
        (offset layer2x2 = 0 ->
           m_rows w = kernelWidth layer2x2 /\
           m_cols w = kernelHeight layer2x2) /\
        MaxPoolingRule.Pooling w = Some v /\
        at3 out i j s = Some v /\ at3 out2 i j s = Some v /\
        (forall input',
           forward_ok layer2x2 input' (blank 2 2 1) (blank 2 2 1) ->
           slice input' s = Some sl ->
           exists out' idx',
             PoolingOperation layer2x2 input' (blank 2 2 1) (blank 2 2 1)
               = Some (out', idx') /\
             at3 out' i j s = Some v).
Proof.
  split; [exact forward_ok_scenario|].
  exact (C7_window_anchor_and_extent layer2x2 input4x4
           (blank 2 2 1) (blank 2 2 1) forward_ok_scenario).
Defined.

(** The 4x4 scenario: the pooled values, the index map, and the gradient
    scattered back from an upstream gradient of ones. *)
Example forward_scenario :
  PoolingOperation layer2x2 input4x4 (blank 2 2 1) (blank 2 2 1)
  = Some (mkCube 2 2 1 [6; 14; 8; 16], mkCube 2 2 1 [5; 7; 13; 15]).
Proof. reflexivity. Qed.

Example forward_noindex_scenario :
  PoolingOperationNoIndex layer2x2 input4x4 (blank 2 2 1)
  = Some (mkCube 2 2 1 [6; 14; 8; 16]).
Proof. reflexivity. Qed.

Example backward_scenario :
  UnpoolingOperation (mkCube 2 2 1 [1; 1; 1; 1]) (blank 4 4 1)
    (mkCube 2 2 1 [5; 7; 13; 15])
  = Some (mkCube 4 4 1 [0; 0; 0; 0; 0; 1; 0; 1; 0; 0; 0; 0; 0; 1; 0; 1]).
Proof. reflexivity. Qed.

(** ** C6: the extent of the windows under an offset *)

Lemma submat_None {A} (m : Mat A) (r1 c1 r2 c2 : Z) :
  r1 > r2 \/ c1 > c2 \/ r2 >= m_rows m \/ c2 >= m_cols m ->
  submat m r1 c1 r2 c2 = None.
Proof. intros H. unfold submat. by rewrite bool_decide_eq_true_2. Qed.

Lemma submat_rows {A} (m w : Mat A) (r1 c1 r2 c2 : Z) :
  submat m r1 c1 r2 c2 = Some w ->
  m_rows w = r2 - r1 + 1 /\ m_cols w = c2 - c1 + 1 /\
  r2 < m_rows m /\ c2 < m_cols m.
Proof.
  unfold submat. case_bool_decide as Hb; [discriminate|].
  intros [= <-]. simpl. lia.
Qed.

(** The far corner of a window that does not fit: it is past the matrix,
    or it has wrapped around to before the near corner. *)
Lemma corner_outside (a extent size : Z) :
  is_size a -> 1 <= extent < size_modulus -> a + extent > size ->
  a > wrap (a + extent - 1) \/ wrap (a + extent - 1) >= size.
Proof.
  intros Ha He Hout. unfold is_size in *.
  destruct (Z_lt_ge_dec (a + extent - 1) size_modulus) as [Hlt|Hge].
  - right. rewrite wrap_small by (unfold is_size; lia). lia.
  - left. rewrite (wrap_congr _ (a + extent - 1 - size_modulus) 1);
      [lia|lia|unfold is_size; lia].
Qed.

(** A window that would extend past the input is not clipped: cutting it
    out fails. *)
Lemma window_outside (this : MaxPoolingType) (input : Cube Z) (s rowidx colidx : Z) :
  config_ok this -> is_size rowidx -> is_size colidx ->
  rowidx + windowRows this > n_rows input \/
  colidx + windowCols this > n_cols input ->
  window this input s rowidx colidx = None.
Proof.
  intros (HkW & HkH & _ & _ & Hoff & Hwr & Hwc) Hr Hc Hout.
  unfold window. destruct (slice input s) as [sl|] eqn:Hsl; [|reflexivity].
  assert (HslR : m_rows sl = n_rows input /\ m_cols sl = n_cols input).
  { unfold slice in Hsl. case_bool_decide; [|discriminate].
    by injection Hsl as <-. }
  destruct HslR as [HslR HslC].
  rewrite !corner_wrap. apply submat_None. rewrite HslR, HslC.
  unfold windowRows, windowCols, is_size in *.
  destruct Hout as [Hout|Hout].
  - destruct (corner_outside rowidx (kernelWidth this - offset this)
                (n_rows input)) as [H|H]; [done|lia|lia| |].
    + left. replace (rowidx + kernelWidth this - 1 - offset this)
        with (rowidx + (kernelWidth this - offset this) - 1) by lia. exact H.
    + right. right. left.
      replace (rowidx + kernelWidth this - 1 - offset this)
        with (rowidx + (kernelWidth this - offset this) - 1) by lia. exact H.
  - destruct (corner_outside colidx (kernelHeight this - offset this)
                (n_cols input)) as [H|H]; [done|lia|lia| |].
    + right. left. replace (colidx + kernelHeight this - 1 - offset this)
        with (colidx + (kernelHeight this - offset this) - 1) by lia. exact H.
    + right. right. right.
      replace (colidx + kernelHeight this - 1 - offset this)
        with (colidx + (kernelHeight this - offset this) - 1) by lia. exact H.
Qed.

(** C6, as the code has it. Every window the forward pass cuts out at
    loop counters [(rowidx, colidx)] has the same extent,
    [(kernelWidth - offset)] x [(kernelHeight - offset)], if it lies inside
    the input; a window that would extend past the input is not clipped to
    the available elements: cutting it out fails. *)
Theorem C6_windows_have_uniform_extent
    (this : MaxPoolingType) (input : Cube Z) (s rowidx colidx : Z) :
  cube_wf input -> config_ok this -> 0 <= s < n_slices input ->
  is_size rowidx -> is_size colidx ->
  (rowidx + windowRows this <= n_rows input /\
   colidx + windowCols this <= n_cols input ->
   exists w,
     window this input s rowidx colidx = Some w /\
     m_rows w = kernelWidth this - offset this /\
     m_cols w = kernelHeight this - offset this) /\
  (rowidx + windowRows this > n_rows input \/
   colidx + windowCols this > n_cols input ->
   window this input s rowidx colidx = None).
Proof.
  intros Hwf Hcfg Hs Hr Hc. split.
  - intros [Hfr Hfc].
    destruct (window_spec this input s rowidx colidx Hwf Hcfg Hs
                ltac:(unfold is_size in *; lia) ltac:(unfold is_size in *; lia)
                Hfr Hfc) as (w & Hw & HwR & HwC & _).
    exists w. by repeat split.
  - by apply window_outside.
Qed.

Lemma config_ok_ceil : config_ok (layer_ceil 1).
Proof.
  unfold config_ok, is_size, windowRows, windowCols. simpl.
  rewrite size_modulus_eq. lia.
Qed.

Lemma cube_wf_input5x5 : cube_wf input5x5.
Proof. unfold cube_wf, n_elem. simpl. rewrite size_modulus_eq. lia. Qed.

Lemma C6_windows_witness :
  cube_wf input5x5 /\ config_ok (layer_ceil 1) /\
  0 <= 0 < n_slices input5x5 /\ is_size 2 /\ is_size 4 /\
  (2 + windowRows (layer_ceil 1) <= n_rows input5x5 /\
   4 + windowCols (layer_ceil 1) <= n_cols input5x5 ->
   exists w,
     window (layer_ceil 1) input5x5 0 2 4 = Some w /\
     m_rows w = kernelWidth (layer_ceil 1) - offset (layer_ceil 1) /\
     m_cols w = kernelHeight (layer_ceil 1) - offset (layer_ceil 1)) /\
  (2 + windowRows (layer_ceil 1) > n_rows input5x5 \/
   4 + windowCols (layer_ceil 1) > n_cols input5x5 ->
   window (layer_ceil 1) input5x5 0 2 4 = None).
Proof.
  assert (Hs : 0 <= 0 < n_slices input5x5) by (simpl; lia).
  assert (H2 : is_size 2) by (unfold is_size; rewrite size_modulus_eq; lia).
  assert (H4 : is_size 4) by (unfold is_size; rewrite size_modulus_eq; lia).
  split; [exact cube_wf_input5x5|]. split; [exact config_ok_ceil|].
  split; [exact Hs|]. split; [exact H2|]. split; [exact H4|].
  exact (C6_windows_have_uniform_extent (layer_ceil 1) input5x5 0 2 4
           cube_wf_input5x5 config_ok_ceil Hs H2 H4).
Defined.

(** With offset 1 the first, interior window of the ceil-mode scenario is
    1x1, not 2x2; with offset 0 the last window is not clipped. *)
Example ceil_window_interior :
  cell_window (layer_ceil 1) input5x5 0 0 0 = Some (mkMat 1 1 [1]).
Proof. reflexivity. Qed.

Example ceil_window_last_unclipped :
  cell_window (layer_ceil 0) input5x5 2 0 0 = None.
Proof. reflexivity. Qed.

(** The whole pass on the ceil-mode scenario: with offset 1 every cell
    receives the single element at its anchor (the first cell 1, where the
    2x2 window holds 7); with offset 0 the pass fails at the boundary. *)
Example ceil_forward_offset_1 :
  PoolingOperation (layer_ceil 1) input5x5 (blank 3 3 1) (blank 3 3 1)
  = Some (mkCube 3 3 1 [1; 3; 5; 11; 13; 15; 21; 23; 25],
          mkCube 3 3 1 [0; 2; 4; 10; 12; 14; 20; 22; 24]).
Proof. reflexivity. Qed.

Example ceil_forward_offset_0 :
  PoolingOperation (layer_ceil 0) input5x5 (blank 3 3 1) (blank 3 3 1) = None.
Proof. reflexivity. Qed.

(** Whatever the offset member holds, the windows of the ceil-mode
    scenario are not the kernel-sized windows cut at the boundary: the
    first window is 2x2 only for offset 0, and then the last window, which
    would extend past the input, cannot be cut out. *)
Lemma C6_boundary_clipping_counterexample :
  ~ exists off : Z, boundary_clipping (layer_ceil off) input5x5 (blank 3 3 1).
Proof.
  intros [off Hclip].
  assert (Hin0 : in_cube (blank 3 3 1) 0 0 0) by (unfold in_cube; simpl; lia).
  assert (Hin2 : in_cube (blank 3 3 1) 2 0 0) by (unfold in_cube; simpl; lia).
  destruct (Hclip 0 0 0 Hin0) as (w0 & Hw0 & HR0 & _).
  destruct (Hclip 2 0 0 Hin2) as (w2 & Hw2 & _).
  unfold cell_window, window in Hw0, Hw2.
  destruct (slice input5x5 0) as [sl|] eqn:Hsl; [|discriminate].
  assert (HslR : m_rows sl = 5).
  { unfold slice in Hsl. case_bool_decide; [|discriminate].
    by injection Hsl as <-. }
  rewrite !corner_wrap in Hw0, Hw2.
  apply submat_rows in Hw0 as (HwR0 & _).
  apply submat_rows in Hw2 as (_ & _ & Hlt & _).
  rewrite HwR0 in HR0. unfold clipped_extent in HR0.
  change (kernelWidth (layer_ceil off)) with 2 in *.
  change (strideWidth (layer_ceil off)) with 2 in *.
  change (offset (layer_ceil off)) with off in *.
  change (n_rows input5x5) with 5 in *.
  rewrite HslR in Hlt.
  assert (H1 : wrap (1 - off) = 1).
  { replace (0 * 2 + 2 - 1 - off) with (1 - off) in HR0 by lia. lia. }
  assert (H5 : wrap (2 * 2 + 2 - 1 - off) = 5).
  { replace (2 * 2 + 2 - 1 - off) with (1 - off + 4) by lia.
    rewrite <- wrap_wrap_add_l, H1. reflexivity. }
  lia.
Qed.

(** ** C2: the pooling rule *)

(** C2. On a non-empty rectangular window, [Pooling] returns the largest
    element, and [PoolingWithIndex] returns that same value with the flat
    position [index] of its first occurrence in the column-major scan: the
    element at row [index mod rows], column [index / rows] is the maximum,
    and every other occurrence of the maximum is in a later column, or in
    the same column at a later row. *)
Theorem C2_pooling_rule_max_first_occurrence (w : Mat Z) :
  mat_wf w -> 0 < m_rows w -> 0 < m_cols w ->
  exists maxVal index,
    MaxPoolingRule.Pooling w = Some maxVal /\
    MaxPoolingRule.PoolingWithIndex w = Some (index, maxVal) /\
    (forall r c, 0 <= r < m_rows w -> 0 <= c < m_cols w ->
       exists x, at2 w r c = Some x /\ x <= maxVal) /\
    0 <= index < m_rows w * m_cols w /\
    at2 w (index mod m_rows w) (index / m_rows w) = Some maxVal /\
    (forall r c, at2 w r c = Some maxVal ->
       index / m_rows w < c \/
       (index / m_rows w = c /\ index mod m_rows w <= r)).
Proof. exact (pooling_rule_spec w). Qed.

Lemma C2_pooling_rule_witness :
  mat_wf window_ties /\ 0 < m_rows window_ties /\ 0 < m_cols window_ties /\
  exists maxVal index,
    MaxPoolingRule.Pooling window_ties = Some maxVal /\
    MaxPoolingRule.PoolingWithIndex window_ties = Some (index, maxVal) /\
    (forall r c, 0 <= r < m_rows window_ties -> 0 <= c < m_cols window_ties ->
       exists x, at2 window_ties r c = Some x /\ x <= maxVal) /\
    0 <= index < m_rows window_ties * m_cols window_ties /\
    at2 window_ties (index mod m_rows window_ties) (index / m_rows window_ties)
      = Some maxVal /\
    (forall r c, at2 window_ties r c = Some maxVal ->
       index / m_rows window_ties < c \/
       (index / m_rows window_ties = c /\ index mod m_rows window_ties <= r)).
Proof.
  assert (Hwf : mat_wf window_ties) by (vm_compute; repeat split; congruence).
  assert (Hr : 0 < m_rows window_ties) by reflexivity.
  assert (Hc : 0 < m_cols window_ties) by reflexivity.
  split; [exact Hwf|]. split; [exact Hr|]. split; [exact Hc|].
  exact (C2_pooling_rule_max_first_occurrence window_ties Hwf Hr Hc).
Defined.

Example pooling_ties :
  MaxPoolingRule.PoolingWithIndex window_ties = Some (1, 7).
Proof. reflexivity. Qed.

(** ** The dimension calculator *)

Lemma floor_div_bounds (a b : Z) :
  0 < b -> (a / b) * b <= a < (a / b + 1) * b.
Proof.
  intros Hb. pose proof (Z.div_mod a b ltac:(lia)).
  pose proof (Z.mod_pos_bound a b Hb). nia.
Qed.

(** Floor mode on one axis, for a kernel that fits. *)
Lemma ComputeOutputSize_floor (inputSize kernel stride : Z) :
  1 <= kernel <= inputSize -> 1 <= stride ->
  ComputeOutputSize inputSize kernel stride true
    = Ok ((inputSize - kernel) / stride + 1).
Proof.
  intros Hk Hs. unfold ComputeOutputSize.
  rewrite bool_decide_eq_false_2 by lia.
  assert (0 <= (inputSize - kernel) / stride) by (apply Z.div_pos; lia).
  by rewrite bool_decide_eq_false_2 by lia.
Qed.

(** The errors of one axis. *)
Lemma ComputeOutputSize_zero (inputSize kernel stride : Z) (floorMode : bool) :
  kernel = 0 \/ stride = 0 ->
  ComputeOutputSize inputSize kernel stride floorMode = ConfigurationError.
Proof. intros H. unfold ComputeOutputSize. by rewrite bool_decide_eq_true_2. Qed.

Lemma ComputeOutputSize_floor_too_large (inputSize kernel stride : Z) :
  0 <= stride -> kernel > inputSize ->
  ComputeOutputSize inputSize kernel stride true = ConfigurationError.
Proof.
  intros Hs Hk. unfold ComputeOutputSize.
  case_bool_decide as Hz; [reflexivity|].
  assert ((inputSize - kernel) / stride < 0)
    by (apply Z.div_lt_upper_bound; lia).
  by rewrite bool_decide_eq_true_2 by lia.
Qed.

(** The windows of a floor-mode output lie inside the input. *)
Lemma floor_output_fits (inputSize kernel stride : Z) :
  1 <= kernel <= inputSize -> 1 <= stride ->
  fits ((inputSize - kernel) / stride + 1) stride kernel inputSize.
Proof.
  intros Hk Hs. right.
  pose proof (floor_div_bounds (inputSize - kernel) stride ltac:(lia)). lia.
Qed.

(** In floor mode with a zero offset, an output shaped as the calculator
    says has all its windows inside the input. *)
Lemma floor_dimensions_shapes_ok (this : MaxPoolingType) (input output : Cube Z) :
  cube_wf input -> cube_wf output ->
  floor this = true -> offset this = 0 ->
  1 <= kernelWidth this <= n_rows input ->
  1 <= kernelHeight this <= n_cols input ->
  1 <= strideWidth this -> 1 <= strideHeight this ->
  ComputeOutputDimensions this
    (mkDimensions (n_rows input) (n_cols input) (n_slices input))
  = Ok (mkDimensions (n_rows output) (n_cols output) (n_slices output)) ->
  shapes_ok this input output.
Proof.
  intros Hiwf Howf Hfloor Hoff HkW HkH HsW HsH Hdim.
  unfold ComputeOutputDimensions in Hdim. simpl in Hdim.
  rewrite Hfloor, !ComputeOutputSize_floor in Hdim by done.
  injection Hdim as HR HC HS.
  unfold shapes_ok, windowRows, windowCols.
  rewrite Hoff, !Z.sub_0_r, <- HR, <- HC.
  split; [exact Hiwf|]. split; [exact Howf|]. split; [by symmetry|].
  split; by apply floor_output_fits.
Qed.

(** C5. In floor mode, when the kernel fits in the input and kernel and
    stride are at least 1 on both axes, the output width and height are
    [floor((inputSize - kernel) / stride) + 1], each computed from its own
    axis (the quotient [q] is the integer with
    [q * stride <= inputSize - kernel < (q + 1) * stride]), and the channel
    count of the output is the channel count of the input. *)
Theorem C5_floor_mode_output_dimensions
    (this : MaxPoolingType) (inputDimensions : Dimensions) :
  floor this = true ->
  1 <= kernelWidth this <= width inputDimensions ->
  1 <= kernelHeight this <= height inputDimensions ->
  1 <= strideWidth this -> 1 <= strideHeight this ->
  exists outputDimensions,
    ComputeOutputDimensions this inputDimensions = Ok outputDimensions /\
    width outputDimensions
      = (width inputDimensions - kernelWidth this) / strideWidth this + 1 /\
    (width outputDimensions - 1) * strideWidth this
      <= width inputDimensions - kernelWidth this
      < width outputDimensions * strideWidth this /\
    height outputDimensions
      = (height inputDimensions - kernelHeight this) / strideHeight this + 1 /\
    (height outputDimensions - 1) * strideHeight this
      <= height inputDimensions - kernelHeight this
      < height outputDimensions * strideHeight this /\
    channelCount outputDimensions = channelCount inputDimensions.
Proof.
  intros Hfloor HkW HkH HsW HsH. unfold ComputeOutputDimensions.
  rewrite Hfloor, !ComputeOutputSize_floor by done.
  eexists. split; [reflexivity|]. simpl.
  pose proof (floor_div_bounds (width inputDimensions - kernelWidth this)
                (strideWidth this) ltac:(lia)).
  pose proof (floor_div_bounds (height inputDimensions - kernelHeight this)
                (strideHeight this) ltac:(lia)).
  repeat split; lia.
Qed.

Lemma C5_floor_mode_witness :
  floor layer2x2 = true /\
  1 <= kernelWidth layer2x2 <= width (mkDimensions 7 4 3) /\
  1 <= kernelHeight layer2x2 <= height (mkDimensions 7 4 3) /\
  1 <= strideWidth layer2x2 /\ 1 <= strideHeight layer2x2 /\
  exists outputDimensions,
    ComputeOutputDimensions layer2x2 (mkDimensions 7 4 3)
      = Ok outputDimensions /\
    width outputDimensions
      = (width (mkDimensions 7 4 3) - kernelWidth layer2x2)
          / strideWidth layer2x2 + 1 /\
    (width outputDimensions - 1) * strideWidth layer2x2
      <= width (mkDimensions 7 4 3) - kernelWidth layer2x2
      < width outputDimensions * strideWidth layer2x2 /\
    height outputDimensions
      = (height (mkDimensions 7 4 3) - kernelHeight layer2x2)
          / strideHeight layer2x2 + 1 /\
    (height outputDimensions - 1) * strideHeight layer2x2
      <= height (mkDimensions 7 4 3) - kernelHeight layer2x2
      < height outputDimensions * strideHeight layer2x2 /\
    channelCount outputDimensions = channelCount (mkDimensions 7 4 3).
Proof.
  assert (H1 : floor layer2x2 = true) by reflexivity.
  assert (H2 : 1 <= kernelWidth layer2x2 <= width (mkDimensions 7 4 3))
    by (simpl; lia).
  assert (H3 : 1 <= kernelHeight layer2x2 <= height (mkDimensions 7 4 3))
    by (simpl; lia).
  assert (H4 : 1 <= strideWidth layer2x2) by (simpl; lia).
  assert (H5 : 1 <= strideHeight layer2x2) by (simpl; lia).
  repeat (split; [assumption|]).
  exact (C5_floor_mode_output_dimensions layer2x2 (mkDimensions 7 4 3)
           H1 H2 H3 H4 H5).
Defined.

Example floor_output_7x4 :
  ComputeOutputDimensions layer2x2 (mkDimensions 7 4 3)
  = Ok (mkDimensions 3 2 3).
Proof. reflexivity. Qed.

Example ceil_output_5 : ComputeOutputSize 5 2 2 false = Ok 3.
Proof. reflexivity. Qed.

(** C8. Declaring the shape fails with a ConfigurationError when, in floor
    mode, the kernel is larger than the input along the width or the
    height, and in either mode when a kernel or stride member is zero; no
    output dimension is produced in these cases. *)
Theorem C8_invalid_configuration_is_an_error
    (this : MaxPoolingType) (inputDimensions : Dimensions) :
  0 <= strideWidth this -> 0 <= strideHeight this ->
  (floor this = true /\
   (kernelWidth this > width inputDimensions \/
    kernelHeight this > height inputDimensions)) \/
  kernelWidth this = 0 \/ kernelHeight this = 0 \/
  strideWidth this = 0 \/ strideHeight this = 0 ->
  ComputeOutputDimensions this inputDimensions = ConfigurationError.
Proof.
  intros HsW HsH Hbad. unfold ComputeOutputDimensions.
  destruct Hbad as [[Hfloor [Hk|Hk]]|[Hz|[Hz|[Hz|Hz]]]].
  - by rewrite Hfloor, (ComputeOutputSize_floor_too_large _ _ _ HsW Hk).
  - rewrite Hfloor, (ComputeOutputSize_floor_too_large _ _ _ HsH Hk).
    by destruct (ComputeOutputSize _ _ _ _).
  - rewrite (ComputeOutputSize_zero (width inputDimensions)) by (by left).
    done.
  - rewrite (ComputeOutputSize_zero (height inputDimensions)) by (by left).
    by destruct (ComputeOutputSize _ _ _ _).
  - rewrite (ComputeOutputSize_zero (width inputDimensions)) by (by right).
    done.
  - rewrite (ComputeOutputSize_zero (height inputDimensions)) by (by right).
    by destruct (ComputeOutputSize _ _ _ _).
Qed.

Lemma C8_invalid_configuration_witness :
  0 <= strideWidth layer2x2 /\ 0 <= strideHeight layer2x2 /\
  ((floor layer2x2 = true /\
    (kernelWidth layer2x2 > width (mkDimensions 1 4 3) \/
     kernelHeight layer2x2 > height (mkDimensions 1 4 3))) \/
   kernelWidth layer2x2 = 0 \/ kernelHeight layer2x2 = 0 \/
   strideWidth layer2x2 = 0 \/ strideHeight layer2x2 = 0) /\
  ComputeOutputDimensions layer2x2 (mkDimensions 1 4 3) = ConfigurationError.
Proof.
  assert (H1 : 0 <= strideWidth layer2x2) by (simpl; lia).
  assert (H2 : 0 <= strideHeight layer2x2) by (simpl; lia).
  assert (H3 : (floor layer2x2 = true /\
                (kernelWidth layer2x2 > width (mkDimensions 1 4 3) \/
                 kernelHeight layer2x2 > height (mkDimensions 1 4 3))) \/
               kernelWidth layer2x2 = 0 \/ kernelHeight layer2x2 = 0 \/
               strideWidth layer2x2 = 0 \/ strideHeight layer2x2 = 0).
  { left. split; [reflexivity|]. left. simpl. lia. }
  split; [exact H1|]. split; [exact H2|]. split; [exact H3|].
  exact (C8_invalid_configuration_is_an_error layer2x2 (mkDimensions 1 4 3)
           H1 H2 H3).
Defined.

(** * Further properties of the operators *)

(** ** Cubes are determined by their cells *)

Lemma at3_lookup {A} (c : Cube A) (i j s : Z) :
  in_cube c i j s -> at3 c i j s = mem c !! Z.to_nat (flat_index c i j s).
Proof. intros Hin. unfold at3. by rewrite bool_decide_eq_true_2. Qed.


(** ** Loops that fail *)

(** A loop whose body fails at iteration [k], on every state the loop can
    be in, fails. *)
Lemma for_range_fail {St : Type} (P : St -> Prop)
    (body : Z -> St -> option St) (n : nat) (i0 k : Z) (st0 : St) :
  P st0 ->
  (forall i st st', P st -> body i st = Some st' -> P st') ->
  i0 <= k < i0 + Z.of_nat n ->
  (forall st, P st -> body k st = None) ->
  for_range n i0 body st0 = None.
Proof.
  intros H0 Hkeep Hk Hfail. revert i0 st0 H0 Hk.
  induction n as [|n IH]; intros i0 st0 H0 Hk; [lia|]. simpl.
  destruct (body i0 st0) as [st1|] eqn:Hb; [|reflexivity].
  destruct (decide (k = i0)) as [->|Hne].
  - rewrite (Hfail st0 H0) in Hb. discriminate.
  - apply IH; [by eapply Hkeep|lia].
Qed.

Lemma for_stride_fail_from {St : Type}
    (body : Z -> Z -> St -> option St) (stride : Z) (n : nat) (i0 k : Z)
    (st0 : St) :
  i0 <= k < i0 + Z.of_nat n ->
  (forall st, body k (wrap (k * stride)) st = None) ->
  for_stride n i0 (wrap (i0 * stride)) stride body st0 = None.
Proof.
  intros Hk Hfail. revert i0 st0 Hk.
  induction n as [|n IH]; intros i0 st0 Hk; [lia|]. simpl.
  destruct (body i0 (wrap (i0 * stride)) st0) as [st1|] eqn:Hb; [|reflexivity].
  destruct (decide (k = i0)) as [->|Hne].
  - rewrite Hfail in Hb. discriminate.
  - rewrite add_sz_counter. apply IH. lia.
Qed.

Lemma for_stride_fail {St : Type}
    (body : Z -> Z -> St -> option St) (stride n k : Z) (st0 : St) :
  0 <= k < n ->
  (forall st, body k (wrap (k * stride)) st = None) ->
  for_stride (Z.to_nat n) 0 0 stride body st0 = None.
Proof.
  intros Hk Hfail.
  apply (for_stride_fail_from body stride (Z.to_nat n) 0 k st0); [lia|exact Hfail].
Qed.

(** ** The forward pass overwrites its outputs wholesale *)








(** ** Windows outside the input *)

Lemma pool_cell_with_index_outside (this : MaxPoolingType) (input : Cube Z)
    (s j colidx i rowidx : Z) (st : Cube Z * Cube Z) :
  window this input s rowidx colidx = None ->
  pool_cell_with_index this input s j colidx i rowidx st = None.
Proof. intros H. unfold pool_cell_with_index. destruct st. by rewrite H. Qed.

Lemma pool_cell_outside (this : MaxPoolingType) (input : Cube Z)
    (s j colidx i rowidx : Z) (output : Cube Z) :
  window this input s rowidx colidx = None ->
  pool_cell this input s j colidx i rowidx output = None.
Proof. intros H. unfold pool_cell. by rewrite H. Qed.

(** X4. A window is never read past the input. If some output cell
    [(i, j)] has a window that extends past the last row or column of the
    input (a kernel larger than the input is the case [i = j = 0]), both
    overloads of the forward pass fail with the bounds error of [submat]
    instead of returning a result. *)
Theorem X4_forward_fails_on_window_outside_input
    (this : MaxPoolingType) (input output indices : Cube Z) (i j : Z) :
  config_ok this -> 1 <= n_slices input ->
  0 <= i < n_rows output -> 0 <= j < n_cols output ->
  is_size (i * strideWidth this) -> is_size (j * strideHeight this) ->
  i * strideWidth this + windowRows this > n_rows input \/
  j * strideHeight this + windowCols this > n_cols input ->
  PoolingOperation this input output indices = None /\
  PoolingOperationNoIndex this input output = None.
Proof.
  intros Hcfg HS Hi Hj Hri Hci Hout.
  assert (Hw : forall s,
            window this input s (wrap (i * strideWidth this))
              (wrap (j * strideHeight this)) = None).
  { intros s. rewrite !wrap_small by done. by apply window_outside. }
  split.
  - unfold PoolingOperation.
    apply (for_range_fail (fun _ => True) _ _ 0 0); [done|done|lia|].
    intros st _. apply (for_stride_fail _ _ _ j); [done|].
    intros st'. apply (for_stride_fail _ _ _ i); [done|].
    intros st''. by apply pool_cell_with_index_outside.
  - unfold PoolingOperationNoIndex.
    apply (for_range_fail (fun _ => True) _ _ 0 0); [done|done|lia|].
    intros st _. apply (for_stride_fail _ _ _ j); [done|].
    intros st'. apply (for_stride_fail _ _ _ i); [done|].
    intros st''. by apply pool_cell_outside.
Qed.

Lemma config_ok_layer3x3 : config_ok layer3x3.
Proof.
  unfold config_ok, is_size, windowRows, windowCols. simpl.
  rewrite size_modulus_eq. lia.
Qed.

Lemma X4_forward_fails_witness :
  config_ok layer3x3 /\ 1 <= n_slices input2x2 /\
  0 <= 0 < n_rows (blank 1 1 1) /\ 0 <= 0 < n_cols (blank 1 1 1) /\
  is_size (0 * strideWidth layer3x3) /\ is_size (0 * strideHeight layer3x3) /\
  (0 * strideWidth layer3x3 + windowRows layer3x3 > n_rows input2x2 \/
   0 * strideHeight layer3x3 + windowCols layer3x3 > n_cols input2x2) /\
  PoolingOperation layer3x3 input2x2 (blank 1 1 1) (blank 1 1 1) = None /\
  PoolingOperationNoIndex layer3x3 input2x2 (blank 1 1 1) = None.
Proof.
  assert (H1 : 1 <= n_slices input2x2) by (simpl; lia).
  assert (H2 : 0 <= 0 < n_rows (blank 1 1 1)) by (simpl; lia).
  assert (H3 : 0 <= 0 < n_cols (blank 1 1 1)) by (simpl; lia).
  assert (H4 : is_size (0 * strideWidth layer3x3))
    by (unfold is_size; simpl; rewrite size_modulus_eq; lia).
  assert (H5 : is_size (0 * strideHeight layer3x3))
    by (unfold is_size; simpl; rewrite size_modulus_eq; lia).
  assert (H6 : 0 * strideWidth layer3x3 + windowRows layer3x3 > n_rows input2x2 \/
               0 * strideHeight layer3x3 + windowCols layer3x3 > n_cols input2x2)
    by (left; unfold windowRows; simpl; lia).
  split; [exact config_ok_layer3x3|].
  repeat (split; [assumption|]).
  exact (X4_forward_fails_on_window_outside_input layer3x3 input2x2
           (blank 1 1 1) (blank 1 1 1) 0 0 config_ok_layer3x3 H1 H2 H3 H4 H5 H6).
Defined.

(** ** Index maps that do not match the gradient *)

Lemma unpool_step_n_elem {A : Type} `{ElemType A} (error : Cube A)
    (indices : Cube Z) (i : Z) (out out' : Cube A) :
  unpool_step error indices i out = Some out' -> n_elem out' = n_elem out.
Proof.
  intros Hstep.
  destruct (unpool_step_inv error indices i out out' Hstep)
    as (k & e & o & _ & _ & _ & Hsh & _).
  by apply same_shape_n_elem.
Qed.

(** X5. The scatter-add never writes outside the gradient tensor and never
    reads past the upstream gradient: when an entry of the index map is not
    below the element count of the tensor to fill (an index map left from a
    larger input), or when the upstream gradient has fewer elements than the
    index map, [UnpoolingOperation] fails with a bounds error, whatever
    the element type. *)
Theorem X5_unpooling_fails_on_mismatched_index_map {A : Type} `{ElemType A}
    (error output : Cube A) (indices : Cube Z) :
  (exists i k, at_flat indices i = Some k /\ n_elem output <= k) \/
  0 <= n_elem error < n_elem indices ->
  UnpoolingOperation error output indices = None.
Proof.
  intros Hbad. unfold UnpoolingOperation.
  assert (Hfail : exists i, 0 <= i < n_elem indices /\
            forall out, n_elem out = n_elem output ->
              unpool_step error indices i out = None).
  { destruct Hbad as [(i & k & Hk & Hge)|Hshort].
    - exists i. split; [by apply at_flat_Some in Hk as [? _]|].
      intros out Hn. unfold unpool_step. rewrite Hk.
      destruct (at_flat error i); [|reflexivity].
      assert (Hno : ~ (0 <= k < n_elem out)) by lia.
      unfold at_flat. by rewrite (bool_decide_eq_false_2 _ Hno).
    - exists (n_elem error). split; [lia|].
      intros out Hn. unfold unpool_step.
      destruct (at_flat indices _); [|reflexivity].
      assert (Hno : ~ (0 <= n_elem error < n_elem error)) by lia.
      unfold at_flat at 1. by rewrite (bool_decide_eq_false_2 _ Hno). }
  destruct Hfail as (i & Hi & Hfail).
  apply (for_range_fail (fun out : Cube A => n_elem out = n_elem output) _ _ 0 i).
  - reflexivity.
  - intros i' st st' Hst Hstep.
    by rewrite (unpool_step_n_elem _ _ _ _ _ Hstep).
  - lia.
  - exact Hfail.
Qed.

Lemma X5_unpooling_fails_witness :
  ((exists i k, at_flat (mkCube 2 2 1 [5; 7; 13; 15]) i = Some k /\
                n_elem (zero_cube double 3 3 1) <= k) \/
   0 <= n_elem gradient_big < n_elem (mkCube 2 2 1 [5; 7; 13; 15])) /\
  UnpoolingOperation gradient_big (zero_cube double 3 3 1)
    (mkCube 2 2 1 [5; 7; 13; 15])
  = None.
Proof.
  assert (H : (exists i k, at_flat (mkCube 2 2 1 [5; 7; 13; 15]) i = Some k /\
                           n_elem (zero_cube double 3 3 1) <= k) \/
              0 <= n_elem gradient_big < n_elem (mkCube 2 2 1 [5; 7; 13; 15])).
  { left. exists 2, 13. split; [reflexivity|]. unfold n_elem. simpl. lia. }
  split; [exact H|].
  exact (X5_unpooling_fails_on_mismatched_index_map gradient_big
           (zero_cube double 3 3 1) (mkCube 2 2 1 [5; 7; 13; 15]) H).
Defined.

(** ** Windows that do not overlap *)

(** Windows at least a window extent apart share no row (or column). *)
Lemma anchors_disjoint (stride extent i i' r : Z) :
  extent <= stride -> 0 <= i -> 0 <= i' ->
  i * stride <= r < i * stride + extent ->
  i' * stride <= r < i' * stride + extent ->
  i = i'.
Proof. intros He Hi Hi' Hr Hr'. nia. Qed.

(** With strides no smaller than the window, two output cells never store
    the same index. *)
Lemma stored_indices_distinct (this : MaxPoolingType) (input output : Cube Z)
    (i j s i' j' s' u v v' : Z) :
  config_ok this -> shapes_ok this input output ->
  windowRows this <= strideWidth this ->
  windowCols this <= strideHeight this ->
  in_cube output i j s -> in_cube output i' j' s' ->
  cell_result this input i j s = Some (u, v) ->
  cell_result this input i' j' s' = Some (u, v') ->
  (i, j, s) = (i', j', s').
Proof.
  intros Hcfg Hshapes HnoR HnoC Hin Hin' Hres Hres'.
  pose proof Hshapes as (Hinwf & _).
  pose proof (shapes_ok_cell_fits this input output i j s Hcfg Hshapes Hin) as Hfit.
  pose proof (shapes_ok_cell_fits this input output i' j' s' Hcfg Hshapes Hin')
    as Hfit'.
  destruct (stored_index_in_window this input i j s u v Hinwf Hcfg Hfit Hres)
    as (r & c & Hu & Hinc & Hr & Hc & _).
  destruct (stored_index_in_window this input i' j' s' u v' Hinwf Hcfg Hfit' Hres')
    as (r' & c' & Hu' & Hinc' & Hr' & Hc' & _).
  destruct (flat_index_inj input r c s r' c' s' Hinc Hinc' ltac:(congruence))
    as (-> & -> & ->).
  destruct Hfit as (_ & Hi & Hj & _). destruct Hfit' as (_ & Hi' & Hj' & _).
  rewrite (anchors_disjoint _ _ i i' r' HnoR Hi Hi' Hr Hr').
  rewrite (anchors_disjoint _ _ j j' c' HnoC Hj Hj' Hc Hc').
  reflexivity.
Qed.

(** X6. When the strides are at least the window extent on both axes (the
    windows do not overlap), the index map of the forward pass is
    injective: two different output cells never name the same input
    location. *)
Theorem X6_index_map_injective_without_overlap
    (this : MaxPoolingType) (input output indices : Cube Z) :
  forward_ok this input output indices ->
  windowRows this <= strideWidth this ->
  windowCols this <= strideHeight this ->
  exists out idx,
    PoolingOperation this input output indices = Some (out, idx) /\
    forall i j s i' j' s',
      in_cube output i j s -> in_cube output i' j' s' ->
      at3 idx i j s = at3 idx i' j' s' ->
      (i, j, s) = (i', j', s').
Proof.
  intros Hok HnoR HnoC. pose proof Hok as (Hcfg & Hshapes & _).
  destruct (forward_spec this input output indices Hok)
    as (out & idx & Hrun & _ & _ & _ & _ & Hcells).
  exists out, idx. split; [exact Hrun|].
  intros i j s i' j' s' Hin Hin' Heq.
  destruct (Hcells i j s Hin) as (u & v & Hres & _ & Hu).
  destruct (Hcells i' j' s' Hin') as (u' & v' & Hres' & _ & Hu').
  simpl in Hu, Hu'. rewrite Hu, Hu' in Heq. injection Heq as <-.
  by eapply stored_indices_distinct.
Qed.

Lemma no_overlap_scenario :
  windowRows layer2x2 <= strideWidth layer2x2 /\
  windowCols layer2x2 <= strideHeight layer2x2.
Proof. unfold windowRows, windowCols. simpl. lia. Qed.

Lemma X6_index_map_injective_witness :
  forward_ok layer2x2 input4x4 (blank 2 2 1) (blank 2 2 1) /\
  windowRows layer2x2 <= strideWidth layer2x2 /\
  windowCols layer2x2 <= strideHeight layer2x2 /\
  exists out idx,
    PoolingOperation layer2x2 input4x4 (blank 2 2 1) (blank 2 2 1)
      = Some (out, idx) /\
    forall i j s i' j' s',
      in_cube (blank 2 2 1) i j s -> in_cube (blank 2 2 1) i' j' s' ->
      at3 idx i j s = at3 idx i' j' s' ->
      (i, j, s) = (i', j', s').
Proof.
  split; [exact forward_ok_scenario|].
  split; [exact (proj1 no_overlap_scenario)|].
  split; [exact (proj2 no_overlap_scenario)|].
  exact (X6_index_map_injective_without_overlap layer2x2 input4x4
           (blank 2 2 1) (blank 2 2 1) forward_ok_scenario
           (proj1 no_overlap_scenario) (proj2 no_overlap_scenario)).
Defined.

(** ** Routing of the gradient *)

(** X7. Without overlap the backward pass routes each upstream gradient to
    the location its output cell selected in the forward pass: after
    [PoolingOperation] and [UnpoolingOperation], the gradient at
    [indexMap(i, j, s)] is [0 + gradientOut(i, j, s)] in the element type,
    which is [gradientOut(i, j, s)] itself whenever adding it to zero
    leaves it unchanged (every element of an integer type, every [double]
    but the negative zero). *)
Theorem X7_gradient_routed_to_selected_location {A : Type} `{ElemType A}
    (this : MaxPoolingType) (input output indices out idx : Cube Z)
    (error g0 : Cube A) :
  forward_ok this input output indices ->
  windowRows this <= strideWidth this ->
  windowCols this <= strideHeight this ->
  PoolingOperation this input output indices = Some (out, idx) ->
  cube_wf error -> same_shape error out ->
  cube_wf g0 -> same_shape g0 input ->
  exists g,
    UnpoolingOperation error g0 idx = Some g /\
    forall i j s, in_cube out i j s ->
      exists u e,
        at3 idx i j s = Some u /\ at3 error i j s = Some e /\
        at_flat g u = Some (elem_add elem_zero e) /\
        (elem_add elem_zero e = e -> at_flat g u = Some e).
Proof.
  intros Hok HnoR HnoC Hrun Hewf Hesh Hgwf Hgsh.
  pose proof Hok as (Hcfg & Hshapes & _).
  destruct (forward_spec this input output indices Hok)
    as (out' & idx' & Hrun' & _ & Hxwf & Hosh & Hxsh & Hcells).
  rewrite Hrun in Hrun'. injection Hrun' as <- <-.
  assert (Hesh' : same_shape error output)
    by (eapply same_shape_trans; [exact Hesh|exact Hosh]).
  pose proof (forward_gives_backward_ok this input output indices out idx
                error g0 Hok Hrun Hewf Hesh' Hgwf Hgsh) as Hbok.
  destruct (unpooling_spec error g0 idx Hbok) as (g & Hg & _ & _ & Hel).
  exists g. split; [exact Hg|].
  intros i j s Hin.
  assert (Hino : in_cube output i j s)
    by exact (same_shape_in_cube _ _ _ _ _ (same_shape_sym _ _ Hosh) Hin).
  assert (Hinx : in_cube idx i j s)
    by exact (same_shape_in_cube _ _ _ _ _ Hxsh Hino).
  assert (Hine : in_cube error i j s)
    by exact (same_shape_in_cube _ _ _ _ _ Hesh' Hino).
  destruct (Hcells i j s Hino) as (u & v & Hres & _ & Hu). simpl in Hu.
  destruct (at3_is_Some error i j s Hewf Hine) as [e He].
  exists u, e. split; [exact Hu|]. split; [exact He|].
  assert (Hgu : at_flat g u = Some (elem_add elem_zero e)).
  { destruct Hbok as (_ & _ & _ & _ & Hrange).
    assert (Hub : 0 <= u < n_elem g0).
    { apply (Hrange (flat_index idx i j s)). by rewrite <- at3_at_flat. }
    rewrite (Hel u Hub). f_equal.
    assert (Hflat : flat_index error i j s = flat_index idx i j s).
    { assert (Hsh : same_shape error idx)
        by (eapply same_shape_trans; [exact Hesh'|by apply same_shape_sym]).
      destruct Hsh as (Hr & Hc & _). unfold flat_index, n_elem_slice.
      by rewrite Hr, Hc. }
    apply (gathered_unique _ _ (Z.to_nat (flat_index idx i j s))).
    - by rewrite <- at3_lookup.
    - rewrite <- Hflat. by rewrite <- at3_lookup.
    - intros q' Hne Hq'.
      pose proof (lookup_lt_Some _ _ _ Hq') as Hlt.
      pose proof Hxwf as (_ & _ & _ & Hlen & _).
      destruct (flat_index_decode idx (Z.of_nat q') Hxwf ltac:(lia))
        as (i' & j' & s' & Hin' & Hflat').
      assert (Hu' : at3 idx i' j' s' = Some u)
        by (by rewrite at3_lookup, Hflat', Nat2Z.id).
      assert (Hino' : in_cube output i' j' s')
        by exact (same_shape_in_cube _ _ _ _ _ (same_shape_sym _ _ Hxsh) Hin').
      destruct (Hcells i' j' s' Hino') as (u' & v' & Hres' & _ & Hu'').
      simpl in Hu''. rewrite Hu' in Hu''. injection Hu'' as <-.
      pose proof (stored_indices_distinct this input output i j s i' j' s' u v v'
                    Hcfg Hshapes HnoR HnoC Hino Hino' Hres Hres') as Heq.
      injection Heq as -> -> ->. apply Hne. rewrite Hflat'. lia. }
  split; [exact Hgu|]. intros Hid. by rewrite Hgu, Hid.
Qed.

Lemma cube_wf_blank4x4 : cube_wf (blank 4 4 1).
Proof. unfold cube_wf, n_elem. simpl. rewrite size_modulus_eq. lia. Qed.

Lemma cube_wf_gradient_small : cube_wf gradient_small.
Proof. unfold cube_wf, n_elem. simpl. rewrite size_modulus_eq. lia. Qed.

Lemma cube_wf_zero4x4 : cube_wf (zero_cube double 4 4 1).
Proof. apply cube_wf_zero_cube; rewrite ?size_modulus_eq; lia. Qed.

Lemma X7_gradient_routed_witness :
  forward_ok layer2x2 input4x4 (blank 2 2 1) (blank 2 2 1) /\
  windowRows layer2x2 <= strideWidth layer2x2 /\
  windowCols layer2x2 <= strideHeight layer2x2 /\
  PoolingOperation layer2x2 input4x4 (blank 2 2 1) (blank 2 2 1)
    = Some (mkCube 2 2 1 [6; 14; 8; 16], mkCube 2 2 1 [5; 7; 13; 15]) /\
  cube_wf gradient_small /\
  same_shape gradient_small (mkCube 2 2 1 [6; 14; 8; 16]) /\
  cube_wf (zero_cube double 4 4 1) /\
  same_shape (zero_cube double 4 4 1) input4x4 /\
  exists g,
    UnpoolingOperation gradient_small (zero_cube double 4 4 1)
      (mkCube 2 2 1 [5; 7; 13; 15]) = Some g /\
    forall i j s, in_cube (mkCube 2 2 1 [6; 14; 8; 16]) i j s ->
      exists u e,
        at3 (mkCube 2 2 1 [5; 7; 13; 15]) i j s = Some u /\
        at3 gradient_small i j s = Some e /\
        at_flat g u = Some (elem_add elem_zero e) /\
        (elem_add elem_zero e = e -> at_flat g u = Some e).
Proof.
  assert (Hrun : PoolingOperation layer2x2 input4x4 (blank 2 2 1) (blank 2 2 1)
                 = Some (mkCube 2 2 1 [6; 14; 8; 16],
                         mkCube 2 2 1 [5; 7; 13; 15])) by reflexivity.
  assert (Hs1 : same_shape gradient_small (mkCube 2 2 1 [6; 14; 8; 16]))
    by (by repeat split).
  assert (Hs2 : same_shape (zero_cube double 4 4 1) input4x4)
    by (by repeat split).
  split; [exact forward_ok_scenario|].
  split; [exact (proj1 no_overlap_scenario)|].
  split; [exact (proj2 no_overlap_scenario)|].
  split; [exact Hrun|]. split; [exact cube_wf_gradient_small|].
  split; [exact Hs1|]. split; [exact cube_wf_zero4x4|]. split; [exact Hs2|].
  exact (X7_gradient_routed_to_selected_location layer2x2 input4x4
           (blank 2 2 1) (blank 2 2 1) _ _ gradient_small
           (zero_cube double 4 4 1)
           forward_ok_scenario (proj1 no_overlap_scenario)
           (proj2 no_overlap_scenario) Hrun cube_wf_gradient_small Hs1
           cube_wf_zero4x4 Hs2).
Defined.

(** Adding a [double] to zero changes only the negative zero. *)
Lemma double_add_zero_l (e : double) :
  e <> S754_zero true -> elem_add elem_zero e = e.
Proof. intros He. destruct e as [[|]| | |]; try reflexivity. congruence. Qed.

(** ** The pooled value and the elements of its window *)

(** The value of a cell bounds every input element of its window. *)
Lemma cell_value_dominates (this : MaxPoolingType) (input : Cube Z)
    (i j s u v : Z) :
  cube_wf input -> config_ok this -> cell_fits this input i j s ->
  cell_result this input i j s = Some (u, v) ->
  forall r c,
    i * strideWidth this <= r < i * strideWidth this + windowRows this ->
    j * strideHeight this <= c < j * strideHeight this + windowCols this ->
    exists x, at3 input r c s = Some x /\ x <= v.
Proof.
  intros Hwf Hcfg Hfit Hres r c Hr Hc.
  pose proof Hfit as (Hs & Hi & Hj & Hfr & Hfc).
  pose proof Hcfg as (_ & _ & HsW & HsH & _ & Hwr & Hwc).
  assert (Hr1 : 0 <= i * strideWidth this) by (unfold is_size in *; nia).
  assert (Hc1 : 0 <= j * strideHeight this) by (unfold is_size in *; nia).
  destruct (window_spec this input s _ _ Hwf Hcfg Hs Hr1 Hc1 Hfr Hfc)
    as (w & Hw & HwR & HwC & Hwwf & Hel).
  destruct (pooling_rule_spec w Hwwf ltac:(lia) ltac:(lia))
    as (v' & k & _ & HPI & Hub & _).
  unfold cell_result, cell_window in Hres. rewrite Hw, HPI in Hres.
  injection Hres as _ <-.
  destruct (Hub (r - i * strideWidth this) (c - j * strideHeight this))
    as (x & Hx & Hle); [lia|lia|].
  rewrite Hel in Hx by lia.
  exists x. split; [|exact Hle].
  rewrite <- Hx. f_equal; lia.
Qed.

(** The value of a cell is an input element of its window. *)
Lemma cell_value_attained (this : MaxPoolingType) (input : Cube Z)
    (i j s u v : Z) :
  cube_wf input -> config_ok this -> cell_fits this input i j s ->
  cell_result this input i j s = Some (u, v) ->
  exists r c,
    i * strideWidth this <= r < i * strideWidth this + windowRows this /\
    j * strideHeight this <= c < j * strideHeight this + windowCols this /\
    at3 input r c s = Some v.
Proof.
  intros Hwf Hcfg Hfit Hres.
  destruct (cell_result_spec this input i j s Hwf Hcfg Hfit)
    as (w & k & v' & _ & _ & _ & _ & _ & Hmod & Hdiv & _ & Hat & Hres').
  rewrite Hres in Hres'. injection Hres' as _ <-.
  eexists _, _. split; [|split; [|exact Hat]]; lia.
Qed.

(** X9. Every value the forward pass stores is the true maximum of the
    input over the window of its cell: it is at least every input element
    of rows [i * strideWidth .. + windowRows - 1] and columns
    [j * strideHeight .. + windowCols - 1] of the slice, and it is one of
    them. *)
Theorem X9_output_is_maximum_of_input_window
    (this : MaxPoolingType) (input output indices : Cube Z) :
  forward_ok this input output indices ->
  exists out idx,
    PoolingOperation this input output indices = Some (out, idx) /\
    forall i j s, in_cube output i j s ->
      exists v,
        at3 out i j s = Some v /\
        (forall r c,
           i * strideWidth this <= r < i * strideWidth this + windowRows this ->
           j * strideHeight this <= c
             < j * strideHeight this + windowCols this ->
           exists x, at3 input r c s = Some x /\ x <= v) /\
        (exists r c,
           i * strideWidth this <= r < i * strideWidth this + windowRows this /\
           j * strideHeight this <= c
             < j * strideHeight this + windowCols this /\
           at3 input r c s = Some v).
Proof.
  intros Hok. pose proof Hok as (Hcfg & Hshapes & _).
  pose proof Hshapes as (Hinwf & _).
  destruct (forward_spec this input output indices Hok)
    as (out & idx & Hrun & _ & _ & _ & _ & Hcells).
  exists out, idx. split; [exact Hrun|].
  intros i j s Hin.
  destruct (Hcells i j s Hin) as (u & v & Hres & Hv & _). simpl in Hv.
  pose proof (shapes_ok_cell_fits this input output i j s Hcfg Hshapes Hin) as Hfit.
  exists v. split; [exact Hv|]. split.
  - by eapply cell_value_dominates.
  - by eapply cell_value_attained.
Qed.

Lemma X9_output_is_maximum_witness :
  forward_ok layer_overlap input3x3 (blank 2 2 1) (blank 2 2 1) /\
  exists out idx,
    PoolingOperation layer_overlap input3x3 (blank 2 2 1) (blank 2 2 1)
      = Some (out, idx) /\
    forall i j s, in_cube (blank 2 2 1) i j s ->
      exists v,
        at3 out i j s = Some v /\
        (forall r c,
           i * strideWidth layer_overlap <= r
             < i * strideWidth layer_overlap + windowRows layer_overlap ->
           j * strideHeight layer_overlap <= c
             < j * strideHeight layer_overlap + windowCols layer_overlap ->
           exists x, at3 input3x3 r c s = Some x /\ x <= v) /\
        (exists r c,
           i * strideWidth layer_overlap <= r
             < i * strideWidth layer_overlap + windowRows layer_overlap /\
           j * strideHeight layer_overlap <= c
             < j * strideHeight layer_overlap + windowCols layer_overlap /\
           at3 input3x3 r c s = Some v).
Proof.
  split; [exact forward_ok_overlap|].
  exact (X9_output_is_maximum_of_input_window layer_overlap input3x3
           (blank 2 2 1) (blank 2 2 1) forward_ok_overlap).
Defined.

(** ** Monotonicity *)

(** Cells of two cubes of one shape compare as their storage does. *)
Lemma at3_le_of_Forall2 (c d : Cube Z) :
  same_shape c d -> Forall2 Z.le (mem c) (mem d) ->
  forall i j s x x',
    at3 c i j s = Some x -> at3 d i j s = Some x' -> x <= x'.
Proof.
  intros Hsh Hall i j s x x' Hx Hx'.
  pose proof (at3_in_cube _ _ _ _ _ Hx) as Hin.
  pose proof (at3_in_cube _ _ _ _ _ Hx') as Hin'.
  rewrite at3_lookup in Hx by done. rewrite at3_lookup in Hx' by done.
  assert (Hflat : flat_index d i j s = flat_index c i j s).
  { destruct Hsh as (Hr & Hc & _). unfold flat_index, n_elem_slice.
    by rewrite Hr, Hc. }
  rewrite Hflat in Hx'.
  exact (Forall2_lookup_lr _ _ _ _ _ _ Hall Hx Hx').
Qed.

(** X8. The forward pass is monotone: if every element of one input is at
    most the element at the same place of another input, then every pooled
    value of the first is at most the pooled value of the second at the
    same output cell. *)
Theorem X8_forward_is_monotone
    (this : MaxPoolingType) (input input' output indices : Cube Z) :
  forward_ok this input output indices ->
  forward_ok this input' output indices ->
  (forall r c s x x',
     at3 input r c s = Some x -> at3 input' r c s = Some x' -> x <= x') ->
  exists out idx out' idx',
    PoolingOperation this input output indices = Some (out, idx) /\
    PoolingOperation this input' output indices = Some (out', idx') /\
    forall i j s, in_cube output i j s ->
      exists v v',
        at3 out i j s = Some v /\ at3 out' i j s = Some v' /\ v <= v'.
Proof.
  intros Hok Hok' Hle.
  pose proof Hok as (Hcfg & Hshapes & _). pose proof Hshapes as (Hinwf & _).
  pose proof Hok' as (_ & Hshapes' & _). pose proof Hshapes' as (Hinwf' & _).
  destruct (forward_spec this input output indices Hok)
    as (out & idx & Hrun & _ & _ & _ & _ & Hcells).
  destruct (forward_spec this input' output indices Hok')
    as (out' & idx' & Hrun' & _ & _ & _ & _ & Hcells').
  exists out, idx, out', idx'. split; [exact Hrun|]. split; [exact Hrun'|].
  intros i j s Hin.
  destruct (Hcells i j s Hin) as (u & v & Hres & Hv & _).
  destruct (Hcells' i j s Hin) as (u' & v' & Hres' & Hv' & _).
  simpl in Hv, Hv'. exists v, v'. split; [exact Hv|]. split; [exact Hv'|].
  pose proof (shapes_ok_cell_fits this input output i j s Hcfg Hshapes Hin) as Hfit.
  pose proof (shapes_ok_cell_fits this input' output i j s Hcfg Hshapes' Hin)
    as Hfit'.
  destruct (cell_value_attained this input i j s u v Hinwf Hcfg Hfit Hres)
    as (r & c & Hr & Hc & Hat).
  destruct (cell_value_dominates this input' i j s u' v' Hinwf' Hcfg Hfit' Hres'
              r c Hr Hc) as (x' & Hx' & Hxle).
  pose proof (Hle r c s v x' Hat Hx'). lia.
Qed.

Lemma forward_ok_raised :
  forward_ok layer2x2 input4x4_raised (blank 2 2 1) (blank 2 2 1).
Proof.
  unfold forward_ok, config_ok, shapes_ok, cube_wf, same_shape, fits, is_size,
    windowRows, windowCols, n_elem.
  simpl. rewrite size_modulus_eq. lia.
Qed.

Lemma input4x4_le_raised :
  forall r c s x x',
    at3 input4x4 r c s = Some x -> at3 input4x4_raised r c s = Some x' ->
    x <= x'.
Proof.
  apply at3_le_of_Forall2; [by repeat split|].
  simpl. repeat constructor; lia.
Qed.

Lemma X8_forward_is_monotone_witness :
  forward_ok layer2x2 input4x4 (blank 2 2 1) (blank 2 2 1) /\
  forward_ok layer2x2 input4x4_raised (blank 2 2 1) (blank 2 2 1) /\
  (forall r c s x x',
     at3 input4x4 r c s = Some x -> at3 input4x4_raised r c s = Some x' ->
     x <= x') /\
  exists out idx out' idx',
    PoolingOperation layer2x2 input4x4 (blank 2 2 1) (blank 2 2 1)
      = Some (out, idx) /\
    PoolingOperation layer2x2 input4x4_raised (blank 2 2 1) (blank 2 2 1)
      = Some (out', idx') /\
    forall i j s, in_cube (blank 2 2 1) i j s ->
      exists v v',
        at3 out i j s = Some v /\ at3 out' i j s = Some v' /\ v <= v'.
Proof.
  split; [exact forward_ok_scenario|]. split; [exact forward_ok_raised|].
  split; [exact input4x4_le_raised|].
  exact (X8_forward_is_monotone layer2x2 input4x4 input4x4_raised
           (blank 2 2 1) (blank 2 2 1) forward_ok_scenario forward_ok_raised
           input4x4_le_raised).
Defined.

(** ** The 1x1 kernel *)










(** ** Any configuration: what a returned result satisfies *)

Lemma submat_inv {A} (m w : Mat A) (r1 c1 r2 c2 : Z) :
  submat m r1 c1 r2 c2 = Some w ->
  r1 <= r2 < m_rows m /\ c1 <= c2 < m_cols m /\
  m_rows w = r2 - r1 + 1 /\ m_cols w = c2 - c1 + 1.
Proof.
  unfold submat. case_bool_decide as Hb; [discriminate|].
  intros [= <-]. simpl. lia.
Qed.

(** The divisor [kernelWidth - offset] of the index decoding, computed with
    wrap-around, is the row count of any window that could be cut out. *)
Lemma divisor_is_window_rows (kernel off r1 r2 size : Z) :
  r2 = wrap (r1 + kernel - 1 - off) ->
  0 <= r1 <= r2 -> r2 < size -> size < size_modulus ->
  sub_sz kernel off = r2 - r1 + 1.
Proof.
  intros Hr2 Hr1 Hlt Hsz. unfold sub_sz.
  unfold wrap in Hr2.
  pose proof (Z.div_mod (r1 + kernel - 1 - off) size_modulus
                ltac:(rewrite size_modulus_eq; lia)) as Hdm.
  apply (wrap_congr _ _ ((r1 + kernel - 1 - off) / size_modulus)).
  - lia.
  - unfold is_size. lia.
Qed.

(** One iteration of the index-tracking pass that returns: the index it
    stores designates an element of the input, and that element is the
    value it stores. *)
Lemma pool_cell_with_index_safe (this : MaxPoolingType) (input : Cube Z)
    (s j colidx i rowidx : Z) (o x o' x' : Cube Z) :
  cube_wf input -> is_size rowidx -> is_size colidx ->
  pool_cell_with_index this input s j colidx i rowidx (o, x) = Some (o', x') ->
  exists u v,
    set3 x i j s u = Some x' /\ set3 o i j s v = Some o' /\
    at_flat input u = Some v.
Proof.
  intros Hwf Hr Hc Hcell. unfold pool_cell_with_index in Hcell.
  destruct (window this input s rowidx colidx) as [w|] eqn:Hw; [|discriminate].
  destruct (MaxPoolingRule.PoolingWithIndex w) as [[k v]|] eqn:HPI;
    [|discriminate].
  unfold div_sz, rem_sz in Hcell.
  case_bool_decide as Hd; [discriminate|].
  set (u := add_sz _ _) in Hcell.
  destruct (set3 x i j s u) as [x1|] eqn:Hx; [|discriminate].
  destruct (set3 o i j s v) as [o1|] eqn:Ho; [|discriminate].
  injection Hcell as <- <-.
  exists u, v. split; [exact Hx|]. split; [exact Ho|].
  unfold window in Hw.
  destruct (slice input s) as [sl|] eqn:Hsl; [|discriminate].
  destruct (slice_wf input s sl Hwf Hsl) as (Hslwf & HslR & HslC).
  assert (Hs : 0 <= s < n_slices input).
  { unfold slice in Hsl. by case_bool_decide. }
  rewrite !corner_wrap in Hw.
  set (r2 := wrap (rowidx + kernelWidth this - 1 - offset this)) in *.
  set (c2 := wrap (colidx + kernelHeight this - 1 - offset this)) in *.
  pose proof (submat_inv _ _ _ _ _ _ Hw) as (Hr2 & Hc2 & HwR & HwC).
  rewrite HslR in Hr2. rewrite HslC in Hc2.
  unfold is_size in Hr, Hc.
  destruct (cube_dims_small input Hwf) as [HRs HCs]; [lia..|].
  destruct (submat_spec sl rowidx colidx (r2 - rowidx + 1) (c2 - colidx + 1))
    as (w' & Hw' & _ & _ & Hwwf & Hel); [done|lia..|].
  replace (rowidx + (r2 - rowidx + 1) - 1) with r2 in Hw' by lia.
  replace (colidx + (c2 - colidx + 1) - 1) with c2 in Hw' by lia.
  rewrite Hw in Hw'. injection Hw' as <-.
  destruct (pooling_rule_spec w Hwwf ltac:(lia) ltac:(lia))
    as (v' & k' & _ & HPI' & _ & Hk & Hat & _).
  rewrite HPI in HPI'. injection HPI' as <- <-.
  rewrite HwR in Hat, Hk. rewrite HwC in Hk.
  assert (Hdiv : sub_sz (kernelWidth this) (offset this) = r2 - rowidx + 1)
    by (by apply (divisor_is_window_rows _ _ _ _ (n_rows input)); [|lia..]).
  assert (Hmod : 0 <= k mod (r2 - rowidx + 1) < r2 - rowidx + 1)
    by (apply Z.mod_pos_bound; lia).
  assert (Hquo : 0 <= k / (r2 - rowidx + 1) < c2 - colidx + 1).
  { split; [apply Z.div_pos; lia|]. apply Z.div_lt_upper_bound; lia. }
  rewrite Hel in Hat by done.
  rewrite (slice_at2 input s sl) in Hat by (done || lia).
  pose proof (at3_in_cube _ _ _ _ _ Hat) as Hin.
  unfold u. rewrite Hdiv.
  rewrite unmapped_index_exact by (done || lia).
  by rewrite <- at3_at_flat.
Qed.

Lemma pool_cell_with_index_wf (this : MaxPoolingType) (input : Cube Z)
    (s j colidx i rowidx : Z) (o x o' x' : Cube Z) :
  cube_wf o -> cube_wf x ->
  pool_cell_with_index this input s j colidx i rowidx (o, x) = Some (o', x') ->
  cube_wf o' /\ cube_wf x' /\ same_shape o' o /\ same_shape x' x.
Proof.
  intros How Hxw Hcell. unfold pool_cell_with_index in Hcell.
  destruct (window this input s rowidx colidx) as [w|]; [|discriminate].
  destruct (MaxPoolingRule.PoolingWithIndex w) as [[k v]|]; [|discriminate].
  destruct (div_sz _ _); [|discriminate]. destruct (rem_sz _ _); [|discriminate].
  set (u := add_sz _ _) in Hcell.
  destruct (set3 x i j s u) as [x1|] eqn:Hx; [|discriminate].
  destruct (set3 o i j s v) as [o1|] eqn:Ho; [|discriminate].
  injection Hcell as <- <-.
  split; [exact (set3_wf _ _ _ _ _ _ How Ho)|].
  split; [exact (set3_wf _ _ _ _ _ _ Hxw Hx)|].
  split; [by apply (set3_inv _ _ _ _ _ _ Ho)|by apply (set3_inv _ _ _ _ _ _ Hx)].
Qed.

(** ** Loops that return *)

Lemma for_range_inv_partial {St : Type} (P : Z -> St -> Prop)
    (body : Z -> St -> option St) (n : nat) (i0 : Z) (st0 st' : St) :
  P i0 st0 ->
  (forall i st st1, i0 <= i < i0 + Z.of_nat n -> P i st ->
     body i st = Some st1 -> P (i + 1) st1) ->
  for_range n i0 body st0 = Some st' ->
  P (i0 + Z.of_nat n) st'.
Proof.
  revert i0 st0. induction n as [|n IH]; intros i0 st0 H0 Hstep Hrun.
  - injection Hrun as <-. by replace (i0 + Z.of_nat 0) with i0 by lia.
  - simpl in Hrun. destruct (body i0 st0) as [st1|] eqn:Hb; [|discriminate].
    replace (i0 + Z.of_nat (S n)) with (i0 + 1 + Z.of_nat n) by lia.
    apply (IH (i0 + 1) st1); [|intros i st st2 Hi; apply Hstep; lia|exact Hrun].
    apply (Hstep i0 st0 st1); [lia|exact H0|exact Hb].
Qed.

Lemma for_stride_inv_partial_from {St : Type} (P : Z -> St -> Prop)
    (body : Z -> Z -> St -> option St) (stride : Z) (n : nat) (i0 : Z)
    (st0 st' : St) :
  P i0 st0 ->
  (forall i st st1, i0 <= i < i0 + Z.of_nat n -> P i st ->
     body i (wrap (i * stride)) st = Some st1 -> P (i + 1) st1) ->
  for_stride n i0 (wrap (i0 * stride)) stride body st0 = Some st' ->
  P (i0 + Z.of_nat n) st'.
Proof.
  revert i0 st0. induction n as [|n IH]; intros i0 st0 H0 Hstep Hrun.
  - injection Hrun as <-. by replace (i0 + Z.of_nat 0) with i0 by lia.
  - simpl in Hrun.
    destruct (body i0 (wrap (i0 * stride)) st0) as [st1|] eqn:Hb; [|discriminate].
    rewrite add_sz_counter in Hrun.
    replace (i0 + Z.of_nat (S n)) with (i0 + 1 + Z.of_nat n) by lia.
    apply (IH (i0 + 1) st1); [|intros i st st2 Hi; apply Hstep; lia|exact Hrun].
    apply (Hstep i0 st0 st1); [lia|exact H0|exact Hb].
Qed.

Lemma for_stride_inv_partial {St : Type} (P : Z -> St -> Prop)
    (body : Z -> Z -> St -> option St) (stride n : Z) (st0 st' : St) :
  0 <= n -> P 0 st0 ->
  (forall i st st1, 0 <= i < n -> P i st ->
     body i (wrap (i * stride)) st = Some st1 -> P (i + 1) st1) ->
  for_stride (Z.to_nat n) 0 0 stride body st0 = Some st' ->
  P n st'.
Proof.
  intros Hn H0 Hstep Hrun.
  pose proof (for_stride_inv_partial_from P body stride (Z.to_nat n) 0 st0 st' H0)
    as Hfin.
  replace (0 + Z.of_nat (Z.to_nat n)) with n in Hfin by lia.
  apply Hfin; [|exact Hrun]. intros i st st1 Hi. apply Hstep. lia.
Qed.

Section TraversalPartial.

Context {St : Type}.
Variable body : Z -> Z -> Z -> Z -> Z -> St -> option St.
Variables sW sH nR nC nS : Z.
Variable Inv : St -> Prop.
Variable Ok : Z -> Z -> Z -> St -> Prop.

Hypothesis nR_nonneg : 0 <= nR.
Hypothesis nC_nonneg : 0 <= nC.

(** An iteration that returns establishes [Ok] at its own cell and keeps it
    at every other cell. *)
Hypothesis step : forall i j s st st',
  0 <= i < nR -> 0 <= j < nC -> 0 <= s < nS -> Inv st ->
  body s j (wrap (j * sH)) i (wrap (i * sW)) st = Some st' ->
  Inv st' /\ Ok i j s st' /\
  (forall i' j' s', (i', j', s') <> (i, j, s) ->
     Ok i' j' s' st -> Ok i' j' s' st').

Lemma traverse_rows_partial (j s : Z) (st0 st' : St) :
  0 <= j < nC -> 0 <= s < nS -> visited_upto Inv Ok nR nC nS 0 j s st0 ->
  for_stride (Z.to_nat nR) 0 0 sW
    (fun i rowidx st => body s j (wrap (j * sH)) i rowidx st) st0 = Some st' ->
  visited_upto Inv Ok nR nC nS 0 (j + 1) s st'.
Proof.
  intros Hj Hs H0 Hrun.
  pose proof (for_stride_inv_partial
                (fun i st => visited_upto Inv Ok nR nC nS i j s st)
                (fun i rowidx st => body s j (wrap (j * sH)) i rowidx st)
                sW nR st0 st' nR_nonneg H0) as Hfin.
  destruct Hfin as [HInv Hdone]; [|exact Hrun|].
  - intros i st st1 Hi [HInv Hdone] Hb.
    destruct (step i j s st st1 Hi Hj Hs HInv Hb) as (HInv' & Hok & Hkeep).
    split; [exact HInv'|].
    intros i' j' s' Hi' Hj' Hs' Hbefore.
    destruct (decide ((i', j', s') = (i, j, s))) as [[= -> -> ->]|Hne]; [exact Hok|].
    apply Hkeep; [exact Hne|]. apply Hdone; try done.
    unfold visited_before in *.
    assert (i' <> i \/ j' <> j \/ s' <> s) by
      (destruct (decide (i' = i)); destruct (decide (j' = j));
       destruct (decide (s' = s)); subst; try tauto; lia).
    lia.
  - split; [exact HInv|].
    intros i' j' s' Hi' Hj' Hs' Hbefore. apply Hdone; try done.
    unfold visited_before in *. lia.
Qed.

Lemma traverse_cols_partial (s : Z) (st0 st' : St) :
  0 <= s < nS -> visited_upto Inv Ok nR nC nS 0 0 s st0 ->
  for_stride (Z.to_nat nC) 0 0 sH
    (fun j colidx st =>
       for_stride (Z.to_nat nR) 0 0 sW
         (fun i rowidx st => body s j colidx i rowidx st) st) st0 = Some st' ->
  visited_upto Inv Ok nR nC nS 0 0 (s + 1) st'.
Proof.
  intros Hs H0 Hrun.
  pose proof (for_stride_inv_partial
                (fun j st => visited_upto Inv Ok nR nC nS 0 j s st)
                (fun j colidx st =>
                   for_stride (Z.to_nat nR) 0 0 sW
                     (fun i rowidx st => body s j colidx i rowidx st) st)
                sH nC st0 st' nC_nonneg H0) as Hfin.
  destruct Hfin as [HInv Hdone]; [|exact Hrun|].
  - intros j st st1 Hj Hupto Hb. by eapply traverse_rows_partial.
  - split; [exact HInv|].
    intros i' j' s' Hi' Hj' Hs' Hbefore. apply Hdone; try done.
    unfold visited_before in *. lia.
Qed.

(** If the three nested loops return, [Ok] holds at every cell. *)
Lemma traverse_partial (st0 st' : St) :
  Inv st0 ->
  for_range (Z.to_nat nS) 0
    (fun s st =>
       for_stride (Z.to_nat nC) 0 0 sH
         (fun j colidx st =>
            for_stride (Z.to_nat nR) 0 0 sW
              (fun i rowidx st => body s j colidx i rowidx st) st) st) st0
    = Some st' ->
  Inv st' /\
  (forall i j s, 0 <= i < nR -> 0 <= j < nC -> 0 <= s < nS -> Ok i j s st').
Proof.
  intros H0 Hrun.
  pose proof (for_range_inv_partial
                (fun s st => visited_upto Inv Ok nR nC nS 0 0 s st)
                (fun s st =>
                   for_stride (Z.to_nat nC) 0 0 sH
                     (fun j colidx st =>
                        for_stride (Z.to_nat nR) 0 0 sW
                          (fun i rowidx st => body s j colidx i rowidx st) st) st)
                (Z.to_nat nS) 0 st0 st') as Hfin.
  destruct Hfin as [HInv Hdone]; [| |exact Hrun|].
  - split; [exact H0|]. intros i' j' s' Hi' Hj' Hs' Hb.
    unfold visited_before in Hb. lia.
  - intros s st st1 Hs Hupto Hb. apply (traverse_cols_partial s st st1); [lia|done|done].
  - split; [exact HInv|].
    intros i j s Hi Hj Hs. apply Hdone; try done.
    unfold visited_before. lia.
Qed.

End TraversalPartial.

(** X12. Whatever the members of the layer hold, a forward pass that
    returns has stored, at every output cell, an index below the element
    count of the input, and the input element at that index is the value
    stored in the cell. *)
Theorem X12_returned_index_map_is_safe_for_any_configuration
    (this : MaxPoolingType) (input output indices out idx : Cube Z) :
  cube_wf input -> cube_wf output -> cube_wf indices ->
  PoolingOperation this input output indices = Some (out, idx) ->
  forall i j s,
    0 <= i < n_rows output -> 0 <= j < n_cols output ->
    0 <= s < n_slices input ->
    exists u v,
      at3 idx i j s = Some u /\ at3 out i j s = Some v /\
      0 <= u < n_elem input /\ at_flat input u = Some v.
Proof.
  intros Hinwf Howf Hxwf Hrun.
  pose proof Howf as (HR & HC & _).
  unfold PoolingOperation in Hrun.
  destruct (traverse_partial (pool_cell_with_index this input)
              (strideWidth this) (strideHeight this)
              (n_rows output) (n_cols output) (n_slices input)
              (fun st => cube_wf (fst st) /\ cube_wf (snd st))
              (index_safe input) HR HC) with (st0 := (output, indices))
              (st' := (out, idx)) as [_ Hcells].
  - intros i j s [o x] [o' x'] Hi Hj Hs [How Hxw] Hcell. simpl in How, Hxw.
    destruct (pool_cell_with_index_wf _ _ _ _ _ _ _ _ _ _ _ How Hxw Hcell)
      as (How' & Hxw' & _ & _).
    destruct (pool_cell_with_index_safe _ _ _ _ _ _ _ _ _ _ _ Hinwf
                (wrap_is_size _) (wrap_is_size _) Hcell)
      as (u & v & Hx & Ho & Hat).
    split; [done|]. split.
    + exists u, v. simpl. split; [exact (at3_set3_eq _ _ _ _ _ _ Hxw Hx)|].
      split; [exact (at3_set3_eq _ _ _ _ _ _ How Ho)|exact Hat].
    + intros i' j' s' Hne (u1 & v1 & Hu1 & Hv1 & Hat1). simpl in Hu1, Hv1.
      exists u1, v1. simpl.
      rewrite (at3_set3_ne _ _ _ _ _ _ _ _ _ Hx Hne).
      rewrite (at3_set3_ne _ _ _ _ _ _ _ _ _ Ho Hne). done.
  - done.
  - exact Hrun.
  - intros i j s Hi Hj Hs.
    destruct (Hcells i j s Hi Hj Hs) as (u & v & Hu & Hv & Hat).
    simpl in Hu, Hv. exists u, v.
    split; [exact Hu|]. split; [exact Hv|]. split; [|exact Hat].
    by apply at_flat_Some in Hat as [? _].
Qed.

Lemma cube_wf_input3x3 : cube_wf input3x3.
Proof. unfold cube_wf, n_elem. simpl. rewrite size_modulus_eq. lia. Qed.

Lemma cube_wf_blank2x2 : cube_wf (blank 2 2 1).
Proof. unfold cube_wf, n_elem. simpl. rewrite size_modulus_eq. lia. Qed.

Lemma X12_returned_index_map_witness :
  cube_wf input3x3 /\ cube_wf (blank 2 2 1) /\
  PoolingOperation layer_wrapped input3x3 (blank 2 2 1) (blank 2 2 1)
    = Some (mkCube 2 2 1 [9; 9; 9; 9], mkCube 2 2 1 [4; 4; 4; 4]) /\
  forall i j s,
    0 <= i < n_rows (blank 2 2 1) -> 0 <= j < n_cols (blank 2 2 1) ->
    0 <= s < n_slices input3x3 ->
    exists u v,
      at3 (mkCube 2 2 1 [4; 4; 4; 4]) i j s = Some u /\
      at3 (mkCube 2 2 1 [9; 9; 9; 9]) i j s = Some v /\
      0 <= u < n_elem input3x3 /\ at_flat input3x3 u = Some v.
Proof.
  assert (Hrun : PoolingOperation layer_wrapped input3x3 (blank 2 2 1)
                   (blank 2 2 1)
                 = Some (mkCube 2 2 1 [9; 9; 9; 9], mkCube 2 2 1 [4; 4; 4; 4]))
    by reflexivity.
  split; [exact cube_wf_input3x3|]. split; [exact cube_wf_blank2x2|].
  split; [exact Hrun|].
  exact (X12_returned_index_map_is_safe_for_any_configuration layer_wrapped
           input3x3 (blank 2 2 1) (blank 2 2 1) _ _
           cube_wf_input3x3 cube_wf_blank2x2 cube_wf_blank2x2 Hrun).
Defined.

(** The wrapped layer is outside the valid configurations: its window
    extent, computed without wrap-around, is negative. *)
Example layer_wrapped_not_config_ok : ~ config_ok layer_wrapped.
Proof.
  unfold config_ok, windowRows. simpl. intros (_ & _ & _ & _ & _ & H & _). lia.
Qed.

(** ** The sum of the gradient *)

Section GradientSum.

Context {A : Type} `{ElemType A}.

Lemma fold_add_shift (l : list A) (a e : A) :
  exact_addition A ->
  fold_left elem_add l (elem_add a e) = elem_add (fold_left elem_add l a) e.
Proof.
  intros (Hassoc & Hcomm & _). revert a.
  induction l as [|x l IH]; intros a; simpl; [reflexivity|].
  rewrite <- IH. f_equal.
  rewrite <- !Hassoc. f_equal. apply Hcomm.
Qed.

(** Adding [e] to one element adds [e] to the sum. *)
Lemma fold_add_insert (l : list A) (k : nat) (o e z : A) :
  exact_addition A ->
  l !! k = Some o ->
  fold_left elem_add (<[k := elem_add o e]> l) z
  = elem_add (fold_left elem_add l z) e.
Proof.
  intros Hex. revert k z. induction l as [|x l IH]; intros k z Hk.
  - by rewrite lookup_nil in Hk.
  - destruct k as [|k]; simpl in *.
    + injection Hk as ->. pose proof Hex as (Hassoc & _).
      rewrite Hassoc. by apply fold_add_shift.
    + by apply IH.
Qed.

Lemma fold_add_zeros (n : nat) :
  exact_addition A ->
  fold_left elem_add (replicate n elem_zero) elem_zero = (elem_zero : A).
Proof.
  intros (_ & _ & Hzero). induction n as [|n IH]; simpl; [reflexivity|].
  by rewrite Hzero.
Qed.

(** With an exact addition, a backward pass that returns has kept the
    sum. *)
Lemma unpooling_accu (error output g : Cube A) (indices : Cube Z) :
  exact_addition A ->
  Z.of_nat (length (mem error)) <= n_elem indices ->
  UnpoolingOperation error output indices = Some g ->
  accu g = accu error.
Proof.
  intros Hex Hlen Hrun. unfold UnpoolingOperation in Hrun.
  assert (Hfin : accu g
                 = fold_left elem_add
                     (take (Z.to_nat (0 + Z.of_nat (Z.to_nat (n_elem indices))))
                        (mem error)) elem_zero).
  { apply (for_range_inv_partial
             (fun i out =>
                accu out
                = fold_left elem_add (take (Z.to_nat i) (mem error)) elem_zero)
             (unpool_step error indices) (Z.to_nat (n_elem indices)) 0
             (zeros output) g); [| |exact Hrun].
    - unfold accu, zeros. simpl. by apply fold_add_zeros.
    - intros i out out' Hi Hacc Hstep.
      destruct (unpool_step_inv error indices i out out' Hstep)
        as (k & e & o & _ & He & Ho & _ & Hmem).
      apply at_flat_Some in He as [_ He]. apply at_flat_Some in Ho as [_ Ho].
      unfold accu in *. rewrite Hmem.
      rewrite (fold_add_insert _ _ o e _ Hex Ho), Hacc.
      replace (Z.to_nat (i + 1)) with (S (Z.to_nat i)) by lia.
      rewrite (take_S_r _ _ e He), fold_left_app. reflexivity. }
  rewrite Hfin. unfold accu. f_equal. apply take_ge. lia.
Qed.

Lemma insert_Permutation (l : list A) (k : nat) (o x : A) :
  l !! k = Some o -> <[k := x]> l ≡ₚ x :: delete k l.
Proof.
  intros Hk. pose proof (lookup_lt_Some _ _ _ Hk) as Hlt.
  rewrite (delete_Permutation (<[k := x]> l) k x)
    by (by apply list_lookup_insert_eq).
  apply Permutation_skip. revert k Hk Hlt.
  induction l as [|y l IH]; intros [|k] Hk Hlt; simpl in *;
    try discriminate; try lia; [reflexivity|].
  apply Permutation_skip, (IH k Hk). lia.
Qed.

(** When no two cells name the same location, the gradient holds the
    upstream gradients, each added to zero, and zeros elsewhere. *)
Lemma unpooling_Permutation (error output : Cube A) (indices : Cube Z) (g : Cube A) :
  backward_ok error output indices ->
  NoDup (mem indices) ->
  (length (mem indices) <= length (mem output))%nat ->
  UnpoolingOperation error output indices = Some g ->
  mem g ≡ₚ (elem_add elem_zero <$> mem error)
           ++ replicate (length (mem output) - length (mem error)) elem_zero.
Proof.
  intros Hok Hnd Hle Hrun.
  pose proof Hok as (Hewf & Howf & Hiwf & Hsh & Hrange).
  assert (Hne : n_elem error = n_elem indices).
  { destruct Hsh as (Hr & Hc & Hsl). unfold n_elem. by rewrite Hr, Hc, Hsl. }
  pose proof Hewf as (_ & _ & _ & Helen & _).
  pose proof Hiwf as (_ & _ & _ & Hilen & _).
  pose proof Howf as (_ & _ & _ & Holen & _).
  unfold UnpoolingOperation in Hrun.
  destruct (for_range_inv
    (fun i out =>
       scattered error output indices i out /\
       mem out ≡ₚ (elem_add elem_zero <$> take (Z.to_nat i) (mem error))
                  ++ replicate (length (mem output) - Z.to_nat i) elem_zero)
    (unpool_step error indices) (Z.to_nat (n_elem indices)) 0
    (zeros output)) as (g' & Hrun' & _ & Hperm).
  - split.
    + unfold scattered, zeros. simpl. split; [by repeat split|].
      split; [by rewrite length_replicate|].
      intros p Hp. by rewrite lookup_replicate_2.
    + unfold zeros. simpl. rewrite Nat.sub_0_r.
      by replace (Z.to_nat (n_elem output)) with (length (mem output)) by lia.
  - intros i out Hi [Hsc Hperm].
    destruct (unpool_step_spec error output indices i out Hok ltac:(lia) Hsc)
      as (out' & Hstep & Hsc').
    exists out'. split; [exact Hstep|]. split; [exact Hsc'|].
    destruct (unpool_step_inv error indices i out out' Hstep)
      as (k & e & o & Hk & He & Ho & _ & Hmem).
    pose proof (Hrange i k Hk) as Hkr.
    apply at_flat_Some in Hk as [_ Hk]. apply at_flat_Some in He as [_ He].
    apply at_flat_Some in Ho as [_ Ho].
    (* nothing has been added at [k] yet *)
    assert (Hzero : o = elem_zero).
    { destruct Hsc as (_ & _ & Hel).
      rewrite (Hel (Z.to_nat k)) in Ho by lia. injection Ho as <-.
      rewrite Z2Nat.id by lia. unfold gathered_of.
      rewrite zip_with_take, named_by_absent; [reflexivity|].
      intros q Hq. apply lookup_take_Some in Hq as [Hq Hlt].
      pose proof (proj1 (NoDup_alt (mem indices)) Hnd _ _ _ Hq Hk). lia. }
    subst o. rewrite Hmem.
    replace (Z.to_nat (i + 1)) with (S (Z.to_nat i)) by lia.
    rewrite (take_S_r _ _ e He), fmap_app. simpl.
    destruct (length (mem output) - Z.to_nat i)%nat as [|m] eqn:Hm; [lia|].
    replace (length (mem output) - S (Z.to_nat i))%nat with m by lia.
    rewrite (insert_Permutation _ _ _ _ Ho).
    rewrite (delete_Permutation _ _ _ Ho) in Hperm.
    simpl in Hperm. rewrite <- Permutation_middle in Hperm.
    apply Permutation_cons_inv in Hperm. rewrite Hperm.
    rewrite <- app_assoc. simpl. by rewrite <- Permutation_middle.
  - rewrite Hrun in Hrun'. injection Hrun' as <-.
    rewrite Hperm, take_ge by lia.
    by replace (Z.to_nat (0 + Z.of_nat (Z.to_nat (n_elem indices))))
      with (length (mem error)) by lia.
Qed.

End GradientSum.

(** The index map of a forward pass without overlap names every location
    at most once, so it has no more entries than the input has elements. *)
Lemma index_map_NoDup (this : MaxPoolingType)
    (input output indices out idx : Cube Z) :
  forward_ok this input output indices ->
  windowRows this <= strideWidth this ->
  windowCols this <= strideHeight this ->
  PoolingOperation this input output indices = Some (out, idx) ->
  NoDup (mem idx).
Proof.
  intros Hok HnoR HnoC Hrun. pose proof Hok as (Hcfg & Hshapes & _).
  destruct (forward_spec this input output indices Hok)
    as (out' & idx' & Hrun' & _ & Hidxwf & _ & Hidxsh & Hcells).
  rewrite Hrun in Hrun'. injection Hrun' as <- <-.
  pose proof Hidxwf as (_ & _ & _ & Hlen & _).
  apply NoDup_alt. intros p q u Hp Hq.
  pose proof (lookup_lt_Some _ _ _ Hp) as Hplt.
  pose proof (lookup_lt_Some _ _ _ Hq) as Hqlt.
  destruct (flat_index_decode idx (Z.of_nat p) Hidxwf ltac:(lia))
    as (i & j & s & Hin & Hflat).
  destruct (flat_index_decode idx (Z.of_nat q) Hidxwf ltac:(lia))
    as (i' & j' & s' & Hin' & Hflat').
  assert (Hino : in_cube output i j s).
  { eapply same_shape_in_cube; [|exact Hin]. by apply same_shape_sym. }
  assert (Hino' : in_cube output i' j' s').
  { eapply same_shape_in_cube; [|exact Hin']. by apply same_shape_sym. }
  destruct (Hcells i j s Hino) as (u1 & v & Hres & _ & Hu). simpl in Hu.
  destruct (Hcells i' j' s' Hino') as (u2 & v' & Hres' & _ & Hu'). simpl in Hu'.
  rewrite (at3_at_flat idx i j s Hin), Hflat in Hu.
  rewrite (at3_at_flat idx i' j' s' Hin'), Hflat' in Hu'.
  apply at_flat_Some in Hu as [_ Hu]. apply at_flat_Some in Hu' as [_ Hu'].
  rewrite Nat2Z.id in Hu, Hu'.
  assert (u1 = u) as -> by congruence. assert (u2 = u) as -> by congruence.
  pose proof (stored_indices_distinct this input output i j s i' j' s' u v v'
                Hcfg Hshapes HnoR HnoC Hino Hino' Hres Hres') as Heq.
  injection Heq as -> -> ->. lia.
Qed.

Lemma NoDup_bounded_length (l : list Z) (n : Z) :
  0 <= n -> NoDup l -> (forall k, k ∈ l -> 0 <= k < n) ->
  Z.of_nat (length l) <= n.
Proof.
  intros Hn Hnd Hb.
  pose proof (submseteq_length l (seqZ 0 n)) as Hlen.
  rewrite length_seqZ in Hlen. enough (length l <= Z.to_nat n)%nat by lia.
  apply Hlen, NoDup_submseteq; [exact Hnd|].
  intros k Hk. apply elem_of_seqZ. specialize (Hb k Hk). lia.
Qed.

(** A backward pass on the index map of a forward pass without overlap:
    the gradient holds the upstream gradients, each added to zero, and
    zeros at the locations no cell selected. *)
Lemma backward_without_overlap {A : Type} `{ElemType A}
    (this : MaxPoolingType) (input output indices out idx : Cube Z)
    (error g0 g : Cube A) :
  forward_ok this input output indices ->
  PoolingOperation this input output indices = Some (out, idx) ->
  cube_wf error -> same_shape error output ->
  cube_wf g0 -> same_shape g0 input ->
  windowRows this <= strideWidth this ->
  windowCols this <= strideHeight this ->
  UnpoolingOperation error g0 idx = Some g ->
  mem g ≡ₚ (elem_add elem_zero <$> mem error)
           ++ replicate (Z.to_nat (n_elem input - n_elem output)) elem_zero.
Proof.
  intros Hok Hrun Hewf Hesh Hgwf Hgsh HnoR HnoC Hun.
  pose proof (forward_gives_backward_ok this input output indices out idx
                error g0 Hok Hrun Hewf Hesh Hgwf Hgsh) as Hbok.
  pose proof Hbok as (_ & _ & Hiwf & Hsh & Hrange).
  assert (Hne : n_elem error = n_elem idx).
  { destruct Hsh as (Hr & Hc & Hsl). unfold n_elem. by rewrite Hr, Hc, Hsl. }
  pose proof Hewf as (_ & _ & _ & Helen & _).
  pose proof Hiwf as (_ & _ & _ & Hilen & _).
  pose proof Hgwf as (_ & _ & _ & Hglen & _).
  pose proof (index_map_NoDup this input output indices out idx
                Hok HnoR HnoC Hrun) as Hnd.
  assert (Hle : Z.of_nat (length (mem idx)) <= n_elem g0).
  { apply NoDup_bounded_length; [lia|exact Hnd|].
    intros k Hk. apply list_elem_of_lookup in Hk as [q Hq].
    apply (Hrange (Z.of_nat q)). apply at_flat_Some.
    pose proof (lookup_lt_Some _ _ _ Hq). split; [lia|].
    by rewrite Nat2Z.id. }
  rewrite (unpooling_Permutation error g0 idx g Hbok Hnd ltac:(lia) Hun).
  assert (Hni : n_elem g0 = n_elem input)
    by apply (same_shape_n_elem g0 input Hgsh).
  assert (Hno : n_elem error = n_elem output)
    by apply (same_shape_n_elem error output Hesh).
  replace (length (mem g0) - length (mem error))%nat
    with (Z.to_nat (n_elem input - n_elem output)) by lia.
  reflexivity.
Qed.

(** *** [double] gradients *)

(** The addition of [double] is not associative:
    [(1 + 2^53) - 2^53 = 0] and [1 + (2^53 - 2^53) = 1]. *)
Lemma double_addition_not_exact : ~ exact_addition double.
Proof.
  intros (Hassoc & _).
  specialize (Hassoc (double_of_Z 1) (double_of_Z (2 ^ 53))
                (double_of_Z (- 2 ^ 53))).
  vm_compute in Hassoc. discriminate.
Qed.

(** Adding a [double] to zero keeps its value (it turns -0 into +0). *)
Lemma double_value_add_zero (e : double) :
  double_value (elem_add elem_zero e) = double_value e.
Proof. by destruct e as [[]|[]| |]. Qed.

Lemma values_add_zero (l : list double) :
  double_value <$> (elem_add elem_zero <$> l) = double_value <$> l.
Proof.
  induction l as [|e l IH]; [reflexivity|].
  rewrite !fmap_cons, IH. f_equal. apply double_value_add_zero.
Qed.

Lemma sum_values_Permutation (l1 l2 : list Q) :
  l1 ≡ₚ l2 -> (fold_right Qplus 0 l1 == fold_right Qplus 0 l2)%Q.
Proof.
  induction 1 as [|x l1 l2 _ IH|x y l|l1 l2 l3 _ IH1 _ IH2]; simpl.
  - reflexivity.
  - by rewrite IH.
  - rewrite !Qplus_assoc, (Qplus_comm y x). reflexivity.
  - by rewrite IH1.
Qed.

Lemma sum_values_app (l1 l2 : list Q) :
  (fold_right Qplus 0 (l1 ++ l2)
   == fold_right Qplus 0 l1 + fold_right Qplus 0 l2)%Q.
Proof.
  induction l1 as [|x l1 IH]; simpl.
  - by rewrite Qplus_0_l.
  - by rewrite IH, Qplus_assoc.
Qed.

Lemma sum_values_zeros (n : nat) :
  (fold_right Qplus 0
     (double_value <$> replicate n (elem_zero : double)) == 0)%Q.
Proof.
  induction n as [|n IH]; simpl; [reflexivity|].
  rewrite IH. reflexivity.
Qed.

(** Without overlap a backward pass in [double] keeps the exact sum: no
    addition rounds, every gradient is added to zero only. *)
Lemma unpooling_double_keeps_exact_sum
    (this : MaxPoolingType) (input output indices out idx : Cube Z)
    (error g0 g : Cube double) :
  forward_ok this input output indices ->
  PoolingOperation this input output indices = Some (out, idx) ->
  cube_wf error -> same_shape error output ->
  cube_wf g0 -> same_shape g0 input ->
  windowRows this <= strideWidth this ->
  windowCols this <= strideHeight this ->
  UnpoolingOperation error g0 idx = Some g ->
  (exact_sum g == exact_sum error)%Q.
Proof.
  intros Hok Hrun Hewf Hesh Hgwf Hgsh HnoR HnoC Hun.
  pose proof (backward_without_overlap this input output indices out idx
                error g0 g Hok Hrun Hewf Hesh Hgwf Hgsh HnoR HnoC Hun) as Hperm.
  unfold exact_sum.
  rewrite (sum_values_Permutation _ _ (fmap_Permutation double_value _ _ Hperm)).
  rewrite fmap_app, sum_values_app, sum_values_zeros, Qplus_0_r.
  rewrite values_add_zero. reflexivity.
Qed.

Lemma exact_addition_Z : exact_addition Z.
Proof.
  split; [|split]; simpl.
  - intros x y z. apply Z.add_assoc.
  - intros x y. apply Z.add_comm.
  - intros x. reflexivity.
Qed.

Lemma forward_ok_column :
  forward_ok layer_column input_column (blank 4 1 1) (blank 4 1 1).
Proof.
  unfold forward_ok, config_ok, shapes_ok, fits, cube_wf, same_shape, is_size,
    windowRows, windowCols, n_elem, size_modulus, size_bits.
  simpl. repeat split; lia.
Qed.

Lemma cube_wf_gradient_cancel : cube_wf gradient_cancel.
Proof.
  unfold cube_wf, n_elem, size_modulus, size_bits. simpl. repeat split; lia.
Qed.

(** The forward pass of the column scenario: both pairs of overlapping
    windows select the same element. *)
Example forward_column :
  PoolingOperation layer_column input_column (blank 4 1 1) (blank 4 1 1)
  = Some (mkCube 4 1 1 [9; 9; 9; 9], indices_column).
Proof. vm_compute. reflexivity. Qed.

(** Its backward pass on [1; 2^53; 3; -2^53]: [1 + 2^53] is rounded to
    [2^53] at location 1, and [3 - 2^53] is exact at location 3. *)
Example unpooling_column_double :
  UnpoolingOperation gradient_cancel (zero_cube double 5 1 1) indices_column
  = Some (mkCube 5 1 1
            [S754_zero false; double_of_Z (2 ^ 53); S754_zero false;
             double_of_Z (3 - 2 ^ 53); S754_zero false]).
Proof. vm_compute. reflexivity. Qed.

(** C3 (as stated, refuted). With overlapping windows and [double]
    elements the backward pass loses gradient mass: in the column scenario
    (kernel 2, stride 1) the forward pass yields the index map
    [1; 1; 3; 3]; on the upstream gradient [1; 2^53; 3; -2^53] the backward
    pass returns a gradient whose entries sum to 3, in [double] as in exact
    arithmetic, while the entries of the upstream gradient sum to 4. *)
Lemma C3_sum_not_conserved_counterexample :
  forward_ok layer_column input_column (blank 4 1 1) (blank 4 1 1) /\
  strideWidth layer_column < kernelWidth layer_column /\
  cube_wf gradient_cancel /\ same_shape gradient_cancel (blank 4 1 1) /\
  cube_wf (zero_cube double 5 1 1) /\
  same_shape (zero_cube double 5 1 1) input_column /\
  exists out idx g,
    PoolingOperation layer_column input_column (blank 4 1 1) (blank 4 1 1)
      = Some (out, idx) /\
    UnpoolingOperation gradient_cancel (zero_cube double 5 1 1) idx = Some g /\
    accu g = double_of_Z 3 /\ accu gradient_cancel = double_of_Z 4 /\
    accu g <> accu gradient_cancel /\
    (exact_sum g == 3)%Q /\ (exact_sum gradient_cancel == 4)%Q /\
    ~ (exact_sum g == exact_sum gradient_cancel)%Q.
Proof.
  split; [exact forward_ok_column|].
  split; [simpl; lia|].
  split; [exact cube_wf_gradient_cancel|].
  split; [by repeat split|].
  split; [apply cube_wf_zero_cube; rewrite ?size_modulus_eq; lia|].
  split; [by repeat split|].
  eexists _, _, _.
  split; [exact forward_column|].
  split; [exact unpooling_column_double|].
  split; [vm_compute; reflexivity|].
  split; [vm_compute; reflexivity|].
  split; [vm_compute; discriminate|].
  split; [vm_compute; reflexivity|].
  split; [vm_compute; reflexivity|].
  vm_compute. discriminate.
Qed.

(** C3 (amended). For an upstream gradient shaped like the output and the
    index map of a forward pass, the backward pass returns a gradient of
    the shape of the input. Its entries add up to the sum of the upstream
    gradient whenever the addition of the element type is exact
    (associative, commutative, zero neutral), with or without overlap.
    For every element type, when the windows do not overlap the entries of
    the gradient are the upstream gradients, each added to zero, and zeros
    at the remaining locations. *)
Theorem C3_unpooling_conserves_sum {A : Type} `{ElemType A}
    (this : MaxPoolingType) (input output indices out idx : Cube Z)
    (error g0 : Cube A) :
  forward_ok this input output indices ->
  PoolingOperation this input output indices = Some (out, idx) ->
  cube_wf error -> same_shape error out ->
  cube_wf g0 -> same_shape g0 input ->
  exists g,
    UnpoolingOperation error g0 idx = Some g /\
    same_shape g input /\ cube_wf g /\
    (exact_addition A -> accu g = accu error) /\
    (windowRows this <= strideWidth this ->
     windowCols this <= strideHeight this ->
     mem g ≡ₚ (elem_add elem_zero <$> mem error)
              ++ replicate (Z.to_nat (n_elem input - n_elem output)) elem_zero).
Proof.
  intros Hok Hrun Hewf Hesh' Hgwf Hgsh.
  destruct (forward_spec this input output indices Hok)
    as (out' & idx' & Hrun' & _ & _ & Hosh & _).
  rewrite Hrun in Hrun'. injection Hrun' as <- <-.
  assert (Hesh : same_shape error output)
    by (eapply same_shape_trans; [exact Hesh'|exact Hosh]).
  pose proof (forward_gives_backward_ok this input output indices out idx
                error g0 Hok Hrun Hewf Hesh Hgwf Hgsh) as Hbok.
  pose proof Hbok as (_ & _ & Hiwf & Hsh & _).
  assert (Hne : n_elem error = n_elem idx).
  { destruct Hsh as (Hr & Hc & Hsl). unfold n_elem. by rewrite Hr, Hc, Hsl. }
  pose proof Hewf as (_ & _ & _ & Helen & _).
  destruct (unpooling_spec error g0 idx Hbok) as (g & Hun & Hs & Hwf & _).
  exists g. split; [exact Hun|].
  split; [by eapply same_shape_trans|]. split; [exact Hwf|].
  split.
  - intros Hex. apply (unpooling_accu error g0 g idx Hex); [lia|exact Hun].
  - intros HnoR HnoC.
    exact (backward_without_overlap this input output indices out idx
             error g0 g Hok Hrun Hewf Hesh Hgwf Hgsh HnoR HnoC Hun).
Qed.

Lemma C3_unpooling_witness :
  forward_ok layer2x2 input4x4 (blank 2 2 1) (blank 2 2 1) /\
  PoolingOperation layer2x2 input4x4 (blank 2 2 1) (blank 2 2 1)
    = Some (mkCube 2 2 1 [6; 14; 8; 16], mkCube 2 2 1 [5; 7; 13; 15]) /\
  cube_wf gradient2x2 /\
  same_shape gradient2x2 (mkCube 2 2 1 [6; 14; 8; 16]) /\
  cube_wf (blank 4 4 1) /\ same_shape (blank 4 4 1) input4x4 /\
  exact_addition Z /\
  windowRows layer2x2 <= strideWidth layer2x2 /\
  windowCols layer2x2 <= strideHeight layer2x2 /\
  exists g,
    UnpoolingOperation gradient2x2 (blank 4 4 1) (mkCube 2 2 1 [5; 7; 13; 15])
      = Some g /\
    same_shape g input4x4 /\ cube_wf g /\
    accu g = accu gradient2x2 /\
    mem g ≡ₚ (elem_add elem_zero <$> mem gradient2x2)
             ++ replicate (Z.to_nat (n_elem input4x4 - n_elem (blank 2 2 1)))
                  elem_zero.
Proof.
  split; [exact forward_ok_scenario|].
  split; [exact forward_scenario|].
  split; [exact cube_wf_gradient2x2|].
  split; [by repeat split|].
  split; [exact cube_wf_blank4x4|].
  split; [by repeat split|].
  split; [exact exact_addition_Z|].
  split; [exact (proj1 no_overlap_scenario)|].
  split; [exact (proj2 no_overlap_scenario)|].
  destruct (C3_unpooling_conserves_sum layer2x2 input4x4 (blank 2 2 1)
              (blank 2 2 1) (mkCube 2 2 1 [6; 14; 8; 16])
              (mkCube 2 2 1 [5; 7; 13; 15]) gradient2x2 (blank 4 4 1)
              forward_ok_scenario forward_scenario
              cube_wf_gradient2x2 ltac:(by repeat split)
              cube_wf_blank4x4 ltac:(by repeat split))
    as (g & Hrun & Hshape & Hwf & Hsum & Hperm).
  exists g. split; [exact Hrun|]. split; [exact Hshape|]. split; [exact Hwf|].
  split; [exact (Hsum exact_addition_Z)|].
  exact (Hperm (proj1 no_overlap_scenario) (proj2 no_overlap_scenario)).
Defined.

(** In [double], without overlap, the same index map carries every
    gradient to its place unchanged. *)
Example unpooling_small_double :
  UnpoolingOperation gradient_small (zero_cube double 4 4 1)
    (mkCube 2 2 1 [5; 7; 13; 15])
  = Some (mkCube 4 4 1
            (double_of_Z <$> [0; 0; 0; 0; 0; 1; 0; 2; 0; 0; 0; 0; 0; 3; 0; 4])).
Proof. vm_compute. reflexivity. Qed.

(** The sum is kept by the integer instance, overlap or not. *)
Example conservation_overlap_Z :
  exists g,
    UnpoolingOperation gradient2x2 (blank 3 3 1) (mkCube 2 2 1 [4; 4; 4; 4])
      = Some g /\
    accu g = accu gradient2x2.
Proof. eexists. split; [vm_compute; reflexivity|]. vm_compute. reflexivity. Qed.
